(** * voxsonus: the subtitle-synthesis core of [app/services/subtitle_processor.py]

    A shallow embedding of the event reconciler, the track merger, the line
    formatter, the batched translator and the timestamp serializers, with the
    properties the specification states about them.

    Conventions of the embedding:
    - a Python [str] is a [string] whose characters are code points below 256;
    - a Python [int] is a [Z]; a length is a [nat], injected into [Z] where the
      source mixes it with integers;
    - a confidence score is a finite float that the code only compares and
      negates, so it is a rational ([Q]); the one place where float rounding
      decides a value ([int(duration * chars_ratio)]) uses binary64 floats;
    - a subtitle event is a Python [dict]; the pipeline passes references to
      such dicts around, so a list of events is a list of locations into a
      store of records. *)

From Stdlib Require Import ZArith NArith QArith Lia Bool List String Ascii.
From Stdlib Require Import Permutation Sorted.
From Stdlib Require Import DecimalString DecimalNat DecimalN.
From Stdlib Require Import Floats SpecFloat.
Import ListNotations.

Local Open Scope string_scope.
Local Open Scope list_scope.
Local Open Scope Z_scope.

(** ** Python strings *)

Module Py.

(** [str.isspace] on one character of the Latin-1 range. *)
Definition isspace (c : ascii) : bool :=
  let n := N_of_ascii c in
  (((9 <=? n) && (n <=? 13)) || ((28 <=? n) && (n <=? 32))
   || (n =? 133) || (n =? 160))%N.

(** [str.lower] on one character of the Latin-1 range. *)
Definition lower_char (c : ascii) : ascii :=
  let n := N_of_ascii c in
  if (((65 <=? n) && (n <=? 90))
      || ((192 <=? n) && (n <=? 222) && negb (n =? 215)))%N
  then ascii_of_N (n + 32) else c.

Fixpoint lower (s : string) : string :=
  match s with
  | EmptyString => EmptyString
  | String c s' => String (lower_char c) (lower s')
  end.

(** [s.replace(c, '')] for a one-character [c]. *)
Fixpoint remove_char (c : ascii) (s : string) : string :=
  match s with
  | EmptyString => EmptyString
  | String d s' =>
      if Ascii.eqb c d then remove_char c s' else String d (remove_char c s')
  end.

Fixpoint lstrip (s : string) : string :=
  match s with
  | EmptyString => EmptyString
  | String c s' => if isspace c then lstrip s' else s
  end.

Fixpoint rstrip (s : string) : string :=
  match s with
  | EmptyString => EmptyString
  | String c s' =>
      match rstrip s' with
      | EmptyString => if isspace c then EmptyString else String c EmptyString
      | r => String c r
      end
  end.

Definition strip (s : string) : string := rstrip (lstrip s).

Definition startswith (s p : string) : bool := String.prefix p s.

(** [p in s]. *)
Fixpoint contains (p s : string) : bool :=
  String.prefix p s
  || match s with
     | EmptyString => false
     | String _ s' => contains p s'
     end.

(** Truth value of a string: the empty string is falsy. *)
Definition truthy (s : string) : bool :=
  match s with EmptyString => false | _ => true end.

Definition len (s : string) : Z := Z.of_nat (String.length s).

(** [s.split()] reads [s] left to right with the word under construction. *)
Fixpoint split_from (cur s : string) : list string :=
  match s with
  | EmptyString => if truthy cur then [cur] else []
  | String c s' =>
      if isspace c
      then (if truthy cur then cur :: split_from "" s' else split_from "" s')
      else split_from (cur ++ String c "")%string s'
  end.

Definition split (s : string) : list string := split_from "" s.

(** [s.split(sep)] for a one-character [sep]: empty pieces are kept. *)
Fixpoint split_on_from (sep : ascii) (cur s : string) : list string :=
  match s with
  | EmptyString => [cur]
  | String c s' =>
      if Ascii.eqb c sep
      then cur :: split_on_from sep "" s'
      else split_on_from sep (cur ++ String c "")%string s'
  end.

Definition split_on (sep : ascii) (s : string) : list string :=
  split_on_from sep "" s.

(** [sep.join(l)]. *)
Definition join (sep : string) (l : list string) : string :=
  String.concat sep l.

(** [s[n:]]. *)
Fixpoint drop (n : nat) (s : string) : string :=
  match n, s with
  | O, _ => s
  | S n', String _ s' => drop n' s'
  | S _, EmptyString => EmptyString
  end.

(** [str(n)] and the [d] format of a natural number. *)
Definition str_of_N (n : N) : string := NilEmpty.string_of_uint (N.to_uint n).

Definition str_of_nat (n : nat) : string := str_of_N (N.of_nat n).

Fixpoint zeros (n : nat) : string :=
  match n with O => "" | S n' => String "0" (zeros n') end.

(** [f"{z:0wd}"]: at least [w] characters, the sign first, zeros after it. *)
Definition format_0d (w : nat) (z : Z) : string :=
  if z <? 0
  then
    let d := str_of_N (Z.to_N (- z)) in
    ("-" ++ zeros (w - 1 - String.length d) ++ d)%string
  else
    let d := str_of_N (Z.to_N z) in
    (zeros (w - String.length d) ++ d)%string.

(** [f"{z}"]. *)
Definition format_d (z : Z) : string := format_0d 0 z.

(** [l.index(x)] when [x in l]. *)
Fixpoint index_of (x : string) (l : list string) : option nat :=
  match l with
  | [] => None
  | y :: l' =>
      if String.eqb x y then Some O
      else match index_of x l' with
           | Some i => Some (S i)
           | None => None
           end
  end.

(** [x in l] for a list of strings. *)
Definition mem (x : string) (l : list string) : bool :=
  existsb (String.eqb x) l.

(** [d.get(k)] / [k in d] for a dict kept in insertion order. *)
Fixpoint dict_get {V : Type} (k : string) (d : list (string * V)) : option V :=
  match d with
  | [] => None
  | (k', v) :: d' => if String.eqb k k' then Some v else dict_get k d'
  end.

End Py.

(** ** Module-level tables *)

Definition SOUND_LABEL_PATTERNS : list (string * list string) :=
  [ ("speech", ["speech"; "speak"; "talk"; "voice"; "conversation"; "dialogue"]);
    ("music", ["music"; "song"; "melody"; "musical"; "instrument"; "piano"; "guitar"; "drum"]);
    ("laughter", ["laugh"; "laughter"; "giggle"; "chuckle"]);
    ("applause", ["applause"; "clap"; "clapping"; "ovation"]);
    ("footsteps", ["footstep"; "footsteps"; "walk"; "step"; "running"; "jogging"]);
    ("door", ["door"; "slam"; "opening"; "closing"; "knock"; "knocking"]);
    ("car", ["car"; "vehicle"; "engine"; "motor"; "automobile"; "truck"]);
    ("thunder", ["thunder"; "storm"; "lightning"; "rumble"]);
    ("glass", ["glass"; "break"; "shatter"; "crash"; "smash"]);
    ("gunshot", ["gunshot"; "gun"; "shot"; "fire"; "shooting"; "bullet"]);
    ("explosion", ["explosion"; "blast"; "boom"; "explode"; "detonate"]);
    ("scream", ["scream"; "shout"; "yell"; "shriek"; "cry"]);
    ("whisper", ["whisper"; "murmur"; "quiet"; "soft"]);
    ("breathing", ["breath"; "breathing"; "inhale"; "exhale"; "gasp"]);
    ("heartbeat", ["heartbeat"; "heart"; "pulse"; "beat"]);
    ("cheer", ["cheer"; "cheering"; "hooray"; "celebration"]);
    ("water", ["water"; "splash"; "drop"; "rain"; "pour"]);
    ("wind", ["wind"; "breeze"; "gust"; "blow"]);
    ("bell", ["bell"; "ring"; "chime"; "ding"]);
    ("phone", ["phone"; "telephone"; "ring"; "call"]);
    ("typing", ["typing"; "keyboard"; "type"; "click"]);
    ("alarm", ["alarm"; "alert"; "siren"; "warning"]);
    ("animal", ["dog"; "cat"; "bird"; "bark"; "meow"; "chirp"; "animal"]);
    ("crowd", ["crowd"; "people"; "audience"; "group"]);
    ("impact", ["hit"; "punch"; "slap"; "bang"; "thud"]);
    ("mechanical", ["mechanical"; "machine"; "beep"; "buzz"; "whir"]);
    ("fire", ["fire"; "crackle"; "burn"; "flame"]);
    ("electronic", ["electronic"; "digital"; "beep"; "bleep"; "signal"]) ].

(** One entry of [GENRE_FILTERS]: the three keys every entry has. *)
Record GenreFilter := mkGenreFilter {
  priority_sounds : list string;
  allowed_sounds : list string;
  blocked_sounds : list string
}.

Definition GENRE_FILTERS : list (string * GenreFilter) :=
  [ ("horror", mkGenreFilter
       ["scream"; "thunder"; "footsteps"; "door"; "breathing"; "heartbeat"; "whisper"; "glass"; "impact"]
       ["scream"; "thunder"; "footsteps"; "door"; "breathing"; "heartbeat"; "whisper"; "glass"; "impact"; "wind"; "animal"; "mechanical"; "fire"]
       ["laughter"; "applause"; "cheer"; "music"]);
    ("comedy", mkGenreFilter
       ["laughter"; "applause"; "cheer"; "impact"; "footsteps"]
       ["laughter"; "applause"; "cheer"; "music"; "footsteps"; "door"; "impact"; "crowd"; "animal"]
       ["scream"; "gunshot"; "explosion"; "thunder"; "breathing"; "heartbeat"]);
    ("romance", mkGenreFilter
       ["music"; "whisper"; "breathing"; "heartbeat"; "footsteps"]
       ["music"; "whisper"; "breathing"; "heartbeat"; "footsteps"; "door"; "laughter"; "water"; "wind"; "bell"]
       ["gunshot"; "explosion"; "scream"; "thunder"; "glass"; "impact"; "alarm"]);
    ("action", mkGenreFilter
       ["gunshot"; "explosion"; "car"; "footsteps"; "door"; "glass"; "impact"]
       ["gunshot"; "explosion"; "footsteps"; "car"; "door"; "glass"; "impact"; "thunder"; "mechanical"; "crowd"; "alarm"]
       ["whisper"; "breathing"; "heartbeat"; "laughter"; "music"]);
    ("documentary", mkGenreFilter
       ["footsteps"; "door"; "car"; "music"; "applause"; "crowd"]
       ["footsteps"; "door"; "car"; "music"; "applause"; "water"; "wind"; "animal"; "crowd"; "bell"; "mechanical"]
       ["scream"; "gunshot"; "explosion"; "thunder"; "glass"]);
    ("drama", mkGenreFilter
       ["footsteps"; "door"; "breathing"; "whisper"; "music"; "car"]
       ["footsteps"; "door"; "breathing"; "whisper"; "music"; "car"; "phone"; "typing"; "crowd"; "water"; "wind"]
       ["explosion"; "gunshot"; "scream"; "thunder"]);
    ("thriller", mkGenreFilter
       ["footsteps"; "door"; "breathing"; "heartbeat"; "phone"; "car"]
       ["footsteps"; "door"; "breathing"; "heartbeat"; "phone"; "car"; "whisper"; "glass"; "impact"; "mechanical"; "alarm"]
       ["laughter"; "applause"; "cheer"; "music"]);
    ("general", mkGenreFilter
       ["footsteps"; "door"; "laughter"; "applause"; "music"; "car"]
       ["footsteps"; "door"; "laughter"; "applause"; "music"; "car"; "phone"; "bell"; "crowd"; "animal"; "water"; "wind"]
       []) ].

(** [TRANSLATION_CONFIG]. *)
Definition max_words_per_batch : Z := 500.
Definition max_subtitles_per_batch : Z := 50.
Definition max_tokens : Z := 2000.

(** ** EventReconciler: category, genre filter, priority *)

(** The inner [for pattern in patterns] loop of [extract_sound_key]. *)
Definition matches_any (patterns : list string) (clean_label : string) : bool :=
  existsb (fun pattern => Py.contains pattern clean_label) patterns.

(** The outer [for sound_type, patterns in ...items()] loop. *)
Fixpoint first_sound_type (table : list (string * list string))
    (clean_label : string) : option string :=
  match table with
  | [] => None
  | (sound_type, patterns) :: table' =>
      if matches_any patterns clean_label then Some sound_type
      else first_sound_type table' clean_label
  end.

Definition extract_sound_key (sound_label : string) : option string :=
  let clean_label :=
    Py.strip (Py.remove_char "]" (Py.remove_char "[" (Py.lower sound_label))) in
  first_sound_type SOUND_LABEL_PATTERNS clean_label.

(** [not sound_key] for an [Optional[str]]: [None] and [''] are falsy. *)
Definition key_truthy (k : option string) : bool :=
  match k with
  | None => false
  | Some s => Py.truthy s
  end.

Definition should_include_sound (sound_label genre : string) : bool :=
  match Py.dict_get genre GENRE_FILTERS with
  | None => true
  | Some filters =>
      let sound_key := extract_sound_key sound_label in
      if negb (key_truthy sound_key) then false
      else
        match sound_key with
        | None => false
        | Some k =>
            if Py.mem k (blocked_sounds filters) then false
            else
              let allowed := allowed_sounds filters in
              if negb (Nat.eqb (List.length allowed) 0) && negb (Py.mem k allowed)
              then false
              else true
        end
  end.

Definition get_sound_priority (sound_label genre : string) : Z :=
  let sound_key := extract_sound_key sound_label in
  match Py.dict_get genre GENRE_FILTERS with
  | None => 0
  | Some filters =>
      if negb (key_truthy sound_key) then 0
      else
        match sound_key with
        | None => 0
        | Some k =>
            match Py.index_of k (priority_sounds filters) with
            | Some i => Z.of_nat i + 10
            | None => 1
            end
        end
  end.


(** ** Subtitle events and the store

    An event is a dict with the keys [start], [end], [text], [type] and,
    on sound events, [confidence], [source] and (after reconciliation)
    [priority].  An absent key is [None]. *)

Record Event := mkEvent {
  start : Z;
  end_ : Z;
  text : string;
  type : string;
  confidence : option Q;
  source : option string;
  priority : option Z
}.

Definition set_start (v : Z) (e : Event) : Event :=
  mkEvent v (end_ e) (text e) (type e) (confidence e) (source e) (priority e).

Definition set_text (v : string) (e : Event) : Event :=
  mkEvent (start e) (end_ e) v (type e) (confidence e) (source e) (priority e).

Definition set_priority (v : Z) (e : Event) : Event :=
  mkEvent (start e) (end_ e) (text e) (type e) (confidence e) (source e) (Some v).

Definition opt_eqb {A : Type} (eqb : A -> A -> bool) (x y : option A) : bool :=
  match x, y with
  | Some a, Some b => eqb a b
  | None, None => true
  | _, _ => false
  end.

(** [a == b] on two event dicts: the same keys with equal values. *)
Definition event_eqb (a b : Event) : bool :=
  (start a =? start b) && (end_ a =? end_ b)
  && String.eqb (text a) (text b) && String.eqb (type a) (type b)
  && opt_eqb Qeq_bool (confidence a) (confidence b)
  && opt_eqb String.eqb (source a) (source b)
  && opt_eqb Z.eqb (priority a) (priority b).

(** The store of event dicts; a location is an index into it.  A location
    past the end is never produced by the code; reading one yields [blank]. *)
Definition loc := nat.
Definition Store := list Event.

Definition blank : Event := mkEvent 0 0 "" "" None None None.

Definition rd (st : Store) (l : loc) : Event := nth l st blank.

Fixpoint wr (l : loc) (e : Event) (st : Store) : Store :=
  match st, l with
  | [], _ => []
  | _ :: st', O => e :: st'
  | x :: st', S l' => x :: wr l' e st'
  end.

(** ** Sorting

    [sorted] and [list.sort] are stable and compare keys with [<]: each
    element is put in front of the first later element that is not smaller. *)

Section Sorting.
Context {A : Type} (lt : A -> A -> bool).

Fixpoint insert_sorted (x : A) (l : list A) : list A :=
  match l with
  | [] => [x]
  | y :: l' => if lt y x then y :: insert_sorted x l' else x :: y :: l'
  end.

Definition stable_sort (l : list A) : list A :=
  fold_right insert_sorted [] l.
End Sorting.

Definition Qlt_bool (x y : Q) : bool := negb (Qle_bool y x).

(** [<] on the tuples [(start, -priority, -confidence)]. *)
Definition key_ltb (a b : Z * Z * Q) : bool :=
  let '(s1, p1, c1) := a in
  let '(s2, p2, c2) := b in
  (s1 <? s2)
  || ((s1 =? s2) && ((p1 <? p2) || ((p1 =? p2) && Qlt_bool c1 c2))).

(** [x.get("priority", 0)]. *)
Definition priority_or_0 (x : Event) : Z :=
  match priority x with Some p => p | None => 0 end.

(** [x["confidence"]] where the key is known to be present. *)
Definition confidence_of (x : Event) : Q :=
  match confidence x with Some c => c | None => 0%Q end.

Definition has_confidence (x : Event) : bool :=
  match confidence x with Some _ => true | None => false end.

Definition dedup_key (x : Event) : Z * Z * Q :=
  (start x, - priority_or_0 x, (- confidence_of x)%Q).

(** The test of the inner loop of [deduplicate_sound_events]. *)
Definition same_sound (existing event : Event) : bool :=
  String.eqb (text existing) (text event)
  && (Z.abs (start existing - start event) <? 1500).

Definition outranks (event existing : Event) : bool :=
  (priority_or_0 event >? priority_or_0 existing)
  || ((priority_or_0 event =? priority_or_0 existing)
      && Qlt_bool (confidence_of existing) (confidence_of event)).

(** The test of the inner loop of [merge_subtitles]. *)
Definition overlaps (sound_sub speech_sub : Event) : bool :=
  (start sound_sub <=? end_ speech_sub) && (end_ sound_sub >=? start speech_sub).

(** ** Stages that only read the store *)

Section ReadOnly.
Variable st : Store.

Definition by_start (a b : loc) : bool := start (rd st a) <? start (rd st b).

Definition by_dedup_key (a b : loc) : bool :=
  key_ltb (dedup_key (rd st a)) (dedup_key (rd st b)).

(** [l.remove(x)]: drops the first element equal to [x]. *)
Fixpoint list_remove (x : loc) (l : list loc) : list loc :=
  match l with
  | [] => []
  | y :: l' =>
      if event_eqb (rd st y) (rd st x) then l' else y :: list_remove x l'
  end.

(** One round of [for event in events]: the inner loop stops at the first
    accepted event with the same label less than 1500 ms away. *)
Definition dedup_step (deduplicated : list loc) (event : loc) : list loc :=
  match find (fun existing => same_sound (rd st existing) (rd st event))
             deduplicated with
  | Some existing =>
      if outranks (rd st event) (rd st existing)
      then list_remove existing deduplicated ++ [event]
      else deduplicated
  | None => deduplicated ++ [event]
  end.

(** [events.sort] computes the key of every event first, so an event
    without [confidence] raises [KeyError] ([None]) before anything else;
    after it, [event["confidence"]] in the loop cannot raise.  The in-place
    sort reorders the caller's list object and writes no event. *)
Definition deduplicate_sound_events (events : list loc) : option (list loc) :=
  match events with
  | [] => Some []
  | _ =>
      if forallb (fun l => has_confidence (rd st l)) events
      then
        let events' := stable_sort by_dedup_key events in
        let deduplicated := fold_left dedup_step events' [] in
        Some (stable_sort by_start deduplicated)
      else None
  end.

Definition is_overlapping (sound_sub : loc) (speech_subtitles : list loc) : bool :=
  existsb (fun speech_sub => overlaps (rd st sound_sub) (rd st speech_sub))
          speech_subtitles.

Definition merge_step (accessibility_mode : bool) (speech_subtitles : list loc)
    (merged : list loc) (sound_sub : loc) : list loc :=
  if accessibility_mode then merged ++ [sound_sub]
  else if negb (is_overlapping sound_sub speech_subtitles)
       then merged ++ [sound_sub]
       else merged.

Definition merge_subtitles (speech_subtitles sound_subtitles : list loc)
    (accessibility_mode non_verbal_only_mode : bool) : list loc :=
  if non_verbal_only_mode then stable_sort by_start sound_subtitles
  else
    let merged :=
      fold_left (merge_step accessibility_mode speech_subtitles)
                sound_subtitles speech_subtitles in
    stable_sort by_start merged.

(** [len(text.split())]. *)
Definition word_count (subtitle : loc) : Z :=
  Z.of_nat (List.length (Py.split (text (rd st subtitle)))).

(** The loop state of [create_smart_batches]:
    [(batches, current_batch, current_word_count)]. *)
Definition batch_step (s : list (list loc) * list loc * Z) (subtitle : loc)
    : list (list loc) * list loc * Z :=
  let '(batches, current_batch, current_word_count) := s in
  let wc := word_count subtitle in
  if ((current_word_count + wc >? max_words_per_batch)
      || (Z.of_nat (List.length current_batch) >=? max_subtitles_per_batch))
     && negb (Nat.eqb (List.length current_batch) 0)
  then (batches ++ [current_batch], [subtitle], wc)
  else (batches, current_batch ++ [subtitle], current_word_count + wc).

Definition create_smart_batches (subtitles : list loc) : list (list loc) :=
  let '(batches, current_batch, _) :=
    fold_left batch_step subtitles ([], [], 0) in
  if negb (Nat.eqb (List.length current_batch) 0)
  then batches ++ [current_batch]
  else batches.

(** The numbered list sent for one batch:
    ["\n".join(f"{i + 1}. {sub['text']}" ...)]. *)
Fixpoint text_items (i : nat) (batch : list loc) : list string :=
  match batch with
  | [] => []
  | sub :: batch' =>
      (Py.str_of_nat (i + 1) ++ ". " ++ text (rd st sub))%string
        :: text_items (S i) batch'
  end.

Definition batch_text (batch : list loc) : string :=
  Py.join (String "010" "") (text_items 0 batch).
End ReadOnly.

(** ** Stages that write the store or talk to the translation service

    A computation threads the world: the store of event dicts and the log of
    the external effects performed so far. *)

Inductive Effect :=
| Request (system_message batch_text : string)
| Sleep (seconds : Q).

Record World := mkWorld { heap : Store; log : list Effect }.

Definition M (A : Type) : Type := World -> A * World.

Definition ret {A : Type} (a : A) : M A := fun w => (a, w).

Definition bind {A B : Type} (m : M A) (k : A -> M B) : M B :=
  fun w => let (a, w') := m w in k a w'.

Notation "x <- c ;; k" := (bind c (fun x => k))
  (at level 61, c at next level, right associativity).
Notation "c ;;; k" := (bind c (fun _ => k))
  (at level 61, right associativity).

Definition read {A : Type} (f : Store -> A) : M A := fun w => (f (heap w), w).

(** [sub[...]] reads, [sub[k] = v] writes, a dict display allocates. *)
Definition get_event (l : loc) : M Event := read (fun st => rd st l).

Definition put_event (l : loc) (e : Event) : M unit :=
  fun w => (tt, mkWorld (wr l e (heap w)) (log w)).

Definition new_event (e : Event) : M loc :=
  fun w => (List.length (heap w), mkWorld (heap w ++ [e]) (log w)).

Definition emit (x : Effect) : M unit :=
  fun w => (tt, mkWorld (heap w) (log w ++ [x])).

Fixpoint foldM {A B : Type} (f : B -> A -> M B) (l : list A) (b : B) : M B :=
  match l with
  | [] => ret b
  | x :: l' => b' <- f b x ;; foldM f l' b'
  end.

(** *** EventReconciler: [combine_sound_events] *)

Definition assign_priority (genre : string) (_ : unit) (event : loc) : M unit :=
  e <- get_event event ;;
  put_event event (set_priority (get_sound_priority (text e) genre) e).

Definition combine_sound_events (yamnet_events librosa_events : list loc)
    (genre : string) : M (option (list loc)) :=
  let all_events := yamnet_events ++ librosa_events in
  foldM (assign_priority genre) all_events tt ;;;
  read (fun st => deduplicate_sound_events st all_events).

(** *** LineFormatter: [format_subtitles] *)

(** [float(z)], rounded to the nearest binary64. *)
Definition float_of_Z (z : Z) : float :=
  SF2Prim (binary_normalize prec emax z 0 false).

(** [int(f)]: truncation toward zero of a finite float. *)
Definition int_of_float (f : float) : Z :=
  match Prim2SF f with
  | S754_finite s m e =>
      let v := if 0 <=? e then Z.pos m * 2 ^ e else Z.pos m / 2 ^ (- e) in
      if s then - v else v
  | _ => 0
  end.

(** [int(duration * (len(current_text) / len(text)))]. *)
Definition partial_duration_of (duration chunk_len text_len : Z) : Z :=
  let chars_ratio := PrimFloat.div (float_of_Z chunk_len) (float_of_Z text_len) in
  int_of_float (PrimFloat.mul (float_of_Z duration) chars_ratio).

(** [{"start": s, "end": e, "text": t, "type": "speech"}]. *)
Definition speech_chunk (s e : Z) (t : string) : Event :=
  mkEvent s e t "speech" None None None.

(** One round of [for word in words]; the loop state is
    [(formatted, current_text, current_chars)]. *)
Definition word_step (sub : loc) (text_ : string) (max_chars : Z)
    (s : list loc * string * Z) (word : string) : M (list loc * string * Z) :=
  let '(formatted, current_text, current_chars) := s in
  if current_chars + Py.len word + 1 <=? max_chars
  then
    if Py.truthy current_text
    then ret (formatted, (current_text ++ " " ++ word)%string,
              current_chars + 1 + Py.len word)
    else ret (formatted, (current_text ++ word)%string,
              current_chars + Py.len word)
  else
    if Py.truthy current_text
    then
      e <- get_event sub ;;
      let duration := end_ e - start e in
      let partial_duration :=
        partial_duration_of duration (Py.len current_text) (Py.len text_) in
      l <- new_event
             (speech_chunk (start e) (start e + partial_duration) current_text) ;;
      e' <- get_event sub ;;
      put_event sub (set_start (start e' + partial_duration) e') ;;;
      ret (formatted ++ [l], word, Py.len word)
    else ret s.

(** One round of [for sub in subtitles]. *)
Definition format_one (max_chars_per_line lines_per_subtitle : Z)
    (formatted : list loc) (sub : loc) : M (list loc) :=
  e <- get_event sub ;;
  if String.eqb (type e) "sound" then ret (formatted ++ [sub])
  else
    let text_ := text e in
    let max_chars := max_chars_per_line * lines_per_subtitle in
    if Py.len text_ <=? max_chars then ret (formatted ++ [sub])
    else
      let words := Py.split text_ in
      s <- foldM (word_step sub text_ max_chars) words (formatted, "", 0) ;;
      let '(formatted', current_text, _) := s in
      if Py.truthy current_text
      then
        e' <- get_event sub ;;
        l <- new_event (speech_chunk (start e') (end_ e') current_text) ;;
        ret (formatted' ++ [l])
      else ret formatted'.

Definition format_subtitles (subtitles : list loc)
    (max_chars_per_line lines_per_subtitle : Z) : M (list loc) :=
  formatted <- foldM (format_one max_chars_per_line lines_per_subtitle)
                     subtitles [] ;;
  read (fun st => stable_sort (by_start st) formatted).

(** *** Translator *)

Definition nl : string := String "010" "".

(** [[line.strip() for line in translated_text.split('\n') if line.strip()]]. *)
Definition translated_lines_of (translated_text : string) : list string :=
  map Py.strip
      (filter (fun line => Py.truthy (Py.strip line))
              (Py.split_on "010" translated_text)).

(** The inner [for line in translated_lines] loop. *)
Fixpoint find_translation (expected_prefix : string)
    (translated_lines : list string) : option string :=
  match translated_lines with
  | [] => None
  | line :: rest =>
      if Py.startswith line expected_prefix
      then Some (Py.strip (Py.drop (String.length expected_prefix) line))
      else find_translation expected_prefix rest
  end.

(** [translated_line if translated_line else original_sub["text"]]. *)
Definition final_text_of (translated_line : option string)
    (original_text : string) : string :=
  match translated_line with
  | Some t => if Py.truthy t then t else original_text
  | None => original_text
  end.

Definition expected_prefix_of (i : nat) : string :=
  (Py.str_of_nat (i + 1) ++ ".")%string.

(** [for i, original_sub in enumerate(original_batch)], from index [i]. *)
Fixpoint parse_from (translated_lines : list string) (i : nat)
    (original_batch : list loc) : M (list loc) :=
  match original_batch with
  | [] => ret []
  | original_sub :: rest =>
      e <- get_event original_sub ;;
      let translated_line :=
        find_translation (expected_prefix_of i) translated_lines in
      let final_text := final_text_of translated_line (text e) in
      l <- new_event (set_text final_text e) ;;
      ls <- parse_from translated_lines (S i) rest ;;
      ret (l :: ls)
  end.

Definition parse_translation_response (translated_text : string)
    (original_batch : list loc) : M (list loc) :=
  parse_from (translated_lines_of translated_text) 0 original_batch.

Definition speech_instruction (source_lang target_lang : string) : string :=
  ("Translate the following numbered subtitle texts from " ++ source_lang
   ++ " to " ++ target_lang ++ ". "
   ++ "Maintain the same numbering format and preserve the meaning accurately. "
   ++ "Only return the translated texts with their numbers, nothing else.")%string.

Definition sound_instruction (source_lang target_lang : string) : string :=
  ("Translate the following numbered sound effect labels from " ++ source_lang
   ++ " to " ++ target_lang ++ ". "
   ++ "Keep the format [sound] with brackets. Maintain the same numbering format. "
   ++ "Only return the translated sound labels with their numbers, nothing else.")%string.

Fixpoint requests_in (l : list Effect) : nat :=
  match l with
  | [] => O
  | Request _ _ :: l' => S (requests_in l')
  | Sleep _ :: l' => requests_in l'
  end.

Section Translator.
(** The translation service: the outcome of the [n]-th request of the run
    for the given messages, [None] when the call (or reading its content)
    raises. *)
Variable client : nat -> string -> string -> option string.

Definition chat_completion (system_message batch_text : string)
    : M (option string) :=
  fun w =>
    (client (requests_in (log w)) system_message batch_text,
     mkWorld (heap w) (log w ++ [Request system_message batch_text])).

(** [for attempt in range(max_retries)], over the attempts still to run. *)
Fixpoint request_loop (system_message batch_text : string) (max_retries : Z)
    (attempts : list nat) : M (option string) :=
  match attempts with
  | [] => ret None
  | attempt :: rest =>
      r <- chat_completion system_message batch_text ;;
      match r with
      | Some content => ret (Some (Py.strip content))
      | None =>
          if Z.of_nat attempt <? max_retries - 1
          then
            emit (Sleep (inject_Z (2 ^ Z.of_nat attempt))) ;;;
            request_loop system_message batch_text max_retries rest
          else ret None
      end
  end.

Definition make_translation_request (system_message batch_text : string)
    (batch_idx : nat) (max_retries : nat) : M (option string) :=
  request_loop system_message batch_text (Z.of_nat max_retries)
               (seq 0 max_retries).

(** One round of [for batch_idx, batch in enumerate(batches)]. *)
Definition translate_batch (source_lang target_lang subtitle_type : string)
    (n_batches : nat) (translated_subtitles : list loc)
    (ib : nat * list loc) : M (list loc) :=
  let (batch_idx, batch) := ib in
  btext <- read (fun st => batch_text st batch) ;;
  let system_message :=
    if String.eqb subtitle_type "speech"
    then speech_instruction source_lang target_lang
    else sound_instruction source_lang target_lang in
  response <- make_translation_request system_message btext batch_idx 3 ;;
  out <- match response with
         | Some r =>
             if Py.truthy r then parse_translation_response r batch
             else ret batch
         | None => ret batch
         end ;;
  (if Z.of_nat batch_idx <? Z.of_nat n_batches - 1
   then emit (Sleep (1 # 10))
   else ret tt) ;;;
  ret (translated_subtitles ++ out).

Definition translate_texts_in_batches (subtitles : list loc)
    (source_lang target_lang subtitle_type : string) : M (list loc) :=
  match subtitles with
  | [] => ret []
  | _ =>
      batches <- read (fun st => create_smart_batches st subtitles) ;;
      foldM (translate_batch source_lang target_lang subtitle_type
                             (List.length batches))
            (combine (seq 0 (List.length batches)) batches) []
  end.
End Translator.

(** ** Exporter: timestamps and records *)

Definition format_srt_time (ms : Z) : string :=
  let (s, ms') := (ms / 1000, ms mod 1000) in
  let (m, s') := (s / 60, s mod 60) in
  let (h, m') := (m / 60, m mod 60) in
  (Py.format_0d 2 h ++ ":" ++ Py.format_0d 2 m' ++ ":" ++ Py.format_0d 2 s'
   ++ "," ++ Py.format_0d 3 ms')%string.

Definition format_vtt_time (ms : Z) : string :=
  let (s, ms') := (ms / 1000, ms mod 1000) in
  let (m, s') := (s / 60, s mod 60) in
  let (h, m') := (m / 60, m mod 60) in
  (Py.format_0d 2 h ++ ":" ++ Py.format_0d 2 m' ++ ":" ++ Py.format_0d 2 s'
   ++ "." ++ Py.format_0d 3 ms')%string.

Definition format_ass_time (ms : Z) : string :=
  let (s, ms') := (ms / 1000, ms mod 1000) in
  let (m, s') := (s / 60, s mod 60) in
  let (h, m') := (m / 60, m mod 60) in
  let cs := ms' / 10 in
  (Py.format_d h ++ ":" ++ Py.format_0d 2 m' ++ ":" ++ Py.format_0d 2 s'
   ++ "." ++ Py.format_0d 2 cs)%string.

Definition format_txt_time (ms : Z) : string :=
  let (s, ms') := (ms / 1000, ms mod 1000) in
  let (m, s') := (s / 60, s mod 60) in
  let (h, m') := (m / 60, m mod 60) in
  (Py.format_0d 2 h ++ ":" ++ Py.format_0d 2 m' ++ ":" ++ Py.format_0d 2 s')%string.

(** What [write_srt], [write_vtt], [write_ass] and [write_txt] write for the
    [i]-th event [sub]. *)
Definition srt_record (i : nat) (sub : Event) : string :=
  (Py.str_of_nat (i + 1) ++ nl
   ++ format_srt_time (start sub) ++ " --> " ++ format_srt_time (end_ sub) ++ nl
   ++ text sub ++ nl ++ nl)%string.

Definition vtt_record (i : nat) (sub : Event) : string :=
  (Py.str_of_nat (i + 1) ++ nl
   ++ format_vtt_time (start sub) ++ " --> " ++ format_vtt_time (end_ sub) ++ nl
   ++ text sub ++ nl ++ nl)%string.

Definition ass_record (sub : Event) : string :=
  ("Dialogue: 0," ++ format_ass_time (start sub) ++ ","
   ++ format_ass_time (end_ sub) ++ ",Default,,0,0,0,," ++ text sub ++ nl)%string.

Definition txt_record (sub : Event) : string :=
  ("[" ++ format_txt_time (start sub) ++ "] " ++ text sub ++ nl)%string.

Fixpoint records_from (record : nat -> Event -> string) (i : nat)
    (subs : list Event) : string :=
  match subs with
  | [] => ""
  | sub :: subs' => (record i sub ++ records_from record (S i) subs')%string
  end.

Definition write_srt (st : Store) (subtitles : list loc) : string :=
  records_from srt_record 0 (map (rd st) subtitles).

Definition write_vtt (st : Store) (subtitles : list loc) : string :=
  ("WEBVTT" ++ nl ++ nl
   ++ records_from vtt_record 0 (map (rd st) subtitles))%string.

Definition write_txt (st : Store) (subtitles : list loc) : string :=
  records_from (fun _ => txt_record) 0 (map (rd st) subtitles).

Definition ass_header : string :=
  ("[Script Info]" ++ nl ++ "Title: Generated Subtitles" ++ nl
   ++ "ScriptType: v4.00+" ++ nl ++ "PlayResX: 1280" ++ nl
   ++ "PlayResY: 720" ++ nl ++ nl
   ++ "[V4+ Styles]" ++ nl
   ++ "Format: Name, Fontname, Fontsize, PrimaryColour, SecondaryColour, OutlineColour, BackColour, Bold, Italic, Underline, StrikeOut, ScaleX, ScaleY, Spacing, Angle, BorderStyle, Outline, Shadow, Alignment, MarginL, MarginR, MarginV, Encoding" ++ nl
   ++ "Style: Default,Arial,20,&H00FFFFFF,&H000000FF,&H00000000,&H00000000,0,0,0,0,100,100,0,0,1,2,2,2,10,10,10,1" ++ nl ++ nl
   ++ "[Events]" ++ nl
   ++ "Format: Layer, Start, End, Style, Name, MarginL, MarginR, MarginV, Effect, Text" ++ nl)%string.

Definition write_ass (st : Store) (subtitles : list loc) : string :=
  (ass_header
   ++ records_from (fun _ => ass_record) 0 (map (rd st) subtitles))%string.

(** ** Reading a record back

    The reader of exported files ([parse_srt_file] in the tests) is not part
    of the sources.  The definitions of this module are its model, written
    from the layouts and timestamp grammars of section 4.6 of the
    specification. *)

Module Reader.















End Reader.

(** ** Vocabulary of the statements *)

(** *** Genre filter and priority *)

(** [category in l] for the category of a label, which may be missing. *)
Definition category_in (category : option string) (l : list string) : bool :=
  match category with
  | Some k => Py.mem k l
  | None => false
  end.

Definition is_empty {A : Type} (l : list A) : bool :=
  match l with [] => true | _ => false end.

(** The priority rule as the specification words it: the index in the
    genre's priority list plus 10, else 1 for a known genre, else 0. *)
Definition claimed_sound_priority (sound_label genre : string) : Z :=
  match Py.dict_get genre GENRE_FILTERS with
  | Some filters =>
      match extract_sound_key sound_label with
      | Some k =>
          match Py.index_of k (priority_sounds filters) with
          | Some i => Z.of_nat i + 10
          | None => 1
          end
      | None => 1
      end
  | None => 0
  end.

(** *** Sorting and deduplication *)

(** [<=] on the tuples [(start, -priority, -confidence)]. *)
Definition key_le (a b : Z * Z * Q) : Prop :=
  let '(s1, p1, c1) := a in
  let '(s2, p2, c2) := b in
  s1 < s2 \/ (s1 = s2 /\ (p1 < p2 \/ (p1 = p2 /\ (c1 <= c2)%Q))).

(** [a] does not come after [b] in the order of [events.sort]. *)
Definition kle (st : Store) (a b : loc) : Prop := by_dedup_key st b a = false.

(** Two accepted events that the inner loop would not match. *)
Definition no_clash (st : Store) (a b : loc) : Prop :=
  same_sound (rd st a) (rd st b) = false.

Definition dedup_example : Store :=
  [ mkEvent 0 960 "[Scream]" "sound" (Some (1 # 2)) (Some "yamnet") (Some 10);
    mkEvent 1000 2000 "[Scream]" "sound" (Some (3 # 4)) (Some "librosa") (Some 10);
    mkEvent 2400 3360 "[Scream]" "sound" (Some (2 # 5)) (Some "yamnet") (Some 10);
    mkEvent 1000 1960 "[Thunder]" "sound" (Some (3 # 10)) (Some "yamnet") (Some 11) ].

(** *** Merging *)

(** The closed intervals of two events share a point. *)
Definition intersects (a b : Event) : Prop :=
  exists t, (start a <= t <= end_ a) /\ (start b <= t <= end_ b).

Definition merge_example : Store :=
  [ mkEvent 900 1500 "Hello there" "speech" None None None;
    mkEvent 1000 1200 "[Door slam]" "sound" (Some (1 # 2)) (Some "yamnet") (Some 1);
    mkEvent 2000 2200 "[Footsteps]" "sound" (Some (1 # 2)) (Some "librosa") (Some 10) ].

(** *** Batches *)

Definition batch_words (st : Store) (batch : list loc) : Z :=
  fold_right (fun l acc => word_count st l + acc) 0 batch.

(** A batch is closed only when the next event did not fit: it would have
    brought the words over the limit, or the batch was full. *)
Fixpoint greedy (st : Store) (batches : list (list loc)) : Prop :=
  match batches with
  | b1 :: rest =>
      match rest with
      | [] => True
      | [] :: _ => False
      | (e :: _) :: _ =>
          (batch_words st b1 + word_count st e > max_words_per_batch
           \/ Z.of_nat (List.length b1) >= max_subtitles_per_batch)
          /\ greedy st rest
      end
  | [] => True
  end.

Definition batch_ok (st : Store) (b : list loc) : Prop :=
  b <> []
  /\ Z.of_nat (List.length b) <= max_subtitles_per_batch
  /\ (batch_words st b <= max_words_per_batch \/ exists e, b = [e]).

(** The loop invariant of [create_smart_batches] after the events
    [processed]. *)
Definition batches_inv (st : Store) (processed : list loc)
    (s : list (list loc) * list loc * Z) : Prop :=
  let '(batches, current_batch, current_word_count) := s in
  List.concat batches ++ current_batch = processed
  /\ current_word_count = batch_words st current_batch
  /\ Forall (batch_ok st) batches
  /\ (current_batch = [] \/ batch_ok st current_batch)
  /\ greedy st (batches ++ [current_batch]).

(** A text of [n] one-letter words. *)
Fixpoint many_words (n : nat) : string :=
  match n with
  | O => ""
  | S n' => ("a " ++ many_words n')%string
  end.

Definition long_event : Store :=
  [ mkEvent 0 1000 (many_words 501) "speech" None None None ].

Definition two_batches_example : Store :=
  [ mkEvent 0 1000 (many_words 300) "speech" None None None;
    mkEvent 1000 2000 (many_words 201) "speech" None None None ].

(** *** Effects on the store *)



(** A computation every run of which relates the world before to the world
    after by [R]. *)
Definition runs_within (R : World -> World -> Prop) {A : Type} (m : M A) : Prop :=
  forall w, R w (snd (m w)).

(** The store only grows: every record is where it was, as it was. *)
Definition extends (w w' : World) : Prop :=
  exists ext, heap w' = heap w ++ ext.



Definition format_example : World :=
  mkWorld [ mkEvent 0 1100 "ab cd efgh xy" "speech" None None None ] [].

Definition combine_example : World :=
  mkWorld [ mkEvent 0 960 "[Scream]" "sound" (Some (1 # 2)) (Some "yamnet") None;
            mkEvent 100 1100 "[Scream]" "sound" (Some (3 # 4)) (Some "librosa") None ]
          [].

(** *** Line formatting *)

(** A chunk within the limit, or a single word. *)
Definition chunk_ok (max_chars : Z) (t : string) : Prop :=
  Py.len t <= max_chars \/ Py.split t = [t].

Definition event_ok (max_chars : Z) (e : Event) : Prop :=
  type e = "sound" \/ chunk_ok max_chars (text e).

(** Old records keep their text and type; every new record is a chunk that
    is within the limit or a single word. *)
Definition chunks_within (max_chars : Z) (w w' : World) : Prop :=
  (List.length (heap w) <= List.length (heap w'))%nat
  /\ (forall l, (l < List.length (heap w))%nat ->
        text (rd (heap w') l) = text (rd (heap w) l)
        /\ type (rd (heap w') l) = type (rd (heap w) l))
  /\ (forall l, (List.length (heap w) <= l < List.length (heap w'))%nat ->
        chunk_ok max_chars (text (rd (heap w') l))).

(** The loop state of [for word in words] between two rounds. *)
Definition word_state_ok (max_chars : Z) (s : list loc * string * Z) : Prop :=
  let '(_, current_text, current_chars) := s in
  current_chars = Py.len current_text
  /\ (current_text = "" \/ chunk_ok max_chars current_text).

Definition formatted_ok (max_chars : Z) (w : World) (formatted : list loc)
    : Prop :=
  Forall (fun l => event_ok max_chars (rd (heap w) l)) formatted.

Fixpoint all_chars (P : ascii -> bool) (s : string) : bool :=
  match s with
  | EmptyString => true
  | String c s' => P c && all_chars P s'
  end.

Definition no_space (s : string) : Prop :=
  all_chars (fun c => negb (Py.isspace c)) s = true.

(** Two speech events whose first word does not fit a five-character block:
    one longer than the limit, one exactly as long. *)
Definition drop_example : World :=
  mkWorld [ mkEvent 0 1000 "abcdefgh xy" "speech" None None None;
            mkEvent 2000 3000 "abcde fg" "speech" None None None ] [].

(** *** Translation *)


(** Only the log changes, by at most [n] requests. *)
Definition asks_at_most (n : nat) (w w' : World) : Prop :=
  heap w' = heap w
  /\ exists ext, log w' = log w ++ ext /\ (requests_in ext <= n)%nat.


(** A service that answers every request with the same two lines. *)
Definition echo_client (_ : nat) (_ _ : string) : option string :=
  Some ("1. Bonjour le monde" ++ nl ++ "2. Comment allez-vous")%string.

Definition translate_example : World :=
  mkWorld [ mkEvent 0 900 "Hello world" "speech" None None None;
            mkEvent 1000 1900 "How are you" "speech" None None None ] [].

(** *** Export *)

Definition is_digit (c : ascii) : bool :=
  ((48 <=? N_of_ascii c) && (N_of_ascii c <=? 57))%N.

(** The character [c] does not occur in [s]. *)
Definition lacks (c : ascii) (s : string) : Prop :=
  all_chars (fun d => negb (Ascii.eqb d c)) s = true.


(** ** Sound labels of the detectors

    [normalize_sound_label] turns a class name of the audio classifier into
    the label of an event, [classify_onset_type] names an onset from its
    features. *)

(** The dict [label_formats] of [format_sound_label]; its last entry holds
    the label the function was given. *)
Definition label_formats (original_label : string) : list (string * string) :=
  [ ("speech", "Speech");
    ("music", "Music");
    ("laughter", "Laughter");
    ("applause", "Applause");
    ("footsteps", "Footsteps");
    ("door", "Door slam");
    ("car", "Car engine");
    ("thunder", "Thunder");
    ("glass", "Glass breaking");
    ("gunshot", "Gunshot");
    ("explosion", "Explosion");
    ("scream", "Scream");
    ("whisper", "Whisper");
    ("breathing", "Breathing");
    ("heartbeat", "Heartbeat");
    ("cheer", "Cheering");
    ("water", "Water sound");
    ("wind", "Wind");
    ("bell", "Bell ringing");
    ("phone", "Phone ringing");
    ("typing", "Typing");
    ("alarm", "Alarm");
    ("animal", "Animal sound");
    ("crowd", "Crowd noise");
    ("impact", "Impact sound");
    ("mechanical", "Mechanical sound");
    ("fire", "Fire crackling");
    ("electronic", "Electronic sound");
    ("unknown", original_label) ].

Definition format_sound_label (sound_type original_label : string) : string :=
  let formatted :=
    match Py.dict_get sound_type (label_formats original_label) with
    | Some f => f
    | None => original_label
    end in
  ("[" ++ formatted ++ "]")%string.

Definition normalize_sound_label (raw_label : string) : option string :=
  if negb (Py.truthy raw_label) || String.eqb (Py.strip raw_label) ""
  then None
  else
    let raw_lower := Py.strip (Py.lower raw_label) in
    match first_sound_type SOUND_LABEL_PATTERNS raw_lower with
    | Some sound_type => Some (format_sound_label sound_type raw_label)
    | None => Some (format_sound_label "unknown" raw_label)
    end.

Section Onset.
(** The features are numpy scalars (or the integer [0] past the end of a
    feature array); the code only compares them with literals, so their type
    is left open and the two comparisons with a literal are given. *)
Variable F : Type.
Variable gt lt : F -> Q -> bool.

Definition classify_onset_type (energy centroid rolloff zcr tempo : F)
    : option string :=
  if gt energy (1 # 10)
  then
    if gt centroid 3000 && gt zcr (1 # 10) then Some "[Glass breaking]"
    else if gt centroid 2500 && gt energy (3 # 10) then Some "[Door slam]"
    else if lt centroid 1000 && gt energy (4 # 10) then Some "[Explosion]"
    else if gt zcr (15 # 100) then Some "[Applause]"
    else if gt centroid 1500 && gt energy (2 # 10) then Some "[Footsteps]"
    else if lt centroid 500 && gt energy (25 # 100) then Some "[Thunder]"
    else Some "[Impact sound]"
  else None.
End Onset.

(** The category [extract_sound_key] finds in the label that
    [format_sound_label] writes for a category. *)
Definition read_back (sound_type : string) : option string :=
  if String.eqb sound_type "phone" then Some "bell"
  else if String.eqb sound_type "fire" then Some "gunshot"
  else if String.eqb sound_type "impact" then None
  else Some sound_type.

(** What the genre filter answers for a category that may be missing, for
    a genre of the table. *)
Definition passes (filters : GenreFilter) (category : option string) : bool :=
  match category with
  | Some k =>
      negb (Py.mem k (blocked_sounds filters))
      && Py.mem k (allowed_sounds filters)
  | None => false
  end.

(** ** Phrases of the transcript: [merge_consecutive_words]

    The phrases are dicts the function creates and is alone to write until
    it returns them, so they are values here; the words are only read. *)

Definition set_end (v : Z) (e : Event) : Event :=
  mkEvent (start e) v (text e) (type e) (confidence e) (source e) (priority e).

(** [{"start": word["start"], "end": word["end"], "text": word["text"],
    "type": "speech"}]. *)
Definition phrase_of (word : Event) : Event :=
  mkEvent (start word) (end_ word) (text word) "speech" None None None.

(** The test of the loop: the word starts less than 500 ms after the phrase
    ends and ends less than [max_duration_ms] after the phrase starts. *)
Definition joins_phrase (max_duration_ms : Z) (current_phrase word : Event)
    : bool :=
  (start word - end_ current_phrase <? 500)
  && (end_ word - start current_phrase <? max_duration_ms).

(** One round of [for i in range(1, len(word_subtitles))]; the loop state is
    [(merged, current_phrase)]. *)
Definition phrase_step (max_duration_ms : Z) (s : list Event * Event)
    (word : Event) : list Event * Event :=
  let '(merged, current_phrase) := s in
  if joins_phrase max_duration_ms current_phrase word
  then
    (merged,
     set_end (end_ word)
             (set_text (text current_phrase ++ " " ++ text word)%string
                       current_phrase))
  else (merged ++ [current_phrase], phrase_of word).

Definition merge_consecutive_words (word_subtitles : list Event)
    (max_duration_ms : Z) : list Event :=
  match word_subtitles with
  | [] => []
  | first :: rest =>
      let '(merged, current_phrase) :=
        fold_left (phrase_step max_duration_ms) rest ([], phrase_of first) in
      merged ++ [current_phrase]
  end.

(** The phrase that a run of consecutive words makes: from the start of the
    first word to the end of the last, the texts joined by single spaces. *)
Definition phrase_of_run (run : list Event) : Event :=
  mkEvent (start (hd blank run)) (end_ (last run blank))
          (Py.join " " (map text run)) "speech" None None None.

(** Every word of a run after the first passed the test of the loop against
    the words before it. *)
Fixpoint close_words (max_duration_ms : Z) (run_start prev_end : Z)
    (words : list Event) : Prop :=
  match words with
  | [] => True
  | word :: words' =>
      start word - prev_end < 500
      /\ end_ word - run_start < max_duration_ms
      /\ close_words max_duration_ms run_start (end_ word) words'
  end.

Definition run_ok (max_duration_ms : Z) (run : list Event) : Prop :=
  match run with
  | [] => False
  | word :: words => close_words max_duration_ms (start word) (end_ word) words
  end.

(** A run is closed only by a word that failed the test against it. *)
Fixpoint greedy_runs (max_duration_ms : Z) (runs : list (list Event)) : Prop :=
  match runs with
  | run :: rest =>
      match rest with
      | [] => True
      | [] :: _ => False
      | (word :: _) :: _ =>
          joins_phrase max_duration_ms (phrase_of_run run) word = false
          /\ greedy_runs max_duration_ms rest
      end
  | [] => True
  end.

Definition words_example : list Event :=
  [ mkEvent 0 300 "Hello" "speech" None None None;
    mkEvent 350 700 "there," "speech" None None None;
    mkEvent 1300 1600 "how" "speech" None None None;
    mkEvent 1650 1900 "are" "speech" None None None;
    mkEvent 1950 4400 "you" "speech" None None None ].

(** ** Order of the events *)

(** The events of a list are in non-decreasing order of [start]. *)
Definition sorted_by_start (st : Store) (l : list loc) : Prop :=
  StronglySorted (fun a b => start (rd st a) <= start (rd st b)) l.

(** An event that [format_subtitles] passes on as it is. *)
Definition fits (max_chars : Z) (e : Event) : Prop :=
  type e = "sound" \/ Py.len (text e) <= max_chars.

(** ** Translator: [translate_subtitles] *)

Section TranslateSubtitles.
(** [settings.OPENAI_API_KEY] and the translation service. *)
Variable OPENAI_API_KEY : string.
Variable client : nat -> string -> string -> option string.

(** In the model no step of the body raises, so the handler that returns
    the input list on an exception is never entered. *)
Definition translate_subtitles (subtitles : list loc)
    (source_language target_language : string) : M (list loc) :=
  if negb (Py.truthy OPENAI_API_KEY) then ret subtitles
  else if String.eqb source_language target_language then ret subtitles
  else
    speech_subtitles <-
      read (fun st =>
              filter (fun sub => String.eqb (type (rd st sub)) "speech")
                     subtitles) ;;
    sound_subtitles <-
      read (fun st =>
              filter (fun sub => String.eqb (type (rd st sub)) "sound")
                     subtitles) ;;
    translated_speech <-
      (if negb (is_empty speech_subtitles)
       then translate_texts_in_batches client speech_subtitles
                                       source_language target_language "speech"
       else ret []) ;;
    translated_sounds <-
      (if negb (is_empty sound_subtitles)
       then translate_texts_in_batches client sound_subtitles
                                       source_language target_language "sound"
       else ret []) ;;
    read (fun st =>
            stable_sort (by_start st) (translated_speech ++ translated_sounds)).
End TranslateSubtitles.

(** [b] is [a] up to its [text], and its text is not blank unless that of
    [a] is. *)
Definition same_but_text (a b : Event) : Prop :=
  start b = start a /\ end_ b = end_ a /\ type b = type a
  /\ confidence b = confidence a /\ source b = source a
  /\ priority b = priority a
  /\ (text b = "" -> text a = "").

(** The event at [l] of the store after the run stands for the event at
    [sub] of the store before it. *)
Definition translates (st st' : Store) (sub l : loc) : Prop :=
  (l < List.length st')%nat /\ same_but_text (rd st sub) (rd st' l).

(** The pauses of a tenth of a second in a log. *)
Fixpoint pauses_in (l : list Effect) : nat :=
  match l with
  | [] => O
  | Sleep seconds :: l' =>
      if Qeq_bool seconds (1 # 10) then S (pauses_in l') else pauses_in l'
  | Request _ _ :: l' => pauses_in l'
  end.

(** A service that answers the first entry only. *)
Definition first_only_client (_ : nat) (_ _ : string) : option string :=
  Some "1. Bonjour".

Definition mixed_example : World :=
  mkWorld [ mkEvent 0 900 "Hello" "speech" None None None;
            mkEvent 400 1360 "[Door slam]" "sound" (Some (1 # 2))
                    (Some "yamnet") (Some 11);
            mkEvent 1000 1900 "note" "music" None None None;
            mkEvent 1000 1900 "How are you" "speech" None None None ] [].

(** ** Exporter: [export_subtitles] *)

Section ExportFile.
(** [os.path.join] of the platform. *)
Variable os_path_join : string -> string -> string.

(** The file that is written: its path and its content.  A format that is
    none of the four leaves the opened file empty. *)
Definition export_subtitles (st : Store) (subtitles : list loc)
    (output_dir filename_base output_format : string) : string * string :=
  let output_file :=
    os_path_join output_dir (filename_base ++ "." ++ output_format)%string in
  let content :=
    if String.eqb output_format "srt" then write_srt st subtitles
    else if String.eqb output_format "vtt" then write_vtt st subtitles
    else if String.eqb output_format "ass" then write_ass st subtitles
    else if String.eqb output_format "txt" then write_txt st subtitles
    else "" in
  (output_file, content).
End ExportFile.

(** [s] has the shape of [pattern]: a digit where the pattern has [d], the
    character of the pattern elsewhere. *)
Fixpoint has_shape (pattern s : string) : bool :=
  match pattern, s with
  | EmptyString, EmptyString => true
  | String p pattern', String c s' =>
      (if Ascii.eqb p "d" then is_digit c else Ascii.eqb p c)
      && has_shape pattern' s'
  | _, _ => false
  end.

(** ** Timing of the blocks cut by [format_subtitles] *)

(** The events of [chunks] follow one another from [s]: each starts where
    the one before it ends, and the last ends at [e]. *)
Fixpoint chain (s : Z) (chunks : list Event) (e : Z) : Prop :=
  match chunks with
  | [] => e = s
  | c :: chunks' => start c = s /\ chain (end_ c) chunks' e
  end.

(** Nothing, or a chain over the whole interval. *)
Definition tiles (s e : Z) (chunks : list Event) : Prop :=
  chunks = [] \/ chain s chunks e.

(** What the input event [sub] has become in the output: itself, untouched,
    when it fits; else new speech events that tile its interval. *)
Definition cut_into (max_chars : Z) (w w' : World) (sub : loc)
    (blocks : list loc) : Prop :=
  let e := rd (heap w) sub in
  (fits max_chars e /\ blocks = [sub] /\ rd (heap w') sub = e)
  \/ (~ fits max_chars e
      /\ Forall (fun l => (List.length (heap w) <= l < List.length (heap w'))%nat
                          /\ type (rd (heap w') l) = "speech") blocks
      /\ tiles (start e) (end_ e) (map (rd (heap w')) blocks)).

(** Only the record at [sub] is written, and its end is kept. *)
Definition advances (sub : loc) (w w' : World) : Prop :=
  (List.length (heap w) <= List.length (heap w'))%nat
  /\ (forall l, (l < List.length (heap w))%nat -> l <> sub ->
        rd (heap w') l = rd (heap w) l)
  /\ end_ (rd (heap w') sub) = end_ (rd (heap w) sub).

(** The loop state of [for word in words] between two rounds: the blocks
    cut so far run from the start the event had to the start it has now. *)
Definition cutting (base : nat) (s0 : Z) (sub : loc) (w : World)
    (blocks : list loc) (current_text : string) : Prop :=
  Forall (fun l => (base <= l < List.length (heap w))%nat
                   /\ type (rd (heap w) l) = "speech") blocks
  /\ chain s0 (map (rd (heap w)) blocks) (start (rd (heap w) sub))
  /\ (blocks = [] \/ current_text <> "").

Definition tiles_example : World :=
  mkWorld [ mkEvent 0 1200 "aa bb cc dd" "speech" None None None;
            mkEvent 500 1460 "[Door slam]" "sound" (Some (1 # 2))
                    (Some "yamnet") (Some 11) ] [].

(** ** Retries *)

(** The log of [k] failed attempts, each followed by its back-off, and one
    more request; [attempt] is the number of the first of them. *)
Fixpoint retries (system_message batch_text : string) (attempt k : nat)
    : list Effect :=
  match k with
  | O => [Request system_message batch_text]
  | S k' =>
      Request system_message batch_text
      :: Sleep (inject_Z (2 ^ Z.of_nat attempt))
      :: retries system_message batch_text (S attempt) k'
  end.

(** A service that fails twice, then answers. *)
Definition third_time_client (n : nat) (_ _ : string) : option string :=
  if (n <? 2)%nat then None else Some " 1. Bonjour le monde  ".

(** ** The numbered list and its reading *)

(** The text that comes back for an event when the service answers with
    the numbered list it was sent. *)
Definition echoed_text (original_text : string) : string :=
  if Py.truthy (Py.strip original_text) then Py.strip original_text
  else original_text.

Definition padded_example : World :=
  mkWorld [ mkEvent 0 900 "  Hello world " "speech" None None None;
            mkEvent 1000 1900 "   " "speech" None None None ] [].

(** ** The pipeline: [generate_subtitles] *)

(** The row of [subtitle_configs] that the pipeline reads: a flag is the
    truth value of its entry, [target_language] may be missing. *)
Record SubtitleConfig := mkSubtitleConfig {
  non_verbal : bool;
  source_language : string;
  target_language : option string;
  genre : string;
  accessibility_mode : bool;
  non_verbal_only_mode : bool;
  max_chars_per_line : Z;
  lines_per_subtitle : Z;
  output_format : string
}.

(** The video row: [file_path] and [original_filename]. *)
Record Video := mkVideo {
  file_path : string;
  original_filename : string
}.

(** [config["target_language"] and
    config["target_language"] != config["source_language"]]. *)
Definition wants_translation (config : SubtitleConfig) : bool :=
  match target_language config with
  | Some t => Py.truthy t && negb (String.eqb t (source_language config))
  | None => false
  end.

Section Pipeline.
Variable OPENAI_API_KEY : string.
Variable client : nat -> string -> string -> option string.
Variable os_path_join : string -> string -> string.
(** [os.path.splitext(name)[0]]. *)
Variable splitext_root : string -> string.
(** The two detectors: transcription of the speech, and detection and
    reconciliation of the sounds.  They read the media file and call
    services; each returns a list of events it has created. *)
Variable generate_speech_subtitles : string -> string -> M (list loc).
Variable generate_sound_subtitles : string -> string -> M (list loc).

(** What the pipeline returns is the list of the files written; a file is
    given here with its content. *)
Definition generate_subtitles (video : Video) (config : SubtitleConfig)
    (output_dir : string) : M (list (string * string)) :=
  speech_subtitles <-
    (if negb (non_verbal config)
     then generate_speech_subtitles (file_path video) (source_language config)
     else ret []) ;;
  sound_subtitles <- generate_sound_subtitles (file_path video) (genre config) ;;
  merged_subtitles <-
    read (fun st => merge_subtitles st speech_subtitles sound_subtitles
                                    (accessibility_mode config)
                                    (non_verbal_only_mode config)) ;;
  formatted_subtitles <-
    format_subtitles merged_subtitles (max_chars_per_line config)
                     (lines_per_subtitle config) ;;
  translated_subtitles <-
    (if wants_translation config
     then translate_subtitles OPENAI_API_KEY client formatted_subtitles
                              (source_language config)
                              (match target_language config with
                               | Some t => t
                               | None => ""
                               end)
     else ret formatted_subtitles) ;;
  output_file <-
    read (fun st => export_subtitles os_path_join st translated_subtitles
                                     output_dir
                                     (splitext_root (original_filename video))
                                     (output_format config)) ;;
  ret [output_file].
End Pipeline.

(** The same requests, in the same order. *)
Definition same_requests (w w' : World) : Prop :=
  requests_in (log w') = requests_in (log w).

(** * Properties *)

(** ** Genre filter and priority *)

Lemma first_sound_type_key table clean_label k :
  first_sound_type table clean_label = Some k -> In k (map fst table).
Proof.
  induction table as [|[sound_type patterns] table IH]; simpl; [discriminate|].
  destruct (matches_any patterns clean_label).
  - intros [= ->]. now left.
  - intros H. right. auto.
Qed.

Lemma extract_sound_key_truthy sound_label k :
  extract_sound_key sound_label = Some k -> Py.truthy k = true.
Proof.
  intros H. apply first_sound_type_key in H. simpl in H.
  repeat (destruct H as [<-|H]; [reflexivity|]). contradiction.
Qed.

Lemma genre_allowed_nonempty genre filters :
  Py.dict_get genre GENRE_FILTERS = Some filters ->
  is_empty (allowed_sounds filters) = false
  /\ Nat.eqb (List.length (allowed_sounds filters)) 0 = false.
Proof.
  unfold GENRE_FILTERS, Py.dict_get.
  repeat match goal with
         | |- context [String.eqb genre ?g] => destruct (String.eqb genre g)
         end;
    intros [= <-] || discriminate; split; reflexivity.
Qed.

(** Claim C4.  [should_include_sound] includes every label when the genre
    is not a key of [GENRE_FILTERS]; for a known genre it excludes a label
    whose category is in the blocked list, excludes one whose category is
    not in a non-empty allowed list, and includes every other label.  For
    the genre horror the label [[Laughter]] is excluded and [[Scream]] is
    included.  (A label without a category is excluded for every known
    genre: every allowed list of the table is non-empty.) *)
Theorem should_include_sound_rule :
  (forall sound_label genre,
      should_include_sound sound_label genre =
      match Py.dict_get genre GENRE_FILTERS with
      | None => true
      | Some filters =>
          let category := extract_sound_key sound_label in
          if category_in category (blocked_sounds filters) then false
          else if negb (is_empty (allowed_sounds filters))
                  && negb (category_in category (allowed_sounds filters))
               then false
               else true
      end)
  /\ should_include_sound "[Laughter]" "horror" = false
  /\ should_include_sound "[Scream]" "horror" = true.
Proof.
  split; [|split; reflexivity].
  intros sound_label genre. unfold should_include_sound.
  destruct (Py.dict_get genre GENRE_FILTERS) as [filters|] eqn:G; [|reflexivity].
  destruct (genre_allowed_nonempty _ _ G) as [E1 E2].
  cbv zeta. destruct (extract_sound_key sound_label) as [k|] eqn:K; simpl.
  - rewrite (extract_sound_key_truthy _ _ K). simpl.
    rewrite E1, E2. reflexivity.
  - rewrite E1. reflexivity.
Qed.

(** Claim C5 as stated fails on a label that matches no category: for a
    known genre the stated rule gives 1, the code returns 0. *)
Lemma get_sound_priority_unmatched_label :
  extract_sound_key "[Xyz]" = None
  /\ get_sound_priority "[Xyz]" "horror" = 0
  /\ claimed_sound_priority "[Xyz]" "horror" = 1.
Proof. repeat split. Qed.

(** Claim C5, amended.  [get_sound_priority] returns the index of the
    label's category in the genre's priority list plus 10 when the category
    is in that list, else 1 when the genre is known and the label has a
    category, else 0; [[Scream]] has priority 10 for horror. *)
Theorem get_sound_priority_rule :
  (forall sound_label genre,
      get_sound_priority sound_label genre =
      match Py.dict_get genre GENRE_FILTERS, extract_sound_key sound_label with
      | Some filters, Some k =>
          match Py.index_of k (priority_sounds filters) with
          | Some i => Z.of_nat i + 10
          | None => 1
          end
      | _, _ => 0
      end)
  /\ get_sound_priority "[Scream]" "horror" = 10.
Proof.
  split; [|reflexivity].
  intros sound_label genre. unfold get_sound_priority.
  destruct (Py.dict_get genre GENRE_FILTERS) as [filters|]; [|reflexivity].
  destruct (extract_sound_key sound_label) as [k|] eqn:K; simpl; [|reflexivity].
  rewrite (extract_sound_key_truthy _ _ K). reflexivity.
Qed.

(** ** Stable sorting *)

Section SortingFacts.
Context {A : Type} (lt : A -> A -> bool).

Lemma insert_sorted_perm x l : Permutation (insert_sorted lt x l) (x :: l).
Proof.
  induction l as [|y l IH]; simpl; [reflexivity|].
  destruct (lt y x); [|reflexivity].
  rewrite IH. apply perm_swap.
Qed.

Lemma stable_sort_perm l : Permutation (stable_sort lt l) l.
Proof.
  induction l as [|x l IH]; simpl; [reflexivity|].
  rewrite insert_sorted_perm. now constructor.
Qed.

Lemma stable_sort_In x l : In x (stable_sort lt l) <-> In x l.
Proof.
  split; apply Permutation_in;
    [apply stable_sort_perm | symmetry; apply stable_sort_perm].
Qed.

Lemma stable_sort_sorted_id l :
  Sorted (fun a b => lt b a = false) l -> stable_sort lt l = l.
Proof.
  induction 1 as [|x l HS IH HR]; [reflexivity|].
  change (stable_sort lt (x :: l)) with (insert_sorted lt x (stable_sort lt l)).
  rewrite IH.
  destruct HR as [|y l' Hxy]; simpl; [reflexivity|].
  now rewrite Hxy.
Qed.

(** [lt] is a strict weak order: asymmetric, with a transitive
    complement. *)
Hypothesis lt_asym : forall a b, lt a b = true -> lt b a = false.
Hypothesis le_trans :
  forall a b c, lt b a = false -> lt c b = false -> lt c a = false.

Lemma insert_sorted_strongly x l :
  StronglySorted (fun a b => lt b a = false) l ->
  StronglySorted (fun a b => lt b a = false) (insert_sorted lt x l).
Proof.
  induction 1 as [|y l HS IH HF]; simpl.
  - repeat constructor.
  - destruct (lt y x) eqn:E.
    + constructor; [exact IH|].
      eapply Permutation_Forall; [symmetry; apply insert_sorted_perm|].
      constructor; [now apply lt_asym|exact HF].
    + constructor; [now constructor|].
      constructor; [exact E|].
      eapply Forall_impl; [|exact HF].
      intros z Hz. now apply (le_trans x y z).
Qed.

Lemma stable_sort_strongly l :
  StronglySorted (fun a b => lt b a = false) (stable_sort lt l).
Proof.
  induction l as [|x l IH]; simpl; [constructor|].
  now apply insert_sorted_strongly.
Qed.
End SortingFacts.

Lemma StronglySorted_snoc {A : Type} (R : A -> A -> Prop) l x :
  StronglySorted R l -> Forall (fun a => R a x) l -> StronglySorted R (l ++ [x]).
Proof.
  induction 1 as [|y l HS IH HF]; intros Hx; simpl.
  - repeat constructor.
  - inversion Hx; subst. constructor; [now apply IH|].
    apply Forall_app. split; [exact HF|now constructor].
Qed.

Lemma ForallOrdPairs_snoc {A : Type} (R : A -> A -> Prop) l x :
  ForallOrdPairs R l -> Forall (fun a => R a x) l -> ForallOrdPairs R (l ++ [x]).
Proof.
  induction 1 as [|y l HF HP IH]; intros Hx; simpl.
  - repeat constructor.
  - inversion Hx; subst. constructor; [|now apply IH].
    apply Forall_app. split; [exact HF|now constructor].
Qed.

Lemma ForallOrdPairs_app_inv {A : Type} (R : A -> A -> Prop) l1 l2 :
  ForallOrdPairs R (l1 ++ l2) ->
  forall a b, In a l1 -> In b l2 -> R a b.
Proof.
  induction l1 as [|x l1 IH]; simpl; intros H a b Ha Hb; [contradiction|].
  inversion H as [|? ? HF HP]; subst. destruct Ha as [->|Ha].
  - rewrite Forall_forall in HF. apply HF, in_or_app. now right.
  - now apply IH.
Qed.

Lemma Qlt_bool_iff x y : Qlt_bool x y = true <-> (x < y)%Q.
Proof.
  unfold Qlt_bool. rewrite negb_true_iff. split.
  - intros H. apply Qnot_le_lt. intros C. apply Qle_bool_iff in C. congruence.
  - intros H. destruct (Qle_bool y x) eqn:E; [|reflexivity].
    apply Qle_bool_iff in E. exfalso. now apply (Qlt_not_le x y).
Qed.

Lemma Qlt_bool_false x y : Qlt_bool x y = false <-> (y <= x)%Q.
Proof.
  unfold Qlt_bool. rewrite negb_false_iff. apply Qle_bool_iff.
Qed.

Lemma key_ltb_false a b : key_ltb b a = false <-> key_le a b.
Proof.
  destruct a as [[s1 p1] c1], b as [[s2 p2] c2]. unfold key_ltb, key_le.
  rewrite orb_false_iff, andb_false_iff, orb_false_iff, andb_false_iff.
  rewrite Qlt_bool_false, !Z.ltb_ge, !Z.eqb_neq.
  generalize (c1 <= c2)%Q. intros P. split.
  - intros [H1 [H2|[H2 [H3|H3]]]]; [lia| |].
    + destruct (Z.eq_dec s1 s2); [|lia]. right. split; [assumption|]. left. lia.
    + destruct (Z.eq_dec s1 s2); [|lia]. right. split; [assumption|].
      destruct (Z.eq_dec p1 p2); [|lia]. right. now split.
  - intros [H|[H1 [H|[H2 H3]]]].
    + split; [lia|]. left. lia.
    + split; [lia|]. right. split; [lia|]. left. lia.
    + split; [lia|]. right. split; [lia|]. now right.
Qed.

Lemma key_ltb_true a b : key_ltb a b = true -> key_ltb b a = false.
Proof.
  destruct a as [[s1 p1] c1], b as [[s2 p2] c2]. intros H.
  apply key_ltb_false. unfold key_ltb, key_le in *.
  rewrite orb_true_iff, andb_true_iff, orb_true_iff, andb_true_iff in H.
  rewrite Qlt_bool_iff, !Z.ltb_lt, !Z.eqb_eq in H.
  destruct H as [H|[H1 [H|[H2 H3]]]]; [lia|lia|].
  right. split; [assumption|]. right. split; [assumption|].
  now apply Qlt_le_weak.
Qed.

Lemma key_le_trans a b c : key_le a b -> key_le b c -> key_le a c.
Proof.
  destruct a as [[s1 p1] c1], b as [[s2 p2] c2], c as [[s3 p3] c3].
  unfold key_le.
  intros [H|[H1 [H|[H2 H3]]]] [K|[K1 [K|[K2 K3]]]]; try lia.
  right. split; [lia|]. right. split; [lia|]. now apply (Qle_trans _ c2).
Qed.

(** ** Deduplication *)

Lemma opt_eqb_refl {A : Type} (eqb : A -> A -> bool) (x : option A) :
  (forall a, eqb a a = true) -> opt_eqb eqb x x = true.
Proof. intros H. destruct x; simpl; auto. Qed.

Lemma event_eqb_refl e : event_eqb e e = true.
Proof.
  unfold event_eqb.
  rewrite !Z.eqb_refl, !String.eqb_refl. simpl.
  rewrite !opt_eqb_refl; auto using Z.eqb_refl, String.eqb_refl.
  intros a. apply Qeq_bool_iff. reflexivity.
Qed.

Lemma event_eqb_same_sound a b e :
  event_eqb a b = true -> same_sound a e = same_sound b e.
Proof.
  unfold event_eqb, same_sound. rewrite !andb_true_iff.
  intros [[[[[[H1 _] H2] _] _] _] _].
  apply Z.eqb_eq in H1. apply String.eqb_eq in H2. now rewrite H1, H2.
Qed.

(** Two events that clash with a later event clash with each other. *)
Lemma same_sound_before a b e :
  start a <= start e -> start b <= start e ->
  same_sound a e = true -> same_sound b e = true -> same_sound a b = true.
Proof.
  unfold same_sound. rewrite !andb_true_iff, !Z.ltb_lt, !String.eqb_eq.
  intros Ha Hb [T1 D1] [T2 D2]. split; [congruence|lia].
Qed.

Section Dedup.
Variable st : Store.

Lemma kle_start a b : kle st a b -> start (rd st a) <= start (rd st b).
Proof.
  unfold kle, by_dedup_key. intros H. apply key_ltb_false in H.
  unfold dedup_key, key_le in H. lia.
Qed.

Lemma by_dedup_key_asym a b :
  by_dedup_key st a b = true -> by_dedup_key st b a = false.
Proof. apply key_ltb_true. Qed.

Lemma kle_trans a b c : kle st a b -> kle st b c -> kle st a c.
Proof.
  unfold kle, by_dedup_key. rewrite !key_ltb_false. apply key_le_trans.
Qed.

Lemma list_remove_incl x l a : In a (list_remove st x l) -> In a l.
Proof.
  induction l as [|y l IH]; simpl; [tauto|].
  destruct (event_eqb (rd st y) (rd st x)); simpl; tauto.
Qed.

Lemma list_remove_strongly (R : loc -> loc -> Prop) x l :
  StronglySorted R l -> StronglySorted R (list_remove st x l).
Proof.
  induction 1 as [|y l HS IH HF]; simpl; [constructor|].
  destruct (event_eqb (rd st y) (rd st x)); [exact HS|].
  constructor; [exact IH|].
  rewrite Forall_forall in *. intros a Ha. apply HF.
  now apply list_remove_incl in Ha.
Qed.

Lemma list_remove_pairs (R : loc -> loc -> Prop) x l :
  ForallOrdPairs R l -> ForallOrdPairs R (list_remove st x l).
Proof.
  induction 1 as [|y l HF HP IH]; simpl; [constructor|].
  destruct (event_eqb (rd st y) (rd st x)); [exact HP|].
  constructor; [|exact IH].
  rewrite Forall_forall in *. intros a Ha. apply HF.
  now apply list_remove_incl in Ha.
Qed.

(** Once the accepted event [x] that clashes with [e] is removed, nothing
    accepted clashes with [e]. *)
Lemma list_remove_no_clash x e l :
  ForallOrdPairs (no_clash st) l ->
  Forall (fun a => start (rd st a) <= start (rd st e)) l ->
  In x l -> same_sound (rd st x) (rd st e) = true ->
  Forall (fun a => no_clash st a e) (list_remove st x l).
Proof.
  induction 1 as [|y l HF HP IH]; intros Hle Hin Hx; [contradiction|].
  inversion Hle as [|? ? Hy Hl]; subst. simpl.
  rewrite Forall_forall in HF, Hl.
  destruct (event_eqb (rd st y) (rd st x)) eqn:E.
  - assert (Hsx : start (rd st x) <= start (rd st e)).
    { unfold event_eqb in E. rewrite !andb_true_iff in E.
      destruct E as [[[[[[E _] _] _] _] _] _]. apply Z.eqb_eq in E.
      rewrite <- E. exact Hy. }
    apply Forall_forall. intros a Ha. unfold no_clash.
    destruct (same_sound (rd st a) (rd st e)) eqn:C; [|reflexivity].
    exfalso. pose proof (HF a Ha) as N. unfold no_clash in N.
    rewrite (event_eqb_same_sound _ _ (rd st a) E) in N.
    rewrite (same_sound_before (rd st x) (rd st a) (rd st e)) in N;
      [discriminate|exact Hsx|now apply Hl|exact Hx|exact C].
  - destruct Hin as [->|Hin]; [rewrite event_eqb_refl in E; discriminate|].
    constructor; [|apply IH; [apply Forall_forall; exact Hl|exact Hin|exact Hx]].
    unfold no_clash.
    destruct (same_sound (rd st y) (rd st e)) eqn:C; [|reflexivity].
    exfalso. pose proof (HF x Hin) as N. unfold no_clash in N.
    rewrite (same_sound_before (rd st y) (rd st x) (rd st e)) in N;
      [discriminate|exact Hy|now apply Hl|exact C|exact Hx].
Qed.

Lemma dedup_step_incl acc e a :
  In a (dedup_step st acc e) -> In a acc \/ a = e.
Proof.
  unfold dedup_step.
  destruct (find _ acc) as [x|].
  - destruct (outranks _ _); [|tauto].
    rewrite in_app_iff. simpl. intros [H|[H|[]]]; auto.
    left. now apply list_remove_incl in H.
  - rewrite in_app_iff. simpl. intros [H|[H|[]]]; auto.
Qed.

(** One round keeps the accepted list sorted by key and free of clashes. *)
Lemma dedup_step_inv acc e :
  StronglySorted (kle st) acc -> ForallOrdPairs (no_clash st) acc ->
  Forall (fun a => kle st a e) acc ->
  StronglySorted (kle st) (dedup_step st acc e)
  /\ ForallOrdPairs (no_clash st) (dedup_step st acc e).
Proof.
  intros HS HP Hle. unfold dedup_step.
  destruct (find _ acc) as [x|] eqn:F.
  - destruct (outranks _ _); [|now split].
    apply find_some in F. destruct F as [Hin Hx]. split.
    + apply StronglySorted_snoc; [now apply list_remove_strongly|].
      rewrite Forall_forall in *. intros a Ha. apply Hle.
      now apply list_remove_incl in Ha.
    + apply ForallOrdPairs_snoc; [now apply list_remove_pairs|].
      apply list_remove_no_clash; auto.
      eapply Forall_impl; [|exact Hle]. intros a. apply kle_start.
  - split.
    + now apply StronglySorted_snoc.
    + apply ForallOrdPairs_snoc; [assumption|].
      apply Forall_forall. intros a Ha.
      exact (find_none _ _ F a Ha).
Qed.

Lemma dedup_fold_inv rest acc :
  StronglySorted (kle st) (acc ++ rest) -> ForallOrdPairs (no_clash st) acc ->
  StronglySorted (kle st) (fold_left (dedup_step st) rest acc)
  /\ ForallOrdPairs (no_clash st) (fold_left (dedup_step st) rest acc)
  /\ (forall a, In a (fold_left (dedup_step st) rest acc) ->
                In a (acc ++ rest)).
Proof.
  revert acc. induction rest as [|e rest IH]; intros acc HS HP; simpl.
  - rewrite app_nil_r in *. auto.
  - assert (Hacc : StronglySorted (kle st) acc /\ Forall (fun a => kle st a e) acc
                   /\ StronglySorted (kle st) (e :: rest)
                   /\ Forall (fun a => Forall (kle st a) rest) acc).
    { clear - HS. induction acc as [|y acc IH]; simpl in *.
      - repeat split; auto. constructor.
      - inversion HS as [|? ? HS' HF]; subst.
        destruct (IH HS') as (I1 & I2 & I3 & I4).
        rewrite Forall_app in HF. destruct HF as [F1 F2].
        inversion F2; subst.
        repeat split; auto; constructor; auto. }
    destruct Hacc as (H1 & H2 & H3 & H4).
    destruct (dedup_step_inv acc e H1 HP H2) as [S1 S2].
    inversion H3 as [|? ? H5 H6]; subst.
    destruct (IH (dedup_step st acc e)) as (R1 & R2 & R3); auto.
    + clear - S1 H4 H5 H6.
      assert (Hin : forall a, In a (dedup_step st acc e) -> Forall (kle st a) rest).
      { intros a Ha. apply dedup_step_incl in Ha. destruct Ha as [Ha| ->].
        - rewrite Forall_forall in H4. auto.
        - assumption. }
      induction S1 as [|y l HS IH' HF]; simpl; [assumption|].
      constructor.
      * apply IH'. intros a Ha. apply Hin. now right.
      * apply Forall_app. split; [assumption|]. apply Hin. now left.
    + repeat split; auto. intros a Ha. apply R3 in Ha.
      rewrite in_app_iff in *. simpl. destruct Ha as [Ha|Ha]; [|tauto].
      apply dedup_step_incl in Ha. destruct Ha as [Ha| ->]; auto.
Qed.

(** Events that do not clash pairwise are all accepted, in order. *)
Lemma dedup_fold_no_clash rest acc :
  ForallOrdPairs (no_clash st) (acc ++ rest) ->
  fold_left (dedup_step st) rest acc = acc ++ rest.
Proof.
  revert acc. induction rest as [|e rest IH]; intros acc HP; simpl.
  - now rewrite app_nil_r.
  - assert (F : find (fun existing => same_sound (rd st existing) (rd st e)) acc
                = None).
    { destruct (find _ acc) as [x|] eqn:F; [|reflexivity].
      apply find_some in F. destruct F as [Hin Hx].
      pose proof (ForallOrdPairs_app_inv _ _ _ HP x e Hin (or_introl eq_refl)) as N.
      unfold no_clash in N. congruence. }
    unfold dedup_step at 2. rewrite F.
    rewrite IH; rewrite <- app_assoc; [reflexivity|exact HP].
Qed.

Lemma StronglySorted_by_start l :
  StronglySorted (kle st) l -> Sorted (fun a b => by_start st b a = false) l.
Proof.
  intros H. apply StronglySorted_Sorted.
  induction H as [|y l HS IH HF]; constructor; auto.
  eapply Forall_impl; [|exact HF]. intros a Ha. apply kle_start in Ha.
  unfold by_start. now apply Z.ltb_ge.
Qed.
End Dedup.

(** Claim C2.  Deduplication is idempotent: whenever
    [deduplicate_sound_events] returns a list, applying it to that list
    returns the same list.  It fails to return only when some event has no
    confidence (the sort key raises). *)
Theorem deduplicate_sound_events_idempotent (st : Store) (events : list loc) :
  match deduplicate_sound_events st events with
  | Some out => deduplicate_sound_events st out = Some out
  | None => exists l, In l events /\ confidence (rd st l) = None
  end.
Proof.
  unfold deduplicate_sound_events at 1.
  destruct events as [|e0 events]; [reflexivity|].
  set (evs := e0 :: events).
  destruct (forallb (fun l => has_confidence (rd st l)) evs) eqn:C.
  - set (sorted := stable_sort (by_dedup_key st) evs).
    assert (HS : StronglySorted (kle st) sorted).
    { apply stable_sort_strongly.
      - apply by_dedup_key_asym.
      - intros a b c. apply (kle_trans st a b c). }
    destruct (dedup_fold_inv st sorted [] HS (FOP_nil _)) as (D1 & D2 & D3).
    set (D := fold_left (dedup_step st) sorted []) in *.
    rewrite (stable_sort_sorted_id _ D (StronglySorted_by_start st D D1)).
    unfold deduplicate_sound_events.
    destruct D as [|d0 D'] eqn:ED; [reflexivity|]. rewrite <- ED in *.
    assert (C' : forallb (fun l => has_confidence (rd st l)) D = true).
    { apply forallb_forall. intros a Ha. apply D3 in Ha. simpl in Ha.
      apply stable_sort_In in Ha.
      rewrite forallb_forall in C. now apply C. }
    rewrite C'.
    rewrite (stable_sort_sorted_id _ D (StronglySorted_Sorted D1)).
    rewrite (dedup_fold_no_clash st D []) by exact D2. simpl.
    now rewrite (stable_sort_sorted_id _ D (StronglySorted_by_start st D D1)).
  - assert (N : ~ Forall (fun l => has_confidence (rd st l) = true) evs).
    { intros F. rewrite Forall_forall in F.
      apply forallb_forall in F. congruence. }
    apply neg_Forall_Exists_neg in N.
    + apply Exists_exists in N. destruct N as [l [Hin Hl]].
      exists l. split; [assumption|].
      unfold has_confidence in Hl. destruct (confidence (rd st l)); congruence.
    + intros l. destruct (has_confidence (rd st l)); [now left|now right].
Qed.

Example deduplicate_sound_events_example :
  deduplicate_sound_events dedup_example [0; 1; 2; 3]%nat = Some [3; 1]%nat
  /\ deduplicate_sound_events dedup_example [3; 1]%nat = Some [3; 1]%nat.
Proof. split; vm_compute; reflexivity. Qed.

(** ** Merging *)

Lemma merge_fold_filter st speech sound merged :
  fold_left (merge_step st false speech) sound merged
  = merged ++ filter (fun s => negb (is_overlapping st s speech)) sound.
Proof.
  revert merged. induction sound as [|s sound IH]; intros merged; simpl.
  - now rewrite app_nil_r.
  - rewrite IH. unfold merge_step. simpl.
    destruct (negb (is_overlapping st s speech)); simpl.
    + now rewrite <- app_assoc.
    + reflexivity.
Qed.

Lemma overlaps_intersects a b :
  start a <= end_ a -> start b <= end_ b ->
  overlaps a b = true <-> intersects a b.
Proof.
  intros Ha Hb. unfold overlaps, intersects.
  rewrite andb_true_iff, Z.leb_le, Z.geb_le. split.
  - intros [H1 H2]. exists (Z.max (start a) (start b)). lia.
  - intros [t Ht]. lia.
Qed.

(** Claim C3.  With both modes off and events whose intervals are well
    formed ([start <= end]), [merge_subtitles] keeps every speech event and
    keeps a sound event exactly when its closed interval meets the closed
    interval of no speech event; nothing else is in the result.  The sound
    event [1000,1200] inside the speech interval [900,1500] is dropped, the
    sound event [2000,2200] is kept. *)
Theorem merge_subtitles_default (st : Store) (speech sound : list loc) :
  Forall (fun l => start (rd st l) <= end_ (rd st l)) (speech ++ sound) ->
  let merged := merge_subtitles st speech sound false false in
  (forall l, In l speech -> In l merged)
  /\ (forall l, In l sound -> ~ In l speech ->
        (In l merged <->
         forall p, In p speech -> ~ intersects (rd st l) (rd st p)))
  /\ (forall l, In l merged -> In l speech \/ In l sound)
  /\ merge_subtitles merge_example [0%nat] [1%nat; 2%nat] false false
     = [0%nat; 2%nat].
Proof.
  intros Hwf merged. subst merged. unfold merge_subtitles.
  rewrite merge_fold_filter.
  rewrite Forall_app, !Forall_forall in Hwf. destruct Hwf as [Hsp Hso].
  repeat split.
  - intros l Hl. apply stable_sort_In, in_or_app. now left.
  - rewrite stable_sort_In, in_app_iff, filter_In.
    intros [Hin|[_ Hno]] p Hp; [contradiction|].
    intros Hi. apply overlaps_intersects in Hi; auto.
    apply negb_true_iff in Hno. unfold is_overlapping in Hno.
    assert (E : existsb (fun q => overlaps (rd st l) (rd st q)) speech = true)
      by (apply existsb_exists; eauto).
    congruence.
  - intros Hno. rewrite stable_sort_In, in_app_iff, filter_In.
    right. split; [assumption|]. apply negb_true_iff.
    destruct (is_overlapping st l speech) eqn:E; [|reflexivity].
    unfold is_overlapping in E. apply existsb_exists in E.
    destruct E as [p [Hp Ho]]. exfalso. apply (Hno p Hp).
    apply overlaps_intersects; auto.
  - intros l. rewrite stable_sort_In, in_app_iff, filter_In. tauto.
Qed.

Lemma merge_subtitles_default_witness :
  Forall (fun l => start (rd merge_example l) <= end_ (rd merge_example l))
         ([0%nat] ++ [1%nat; 2%nat])
  /\ (In 2%nat (merge_subtitles merge_example [0%nat] [1%nat; 2%nat] false false)
      /\ ~ In 1%nat (merge_subtitles merge_example [0%nat] [1%nat; 2%nat] false false)).
Proof.
  assert (H : Forall (fun l => start (rd merge_example l) <= end_ (rd merge_example l))
                     ([0%nat] ++ [1%nat; 2%nat])).
  { repeat constructor; simpl; lia. }
  split; [exact H|].
  destruct (merge_subtitles_default merge_example [0%nat] [1%nat; 2%nat] H)
    as [_ [_ [_ E]]].
  rewrite E. split; simpl; [tauto|]. intros [F|[F|[]]]; discriminate.
Defined.

(** ** Translation batches *)

Section Batches.
Variable st : Store.

Lemma word_count_nonneg l : 0 <= word_count st l.
Proof. unfold word_count. lia. Qed.

Lemma batch_words_app a b :
  batch_words st (a ++ b) = batch_words st a + batch_words st b.
Proof.
  induction a as [|x a IH]; simpl; [reflexivity|].
  unfold batch_words in *. simpl. lia.
Qed.

Lemma batch_words_nonneg b : 0 <= batch_words st b.
Proof.
  induction b as [|x b IH]; simpl; [lia|].
  pose proof (word_count_nonneg x). unfold batch_words in *. simpl. lia.
Qed.

Lemma greedy_extend bs cur e :
  greedy st (bs ++ [cur]) -> greedy st (bs ++ [cur ++ [e]]).
Proof.
  induction bs as [|b bs IH]; [intros _; exact I|].
  destruct bs as [|b' bs].
  - simpl. destruct cur as [|e0 cur]; [tauto|]. simpl. tauto.
  - change ((b :: b' :: bs) ++ [cur]) with (b :: (b' :: bs) ++ [cur]).
    change ((b :: b' :: bs) ++ [cur ++ [e]])
      with (b :: (b' :: bs) ++ [cur ++ [e]]).
    simpl greedy at 1. simpl greedy at 2.
    simpl in IH |- *.
    destruct b' as [|e' b']; [tauto|].
    intros [H1 H2]. split; [exact H1|]. apply IH. exact H2.
Qed.

Lemma greedy_close bs cur e :
  greedy st (bs ++ [cur]) ->
  (batch_words st cur + word_count st e > max_words_per_batch
   \/ Z.of_nat (List.length cur) >= max_subtitles_per_batch) ->
  greedy st ((bs ++ [cur]) ++ [[e]]).
Proof.
  intros G C. induction bs as [|b bs IH].
  - simpl. tauto.
  - destruct bs as [|b' bs].
    + simpl in G |- *. destruct cur as [|e0 cur]; [tauto|].
      destruct G as [G _]. simpl in IH. tauto.
    + simpl in G |- *. destruct b' as [|e' b']; [tauto|].
      destruct G as [G1 G2]. split; [exact G1|]. apply IH. exact G2.
Qed.

Lemma batch_step_inv processed s e :
  batches_inv st processed s ->
  batches_inv st (processed ++ [e]) (batch_step st s e).
Proof.
  destruct s as [[batches cur] wc]. unfold batches_inv, batch_step.
  intros (Hc & Hw & Hb & Hcur & Hg). subst wc.
  pose proof (word_count_nonneg e) as He.
  pose proof (batch_words_nonneg cur) as Hcw.
  unfold batch_ok, max_words_per_batch, max_subtitles_per_batch in *.
  destruct (((batch_words st cur + word_count st e >? 500)
             || (Z.of_nat (List.length cur) >=? 50))
            && negb (Nat.eqb (List.length cur) 0)) eqn:E.
  - apply andb_true_iff in E. destruct E as [E1 E2].
    apply negb_true_iff, Nat.eqb_neq in E2.
    assert (Hne : cur <> []) by (intros ->; apply E2; reflexivity).
    destruct Hcur as [->|Hok]; [contradiction|].
    repeat split.
    + rewrite concat_app. simpl. rewrite app_nil_r, <- Hc. reflexivity.
    + unfold batch_words. simpl. lia.
    + apply Forall_app. split; [assumption|]. now constructor.
    + right. repeat split; [discriminate|simpl; lia|]. right. now exists e.
    + apply greedy_close; [assumption|].
      apply orb_true_iff in E1. destruct E1 as [E1|E1].
      * left. apply Z.gtb_lt in E1.
        unfold max_words_per_batch. lia.
      * right. apply Z.geb_le in E1.
        unfold max_subtitles_per_batch. lia.
  - apply andb_false_iff in E.
    repeat split.
    + rewrite <- Hc. now rewrite app_assoc.
    + rewrite batch_words_app. unfold batch_words at 3. simpl. lia.
    + assumption.
    + right. destruct E as [E|E].
      * apply orb_false_iff in E. destruct E as [E1 E2].
        rewrite Z.gtb_ltb, Z.ltb_ge in E1. rewrite Z.geb_leb, Z.leb_gt in E2.
        repeat split.
        -- destruct cur; discriminate.
        -- rewrite length_app. simpl. lia.
        -- left. rewrite batch_words_app. unfold batch_words at 2. simpl. lia.
      * apply negb_false_iff, Nat.eqb_eq in E.
        destruct cur; [|discriminate]. simpl.
        repeat split; [discriminate|lia|]. right. now exists e.
    + now apply greedy_extend.
Qed.

Lemma batch_fold_inv l processed s :
  batches_inv st processed s ->
  batches_inv st (processed ++ l) (fold_left (batch_step st) l s).
Proof.
  revert processed s. induction l as [|e l IH]; intros processed s H; simpl.
  - now rewrite app_nil_r.
  - replace (processed ++ e :: l) with ((processed ++ [e]) ++ l)
      by now rewrite <- app_assoc.
    apply IH. now apply batch_step_inv.
Qed.

Lemma create_smart_batches_inv subtitles :
  let batches := create_smart_batches st subtitles in
  List.concat batches = subtitles
  /\ Forall (batch_ok st) batches
  /\ greedy st batches.
Proof.
  unfold create_smart_batches.
  assert (H0 : batches_inv st [] ([], [], 0)).
  { repeat split; auto. }
  apply (batch_fold_inv subtitles) in H0. simpl app in H0.
  destruct (fold_left (batch_step st) subtitles ([], [], 0))
    as [[batches cur] wc].
  destruct H0 as (Hc & Hw & Hb & Hcur & Hg).
  destruct cur as [|e cur]; simpl.
  - rewrite app_nil_r in Hc. repeat split; try assumption.
    destruct batches as [|b batches]; [exact I|].
    exfalso. clear - Hg. induction batches as [|b' bs IH] in b, Hg |- *.
    + simpl in Hg. exact Hg.
    + simpl in Hg. destruct b'; [exact Hg|]. destruct Hg as [_ Hg].
      eapply IH. exact Hg.
  - repeat split.
    + rewrite concat_app. simpl. now rewrite app_nil_r.
    + apply Forall_app. split; [assumption|].
      destruct Hcur as [?|?]; [discriminate|]. now constructor.
    + assumption.
Qed.
End Batches.

(** Claim C6 as stated fails on a single event of 501 words: it forms one
    batch of 501 words. *)
Lemma create_smart_batches_oversized_event :
  batch_words long_event [0%nat] = 501
  /\ create_smart_batches long_event [0%nat] = [[0%nat]].
Proof. split; vm_compute; reflexivity. Qed.

(** Claim C6, amended.  The batches of [create_smart_batches], concatenated,
    are the input list in order; a batch is closed only when the next event
    would bring it over 500 words or it already holds 50 events; so every
    batch is non-empty, holds at most 50 events, and holds at most 500 words
    unless it is a single event.  When no event has more than 500 words, a
    list of more than 500 words in total gives at least 2 batches, each of
    at most 500 words. *)
Theorem create_smart_batches_bounds (st : Store) (subtitles : list loc) :
  let batches := create_smart_batches st subtitles in
  List.concat batches = subtitles
  /\ Forall (fun b => b <> []
                     /\ Z.of_nat (List.length b) <= 50
                     /\ (batch_words st b <= 500 \/ exists e, b = [e])) batches
  /\ greedy st batches
  /\ (Forall (fun l => word_count st l <= 500) subtitles ->
      500 < batch_words st subtitles ->
      (2 <= List.length batches)%nat
      /\ Forall (fun b => batch_words st b <= 500) batches).
Proof.
  intros batches.
  destruct (create_smart_batches_inv st subtitles) as (Hc & Hb & Hg).
  fold batches in Hc, Hb, Hg.
  split; [exact Hc|]. split; [exact Hb|]. split; [exact Hg|].
  intros Hsmall Htotal.
  assert (Hall : Forall (fun b => batch_words st b <= 500) batches).
  { rewrite Forall_forall in *. intros b Hin.
    destruct (Hb b Hin) as (_ & _ & [Hw|[e ->]]); [exact Hw|].
    unfold batch_words. simpl. rewrite Z.add_0_r.
    apply Hsmall. rewrite <- Hc. apply in_concat.
    exists [e]. split; [assumption|now left]. }
  split; [|exact Hall].
  destruct batches as [|b1 [|b2 bs]]; simpl; try lia.
  - simpl in Hc. subst subtitles. unfold batch_words in Htotal.
    simpl in Htotal. lia.
  - simpl in Hc. rewrite app_nil_r in Hc. subst b1.
    inversion Hall; subst. lia.
Qed.

Lemma create_smart_batches_bounds_witness :
  (Forall (fun l => word_count two_batches_example l <= 500) [0; 1]%nat
   /\ 500 < batch_words two_batches_example [0; 1]%nat)
  /\ (2 <= List.length (create_smart_batches two_batches_example [0; 1]%nat))%nat.
Proof.
  assert (H1 : Forall (fun l => word_count two_batches_example l <= 500)
                      [0; 1]%nat).
  { repeat constructor; apply Z.leb_le; vm_compute; reflexivity. }
  assert (H2 : 500 < batch_words two_batches_example [0; 1]%nat).
  { apply Z.ltb_lt. vm_compute. reflexivity. }
  split; [now split|].
  destruct (create_smart_batches_bounds two_batches_example [0; 1]%nat)
    as (_ & _ & _ & H).
  exact (proj1 (H H1 H2)).
Defined.

(** ** The store *)

Lemma rd_app_old (st ext : Store) (l : loc) :
  (l < List.length st)%nat -> rd (st ++ ext) l = rd st l.
Proof. intros H. unfold rd. now apply app_nth1. Qed.

Lemma rd_app_new (st : Store) (e : Event) :
  rd (st ++ [e]) (List.length st) = e.
Proof. unfold rd. now rewrite nth_middle. Qed.

Lemma wr_length l e st : List.length (wr l e st) = List.length st.
Proof.
  revert l. induction st as [|x st IH]; intros [|l]; simpl; auto.
Qed.

Lemma rd_wr_same l e st : (l < List.length st)%nat -> rd (wr l e st) l = e.
Proof.
  revert l. induction st as [|x st IH]; intros [|l]; simpl; try lia; auto.
  intros H. apply IH. lia.
Qed.

Lemma rd_wr_other l l' e st : l <> l' -> rd (wr l e st) l' = rd st l'.
Proof.
  revert l l'. induction st as [|x st IH]; intros [|l] [|l'] H; simpl;
    try reflexivity; try contradiction.
  apply IH. congruence.
Qed.

Lemma rd_wr l l' e st :
  rd (wr l e st) l' = rd st l' \/ (l' = l /\ rd (wr l e st) l' = e).
Proof.
  destruct (Nat.eq_dec l l') as [<-|N].
  - destruct (Nat.lt_ge_cases l (List.length st)) as [H|H].
    + right. split; [reflexivity|now apply rd_wr_same].
    + left. unfold rd. rewrite !nth_overflow; auto. now rewrite wr_length.
  - left. now apply rd_wr_other.
Qed.

(** ** Reading a translation back *)



Lemma parse_from_spec translated_lines original_batch :
  forall i w,
    Forall (fun l => (l < List.length (heap w))%nat) original_batch ->
    let (out, w') := parse_from translated_lines i original_batch w in
    out = seq (List.length (heap w)) (List.length original_batch)
    /\ log w' = log w
    /\ List.length (heap w')
       = (List.length (heap w) + List.length original_batch)%nat
    /\ (forall l, (l < List.length (heap w))%nat ->
                  rd (heap w') l = rd (heap w) l)
    /\ (forall k, (k < List.length original_batch)%nat ->
          rd (heap w') (List.length (heap w) + k)%nat
          = set_text
              (final_text_of
                 (find_translation (expected_prefix_of (i + k)%nat) translated_lines)
                 (text (rd (heap w) (nth k original_batch 0%nat))))
              (rd (heap w) (nth k original_batch 0%nat))).
Proof.
  induction original_batch as [|sub rest IH]; intros i w Hv; simpl.
  - unfold ret. repeat split; auto; intros; simpl in *; lia.
  - inversion Hv as [|? ? Hsub Hrest]; subst.
    unfold bind, get_event, read, new_event, ret. simpl.
    set (e := rd (heap w) sub).
    set (new := set_text _ e).
    set (w1 := mkWorld (heap w ++ [new]) (log w)).
    assert (Hv1 : Forall (fun l => (l < List.length (heap w1))%nat) rest).
    { eapply Forall_impl; [|exact Hrest]. intros l Hl. unfold w1. simpl in *.
      rewrite length_app. simpl. lia. }
    specialize (IH (S i) w1 Hv1).
    destruct (parse_from translated_lines (S i) rest w1) as [ls w2].
    destruct IH as (I1 & I2 & I3 & I4 & I5).
    unfold w1 in I1, I2, I3, I4, I5.
    simpl in I1, I2, I3, I4, I5. rewrite length_app in I1, I3, I4, I5.
    simpl in I1, I3, I4, I5.
    repeat split.
    + rewrite I1. f_equal. f_equal. lia.
    + exact I2.
    + rewrite I3. lia.
    + intros l Hl. rewrite I4 by lia. now apply rd_app_old.
    + intros [|k] Hk.
      * rewrite Nat.add_0_r. rewrite I4 by lia. rewrite rd_app_new.
        rewrite Nat.add_0_r. reflexivity.
      * replace (List.length (heap w) + S k)%nat
          with (List.length (heap w) + 1 + k)%nat by lia.
        rewrite I5 by lia.
        replace (S (i + k))%nat with (i + S k)%nat by lia.
        simpl nth. rewrite rd_app_old; [reflexivity|].
        rewrite Forall_forall in Hrest. apply Hrest, nth_In. lia.
Qed.



Example parse_translation_response_example :
  let (out, w') :=
    parse_translation_response
      ("2. Comment allez-vous" ++ nl ++ "1. Bonjour le monde")
      [0; 1]%nat translate_example in
  map (fun l => rd (heap w') l) out
  = [ mkEvent 0 900 "Bonjour le monde" "speech" None None None;
      mkEvent 1000 1900 "Comment allez-vous" "speech" None None None ].
Proof. vm_compute. reflexivity. Qed.

(** ** Effects on the store *)

Section Frames.
Variable R : World -> World -> Prop.
Hypothesis R_refl : forall w, R w w.
Hypothesis R_trans : forall a b c, R a b -> R b c -> R a c.

Lemma bind_run {A B : Type} (m : M A) (k : A -> M B) w :
  bind m k w = k (fst (m w)) (snd (m w)).
Proof. unfold bind. now destruct (m w). Qed.

Lemma runs_ret {A : Type} (a : A) : runs_within R (ret a).
Proof. intros w. apply R_refl. Qed.

Lemma runs_read {A : Type} (f : Store -> A) : runs_within R (read f).
Proof. intros w. apply R_refl. Qed.

Lemma runs_bind {A B : Type} (m : M A) (k : A -> M B) :
  runs_within R m -> (forall a, runs_within R (k a)) -> runs_within R (bind m k).
Proof.
  intros Hm Hk w. rewrite bind_run. eapply R_trans; [apply Hm|apply Hk].
Qed.

Lemma runs_foldM {A B : Type} (f : B -> A -> M B) l :
  (forall b x, runs_within R (f b x)) -> forall b, runs_within R (foldM f l b).
Proof.
  intros Hf. induction l as [|x l IH]; intros b; simpl.
  - apply runs_ret.
  - apply runs_bind; auto.
Qed.
End Frames.

Lemma extends_refl w : extends w w.
Proof. exists []. now rewrite app_nil_r. Qed.

Lemma extends_trans a b c : extends a b -> extends b c -> extends a c.
Proof.
  intros [e1 H1] [e2 H2]. exists (e1 ++ e2). now rewrite H2, H1, app_assoc.
Qed.













Lemma parse_from_extends translated_lines original_batch i :
  runs_within extends (parse_from translated_lines i original_batch).
Proof.
  revert i. induction original_batch as [|sub rest IH]; intros i; simpl.
  - apply runs_ret, extends_refl.
  - apply runs_bind; [apply extends_trans|apply runs_read, extends_refl|intros e].
    apply runs_bind; [apply extends_trans| |intros l].
    + intros w. unfold new_event. simpl. now eexists.
    + apply runs_bind; [apply extends_trans|apply IH|intros ls].
      apply runs_ret, extends_refl.
Qed.




(** ** Retries and failed batches *)

Lemma requests_in_app l1 l2 :
  requests_in (l1 ++ l2) = (requests_in l1 + requests_in l2)%nat.
Proof.
  induction l1 as [|[s b|q] l1 IH]; simpl; auto.
Qed.

Section TranslatorFacts.
Variable client : nat -> string -> string -> option string.

Lemma request_loop_bound system_message batch_text max_retries attempts w :
  asks_at_most (List.length attempts) w
    (snd (request_loop client system_message batch_text max_retries attempts w)).
Proof.
  revert w. induction attempts as [|attempt rest IH]; intros w; simpl.
  - split; [reflexivity|]. exists []. now rewrite app_nil_r.
  - unfold bind, chat_completion.
    destruct (client _ _ _) as [content|].
    + simpl. split; [reflexivity|]. eexists. split; [reflexivity|]. simpl. lia.
    + destruct (Z.of_nat attempt <? max_retries - 1).
      * unfold emit. simpl.
        match goal with
        | |- asks_at_most _ _ (snd (request_loop _ _ _ _ _ ?w1)) =>
            destruct (IH w1) as (H1 & ext & H2 & H3)
        end.
        simpl in H1, H2. split; [exact H1|].
        eexists. rewrite H2, <- !app_assoc. split; [reflexivity|].
        rewrite !requests_in_app. simpl. lia.
      * simpl. split; [reflexivity|]. eexists. split; [reflexivity|].
        simpl. lia.
Qed.





End TranslatorFacts.





Example translate_texts_in_batches_example :
  let (out, w') :=
    translate_texts_in_batches echo_client [0; 1]%nat "en" "fr" "speech"
                               translate_example in
  map (fun l => text (rd (heap w') l)) out
  = ["Bonjour le monde"; "Comment allez-vous"]
  /\ requests_in (log w') = 1%nat.
Proof. vm_compute. split; reflexivity. Qed.

(** ** What each stage does to the events it is given *)

Lemma request_loop_extends client system_message batch_text max_retries attempts :
  runs_within extends
    (request_loop client system_message batch_text max_retries attempts).
Proof.
  intros w.
  destruct (request_loop_bound client system_message batch_text max_retries
                               attempts w) as [H _].
  exists []. now rewrite app_nil_r.
Qed.

Lemma emit_extends x : runs_within extends (emit x).
Proof. intros w. exists []. simpl. now rewrite app_nil_r. Qed.

Lemma translate_batch_extends client source_lang target_lang subtitle_type
    n_batches translated_subtitles ib :
  runs_within extends
    (translate_batch client source_lang target_lang subtitle_type n_batches
                     translated_subtitles ib).
Proof.
  destruct ib as [batch_idx batch]. unfold translate_batch.
  apply runs_bind; [apply extends_trans|apply runs_read, extends_refl|].
  intros btext.
  apply runs_bind; [apply extends_trans|apply request_loop_extends|].
  intros response.
  apply runs_bind; [apply extends_trans| |intros out].
  - destruct response as [r|]; [destruct (Py.truthy r)|];
      try (apply runs_ret, extends_refl).
    apply parse_from_extends.
  - apply runs_bind; [apply extends_trans| |intros u; apply runs_ret, extends_refl].
    destruct (Z.of_nat batch_idx <? Z.of_nat n_batches - 1);
      [apply emit_extends|apply runs_ret, extends_refl].
Qed.

Lemma translate_texts_in_batches_extends client subtitles source_lang
    target_lang subtitle_type :
  runs_within extends
    (translate_texts_in_batches client subtitles source_lang target_lang
                                subtitle_type).
Proof.
  unfold translate_texts_in_batches.
  destruct subtitles as [|s subtitles]; [apply runs_ret, extends_refl|].
  apply runs_bind; [apply extends_trans|apply runs_read, extends_refl|].
  intros batches.
  apply runs_foldM; [apply extends_refl|apply extends_trans|].
  intros acc ib. apply translate_batch_extends.
Qed.




(** ** Export and reading back *)

Lemma all_chars_app P a b :
  all_chars P (a ++ b) = all_chars P a && all_chars P b.
Proof.
  induction a as [|c a IH]; simpl; [reflexivity|].
  now rewrite IH, andb_assoc.
Qed.

Lemma all_chars_impl (P Q : ascii -> bool) s :
  (forall c, P c = true -> Q c = true) ->
  all_chars P s = true -> all_chars Q s = true.
Proof.
  intros H. induction s as [|c s IH]; simpl; [reflexivity|].
  rewrite !andb_true_iff. intros [H1 H2]. auto.
Qed.

Lemma string_of_uint_digits d :
  all_chars is_digit (NilEmpty.string_of_uint d) = true.
Proof. induction d; simpl; auto. Qed.



Lemma str_of_nat_digits n : all_chars is_digit (Py.str_of_nat n) = true.
Proof. apply string_of_uint_digits. Qed.


Lemma digits_without c s :
  is_digit c = false ->
  all_chars is_digit s = true ->
  all_chars (fun d => negb (Ascii.eqb d c)) s = true.
Proof.
  intros Hc. apply all_chars_impl. intros d Hd. apply negb_true_iff.
  destruct (Ascii.eqb_spec d c) as [->|]; [congruence|reflexivity].
Qed.

Lemma length_append a b :
  String.length (a ++ b) = (String.length a + String.length b)%nat.
Proof. induction a as [|c a IH]; simpl; auto. Qed.








Lemma lacks_app c a b : lacks c a -> lacks c b -> lacks c (a ++ b).
Proof. unfold lacks. intros Ha Hb. now rewrite all_chars_app, Ha, Hb. Qed.








Lemma lacks_cons c d s :
  Ascii.eqb d c = false -> lacks c s -> lacks c (String d s).
Proof.
  unfold lacks. intros Hd Hs. cbn [all_chars]. now rewrite Hd, Hs.
Qed.






Lemma append_assoc (a b c : string) : ((a ++ b) ++ c = a ++ b ++ c)%string.
Proof. induction a as [|x a IH]; simpl; congruence. Qed.

Lemma prefix_append p x : String.prefix p (p ++ x) = true.
Proof.
  induction p as [|c p IH]; simpl.
  - now destruct x.
  - destruct (ascii_dec c c); [exact IH|contradiction].
Qed.

Lemma drop_append p x : Py.drop (String.length p) (p ++ x) = x.
Proof. induction p as [|c p IH]; simpl; auto. Qed.







(** ** Line formatting *)

Lemma split_from_word cur t :
  no_space t -> Py.truthy (cur ++ t) = true ->
  Py.split_from cur t = [(cur ++ t)%string].
Proof.
  revert cur. induction t as [|c t IH]; intros cur Hn Ht; simpl.
  - assert (E : (cur ++ "")%string = cur)
      by (clear; induction cur; simpl; congruence).
    rewrite E in *. now rewrite Ht.
  - unfold no_space in Hn. simpl in Hn. apply andb_true_iff in Hn.
    destruct Hn as [Hc Hn]. apply negb_true_iff in Hc. rewrite Hc.
    rewrite IH; [|exact Hn|].
    + now rewrite append_assoc.
    + rewrite append_assoc. simpl. exact Ht.
Qed.

Lemma no_space_app a b : no_space a -> no_space b -> no_space (a ++ b).
Proof. unfold no_space. intros Ha Hb. now rewrite all_chars_app, Ha, Hb. Qed.

Lemma split_from_single cur s :
  no_space cur ->
  Forall (fun word => Py.split word = [word]) (Py.split_from cur s).
Proof.
  revert cur. induction s as [|c s IH]; intros cur Hcur; simpl.
  - destruct (Py.truthy cur) eqn:T; constructor; [|constructor].
    unfold Py.split. rewrite (split_from_word "" cur); auto.
  - destruct (Py.isspace c) eqn:Hc.
    + destruct (Py.truthy cur) eqn:T.
      * constructor; [|apply IH; reflexivity].
        unfold Py.split. rewrite (split_from_word "" cur); auto.
      * apply IH. reflexivity.
    + apply IH. apply no_space_app; [exact Hcur|].
      unfold no_space. simpl. now rewrite Hc.
Qed.

Lemma split_single s : Forall (fun word => Py.split word = [word]) (Py.split s).
Proof. apply split_from_single. reflexivity. Qed.

Lemma len_append a b : Py.len (a ++ b) = Py.len a + Py.len b.
Proof. unfold Py.len. rewrite length_append. lia. Qed.

Lemma truthy_nonempty s : Py.truthy s = false -> s = "".
Proof. destruct s; [reflexivity|discriminate]. Qed.

Lemma chunks_within_refl max_chars w : chunks_within max_chars w w.
Proof. repeat split; auto. intros l Hl. lia. Qed.

Lemma chunks_within_trans max_chars a b c :
  chunks_within max_chars a b -> chunks_within max_chars b c ->
  chunks_within max_chars a c.
Proof.
  intros (L1 & O1 & N1) (L2 & O2 & N2). repeat split; [lia| | |].
  - destruct (O1 l H) as [E _]. destruct (O2 l ltac:(lia)) as [E' _]. congruence.
  - destruct (O1 l H) as [_ E]. destruct (O2 l ltac:(lia)) as [_ E']. congruence.
  - intros l Hl.
    destruct (Nat.lt_ge_cases l (List.length (heap b))) as [Hb|Hb].
    + destruct (O2 l Hb) as [E _]. rewrite E. apply N1. lia.
    + apply N2. lia.
Qed.

Lemma event_ok_mono max_chars w w' l :
  chunks_within max_chars w w' ->
  event_ok max_chars (rd (heap w) l) -> event_ok max_chars (rd (heap w') l).
Proof.
  intros (L & O & N) H.
  destruct (Nat.lt_ge_cases l (List.length (heap w))) as [Hl|Hl].
  - destruct (O l Hl) as [E1 E2]. unfold event_ok in *. now rewrite E1, E2.
  - destruct (Nat.lt_ge_cases l (List.length (heap w'))) as [Hl'|Hl'].
    + right. apply N. lia.
    + unfold rd in *. rewrite nth_overflow in * by lia. exact H.
Qed.

Lemma new_chunk_within max_chars s e t w :
  chunk_ok max_chars t ->
  chunks_within max_chars w (snd (new_event (speech_chunk s e t) w)).
Proof.
  intros H. unfold new_event, chunks_within. simpl. rewrite length_app. simpl.
  repeat split; try lia.
  - now rewrite rd_app_old.
  - now rewrite rd_app_old.
  - intros l Hl. assert (l = List.length (heap w)) as -> by lia.
    now rewrite rd_app_new.
Qed.

Lemma put_start_within max_chars sub v w :
  chunks_within max_chars w
    (snd (put_event sub (set_start v (rd (heap w) sub)) w)).
Proof.
  unfold put_event, chunks_within. simpl. rewrite wr_length.
  repeat split; try lia;
    destruct (rd_wr sub l (set_start v (rd (heap w) sub)) (heap w))
      as [E|[-> E]]; rewrite E; reflexivity.
Qed.

Lemma word_step_chunks sub text_ max_chars s word w :
  word_state_ok max_chars s -> Py.split word = [word] ->
  let (s', w') := word_step sub text_ max_chars s word w in
  word_state_ok max_chars s' /\ chunks_within max_chars w w'
  /\ (forall l, In l (fst (fst s')) ->
        In l (fst (fst s))
        \/ (List.length (heap w) <= l < List.length (heap w'))%nat).
Proof.
  destruct s as [[formatted current_text] current_chars].
  intros [Hc Hok] Hword. unfold word_step. subst current_chars.
  destruct (Z.leb_spec (Py.len current_text + Py.len word + 1) max_chars)
    as [Hfit|Hover].
  - assert (E : Py.len (current_text ++ " " ++ word)
               = Py.len current_text + 1 + Py.len word).
    { rewrite !len_append. change (Py.len " ") with 1. lia. }
    destruct (Py.truthy current_text) eqn:T; unfold ret.
    + split; [split|split; [apply chunks_within_refl|intros l Hl; now left]].
      * now rewrite E.
      * right. left. rewrite E. lia.
    + apply truthy_nonempty in T. subst current_text.
      change ("" ++ word)%string with word. change (Py.len "") with 0 in *.
      split; [split|split; [apply chunks_within_refl|intros l Hl; now left]].
      * lia.
      * right. left. lia.
  - destruct (Py.truthy current_text) eqn:T.
    + unfold bind, get_event, read. cbn [fst snd].
      set (e := rd (heap w) sub).
      set (pd := partial_duration_of _ _ _).
      assert (Hchunk : chunk_ok max_chars current_text).
      { destruct Hok as [->|H]; [discriminate|exact H]. }
      pose proof (new_chunk_within max_chars (start e) (start e + pd)
                    current_text w Hchunk) as H1.
      destruct (new_event _ w) as [l w1] eqn:N. cbn [snd] in H1.
      pose proof (put_start_within max_chars sub
                    (start (rd (heap w1) sub) + pd) w1) as H2.
      destruct (put_event sub _ w1) as [u w2]. cbn [snd] in H2.
      unfold ret.
      assert (Hl : l = List.length (heap w)).
      { unfold new_event in N. now inversion N. }
      split; [split; [reflexivity|]|split].
      * right. now right.
      * eapply chunks_within_trans; eassumption.
      * cbn [fst]. intros l' Hin. apply in_app_or in Hin.
        destruct Hin as [Hin|[<-|[]]]; [now left|right].
        destruct H1 as (L1 & _ & _). destruct H2 as (L2 & _ & _).
        unfold new_event in N. inversion N; subst. simpl in *.
        rewrite length_app in *. simpl in *. lia.
    + unfold ret.
      split; [split; [reflexivity|exact Hok]
             |split; [apply chunks_within_refl|intros l Hl; now left]].
Qed.

Lemma word_fold_chunks sub text_ max_chars words :
  forall s w,
    word_state_ok max_chars s ->
    Forall (fun word => Py.split word = [word]) words ->
    let (s', w') := foldM (word_step sub text_ max_chars) words s w in
    word_state_ok max_chars s' /\ chunks_within max_chars w w'
    /\ (forall l, In l (fst (fst s')) ->
          In l (fst (fst s))
          \/ (List.length (heap w) <= l < List.length (heap w'))%nat).
Proof.
  induction words as [|word words IH]; intros s w Hs Hw.
  - simpl. unfold ret.
    split; [exact Hs|split; [apply chunks_within_refl|intros l Hl; now left]].
  - inversion Hw as [|? ? Hword Hwords]; subst.
    cbn [foldM]. unfold bind.
    pose proof (word_step_chunks sub text_ max_chars s word w Hs Hword) as H1.
    destruct (word_step sub text_ max_chars s word w) as [s1 w1].
    destruct H1 as (S1 & C1 & I1).
    specialize (IH s1 w1 S1 Hwords).
    destruct (foldM _ words s1 w1) as [s2 w2].
    destruct IH as (S2 & C2 & I2).
    split; [exact S2|split; [eapply chunks_within_trans; eassumption|]].
    intros l Hl. destruct (I2 l Hl) as [H|H].
    + destruct (I1 l H) as [H'|H']; [now left|right].
      destruct C2 as (L2 & _). lia.
    + right. destruct C1 as (L1 & _). lia.
Qed.

Lemma formatted_ok_mono max_chars w w' formatted :
  chunks_within max_chars w w' ->
  formatted_ok max_chars w formatted -> formatted_ok max_chars w' formatted.
Proof.
  intros C. apply Forall_impl. intros l. now apply event_ok_mono.
Qed.

Lemma format_one_chunks mc lps formatted sub w :
  formatted_ok (mc * lps) w formatted ->
  let (formatted', w') := format_one mc lps formatted sub w in
  formatted_ok (mc * lps) w' formatted' /\ chunks_within (mc * lps) w w'.
Proof.
  intros Hf. unfold format_one, bind at 1, get_event, read. cbn [fst snd].
  set (e := rd (heap w) sub).
  destruct (String.eqb_spec (type e) "sound") as [Hs|Hs].
  - unfold ret. split; [|apply chunks_within_refl].
    apply Forall_app. split; [exact Hf|]. constructor; [|constructor]. now left.
  - destruct (Z.leb_spec (Py.len (text e)) (mc * lps)) as [Hfit|Hover].
    + unfold ret. split; [|apply chunks_within_refl].
      apply Forall_app. split; [exact Hf|]. constructor; [|constructor].
      right. now left.
    + unfold bind at 1.
      pose proof (word_fold_chunks sub (text e) (mc * lps) (Py.split (text e))
                    (formatted, "", 0) w) as H.
      destruct (foldM _ (Py.split (text e)) (formatted, "", 0) w)
        as [[[formatted' current_text] cc] w1].
      destruct H as (S1 & C1 & I1);
        [split; [reflexivity|now left]|apply split_single|].
      assert (F1 : formatted_ok (mc * lps) w1 formatted').
      { apply Forall_forall. intros l Hl. destruct (I1 l Hl) as [H|H].
        - eapply event_ok_mono; [exact C1|].
          unfold formatted_ok in Hf. rewrite Forall_forall in Hf. now apply Hf.
        - right. destruct C1 as (_ & _ & N). now apply N. }
      destruct (Py.truthy current_text) eqn:T.
      * unfold bind, get_event, read. cbn [fst snd].
        destruct S1 as [_ [->|Hchunk]]; [discriminate|].
        pose proof (new_chunk_within (mc * lps)
                      (start (rd (heap w1) sub)) (end_ (rd (heap w1) sub))
                      current_text w1 Hchunk) as H2.
        destruct (new_event _ w1) as [l w2] eqn:N. cbn [snd] in H2.
        unfold ret. split; [|eapply chunks_within_trans; eassumption].
        apply Forall_app. split; [now apply (formatted_ok_mono _ w1)|].
        constructor; [|constructor]. right.
        unfold new_event in N. inversion N; subst. simpl.
        now rewrite rd_app_new.
      * unfold ret. now split.
Qed.

Lemma format_fold_chunks mc lps subtitles :
  forall formatted w,
    formatted_ok (mc * lps) w formatted ->
    let (formatted', w') := foldM (format_one mc lps) subtitles formatted w in
    formatted_ok (mc * lps) w' formatted' /\ chunks_within (mc * lps) w w'.
Proof.
  induction subtitles as [|sub subtitles IH]; intros formatted w Hf.
  - simpl. unfold ret. split; [exact Hf|apply chunks_within_refl].
  - cbn [foldM]. unfold bind.
    pose proof (format_one_chunks mc lps formatted sub w Hf) as H1.
    destruct (format_one mc lps formatted sub w) as [f1 w1].
    destruct H1 as [F1 C1]. specialize (IH f1 w1 F1).
    destruct (foldM _ subtitles f1 w1) as [f2 w2]. destruct IH as [F2 C2].
    split; [exact F2|eapply chunks_within_trans; eassumption].
Qed.

(** The bound of claim C1 holds: every event [format_subtitles] returns is
    a sound event, or has a text within
    [max_chars_per_line * lines_per_subtitle], or has a text that is a
    single word. *)
Theorem format_subtitles_chunks_bounded
    (subtitles : list loc) (max_chars_per_line lines_per_subtitle : Z) (w : World) :
  let (out, w') :=
    format_subtitles subtitles max_chars_per_line lines_per_subtitle w in
  forall l, In l out ->
    let sub := rd (heap w') l in
    type sub = "sound"
    \/ Py.len (text sub) <= max_chars_per_line * lines_per_subtitle
    \/ Py.split (text sub) = [text sub].
Proof.
  unfold format_subtitles, bind.
  pose proof (format_fold_chunks max_chars_per_line lines_per_subtitle subtitles
                [] w (Forall_nil _)) as H.
  destruct (foldM _ subtitles [] w) as [formatted w1]. destruct H as [F _].
  unfold read. intros l Hl. apply stable_sort_In in Hl.
  unfold formatted_ok in F. rewrite Forall_forall in F.
  exact (F l Hl).
Qed.

Lemma format_subtitles_chunks_bounded_witness :
  In 2%nat (fst (format_subtitles [0%nat] 5 1 format_example))
  /\ (let sub :=
        rd (heap (snd (format_subtitles [0%nat] 5 1 format_example))) 2%nat in
      type sub = "sound"
      \/ Py.len (text sub) <= 5 * 1
      \/ Py.split (text sub) = [text sub]).
Proof.
  assert (H : In 2%nat (fst (format_subtitles [0%nat] 5 1 format_example))).
  { vm_compute. tauto. }
  split; [exact H|].
  pose proof (format_subtitles_chunks_bounded [0%nat] 5 1 format_example) as P.
  destruct (format_subtitles [0%nat] 5 1 format_example) as [out w'].
  exact (P 2%nat H).
Defined.

(** Claim C1 does not hold of the code: a word that does not fit an empty
    block is dropped, not passed through.  With a limit of 5 characters the
    first word of [abcdefgh xy] (longer than the limit) and the first word
    of [abcde fg] (exactly as long as the limit) are missing from the
    output. *)
Theorem format_subtitles_drops_leading_word :
  let (out, w') := format_subtitles [0%nat; 1%nat] 5 1 drop_example in
  map (fun l => rd (heap w') l) out
  = [ mkEvent 0 1000 "xy" "speech" None None None;
      mkEvent 2000 3000 "fg" "speech" None None None ].
Proof. vm_compute. reflexivity. Qed.

(** ** Labels of the detectors *)

Lemma isspace_lower_char c : Py.isspace (Py.lower_char c) = Py.isspace c.
Proof.
  destruct c as [[] [] [] [] [] [] [] []]; reflexivity.
Qed.

Lemma lstrip_lower s : Py.lstrip (Py.lower s) = Py.lower (Py.lstrip s).
Proof.
  induction s as [|c s IH]; simpl; [reflexivity|].
  rewrite isspace_lower_char. destruct (Py.isspace c); auto.
Qed.

Lemma rstrip_lower s : Py.rstrip (Py.lower s) = Py.lower (Py.rstrip s).
Proof.
  induction s as [|c s IH]; simpl; [reflexivity|].
  rewrite IH, isspace_lower_char.
  destruct (Py.rstrip s); simpl; [destruct (Py.isspace c)|]; reflexivity.
Qed.

Lemma strip_lower s : Py.strip (Py.lower s) = Py.lower (Py.strip s).
Proof. unfold Py.strip. now rewrite lstrip_lower, rstrip_lower. Qed.

Lemma dict_get_In {V : Type} k (d : list (string * V)) v :
  Py.dict_get k d = Some v -> In (k, v) d.
Proof.
  induction d as [|[k' v'] d IH]; simpl; [discriminate|].
  destruct (String.eqb k k') eqn:E.
  - apply String.eqb_eq in E. intros [= ->]. subst. now left.
  - intros H. right. auto.
Qed.

Lemma normalize_sound_label_blank raw_label :
  normalize_sound_label raw_label = None <-> Py.strip raw_label = "".
Proof.
  unfold normalize_sound_label.
  destruct (String.eqb (Py.strip raw_label) "") eqn:E.
  - rewrite orb_true_r. apply String.eqb_eq in E. tauto.
  - apply String.eqb_neq in E.
    destruct raw_label as [|c s]; [exfalso; apply E; reflexivity|].
    simpl negb. simpl orb.
    destruct (first_sound_type _ _); split; intros H; congruence.
Qed.

Lemma normalize_sound_label_category raw_label sound_type :
  first_sound_type SOUND_LABEL_PATTERNS (Py.strip (Py.lower raw_label))
  = Some sound_type ->
  normalize_sound_label raw_label
  = Some (format_sound_label sound_type raw_label).
Proof.
  intros H.
  destruct (normalize_sound_label raw_label) as [label|] eqn:N.
  - unfold normalize_sound_label in N.
    destruct (negb (Py.truthy raw_label) || String.eqb (Py.strip raw_label) "");
      [discriminate|].
    rewrite H in N. now symmetry.
  - apply normalize_sound_label_blank in N.
    rewrite strip_lower, N in H. vm_compute in H. discriminate.
Qed.

(** The label written for a category of the table is read back by
    [extract_sound_key] as that category, with three exceptions: the label
    of phone is read as bell, the label of fire as gunshot, and the label of
    impact as no category at all. *)
Theorem format_sound_label_read_back sound_type original_label :
  In sound_type (map fst SOUND_LABEL_PATTERNS) ->
  extract_sound_key (format_sound_label sound_type original_label)
  = read_back sound_type.
Proof.
  intros H. simpl in H.
  repeat (destruct H as [<-|H]; [vm_compute; reflexivity|]).
  contradiction.
Qed.

Lemma format_sound_label_read_back_witness :
  In "phone" (map fst SOUND_LABEL_PATTERNS)
  /\ extract_sound_key (format_sound_label "phone" "Telephone bell ringing")
     = Some "bell".
Proof.
  assert (H : In "phone" (map fst SOUND_LABEL_PATTERNS)).
  { simpl. do 19 right. left. reflexivity. }
  split; [exact H|].
  exact (format_sound_label_read_back "phone" "Telephone bell ringing" H).
Defined.

(** [normalize_sound_label] returns nothing exactly for a blank label.  A
    label in which a category is found becomes that category's label, and
    the genre filter then judges it by the category read back from that
    label: for a genre of the table it is included exactly when that
    category is in the allowed list and not in the blocked list. *)
Theorem normalize_sound_label_filtered raw_label :
  (normalize_sound_label raw_label = None <-> Py.strip raw_label = "")
  /\ forall sound_type,
       first_sound_type SOUND_LABEL_PATTERNS (Py.strip (Py.lower raw_label))
       = Some sound_type ->
       normalize_sound_label raw_label
       = Some (format_sound_label sound_type raw_label)
       /\ forall genre filters,
            Py.dict_get genre GENRE_FILTERS = Some filters ->
            should_include_sound (format_sound_label sound_type raw_label) genre
            = passes filters (read_back sound_type).
Proof.
  split; [apply normalize_sound_label_blank|].
  intros sound_type H. split; [now apply normalize_sound_label_category|].
  intros genre filters G.
  apply first_sound_type_key in H.
  apply dict_get_In in G. simpl in G.
  repeat (destruct G as [G|G];
          [injection G as <- <-; simpl in H;
           repeat (destruct H as [<-|H]; [vm_compute; reflexivity|]);
           contradiction|]).
  contradiction.
Qed.

(** [classify_onset_type] returns nothing exactly when the energy is not
    above 0.1.  Every label it returns except its fallback is the label of
    the category found in it, and is left as it is by
    [normalize_sound_label]; in the fallback [[Impact sound]] no category
    is found, so the genre filter excludes it for every genre of the table. *)
Theorem classify_onset_type_labels (F : Type) (gt lt : F -> Q -> bool)
    (energy centroid rolloff zcr tempo : F) :
  match classify_onset_type F gt lt energy centroid rolloff zcr tempo with
  | None => gt energy (1 # 10) = false
  | Some label =>
      gt energy (1 # 10) = true
      /\ ((label = "[Impact sound]"
           /\ extract_sound_key label = None
           /\ forall genre filters,
                Py.dict_get genre GENRE_FILTERS = Some filters ->
                should_include_sound label genre = false)
          \/ (exists sound_type,
                extract_sound_key label = Some sound_type
                /\ format_sound_label sound_type label = label
                /\ normalize_sound_label label = Some label))
  end.
Proof.
  unfold classify_onset_type.
  destruct (gt energy (1 # 10)); [|reflexivity].
  repeat match goal with
         | |- context [if ?b then _ else _] => destruct b
         end;
    (split; [reflexivity|]);
    try (right; eexists; split; [vm_compute; reflexivity|];
         split; vm_compute; reflexivity).
  left. split; [reflexivity|]. split; [vm_compute; reflexivity|].
  intros genre filters G. unfold should_include_sound. rewrite G.
  reflexivity.
Qed.

Lemma index_of_In x l i : Py.index_of x l = Some i -> In x l.
Proof.
  revert i. induction l as [|y l IH]; simpl; intros i; [discriminate|].
  destruct (String.eqb x y) eqn:E.
  - apply String.eqb_eq in E. now left.
  - destruct (Py.index_of x l); [|discriminate]. right. eauto.
Qed.

(** A sound that has a rank in the genre's priority list (priority 10 or
    more) is never filtered out: every priority list of the table is within
    the genre's allowed list and apart from its blocked list. *)
Theorem ranked_sound_is_included sound_label genre :
  10 <= get_sound_priority sound_label genre ->
  should_include_sound sound_label genre = true.
Proof.
  unfold get_sound_priority, should_include_sound.
  destruct (Py.dict_get genre GENRE_FILTERS) as [filters|] eqn:G; [|reflexivity].
  destruct (extract_sound_key sound_label) as [k|]; simpl; [|lia].
  destruct (Py.truthy k); simpl; [|lia].
  destruct (Py.index_of k (priority_sounds filters)) as [i|] eqn:I; [|lia].
  intros _. apply index_of_In in I.
  apply dict_get_In in G. simpl in G.
  repeat (destruct G as [G|G];
          [injection G as <- <-; simpl in I;
           repeat (destruct I as [<-|I]; [reflexivity|]);
           contradiction|]).
  contradiction.
Qed.

Lemma ranked_sound_is_included_witness :
  10 <= get_sound_priority "[Scream]" "horror"
  /\ should_include_sound "[Scream]" "horror" = true.
Proof.
  assert (H : 10 <= get_sound_priority "[Scream]" "horror").
  { vm_compute. discriminate. }
  split; [exact H|].
  exact (ranked_sound_is_included "[Scream]" "horror" H).
Defined.

(** ** Phrases of the transcript *)

Lemma concat_cons2 sep (x y : string) l :
  String.concat sep (x :: y :: l) = (x ++ sep ++ String.concat sep (y :: l))%string.
Proof. reflexivity. Qed.

Lemma string_app_assoc (a b c : string) : ((a ++ b) ++ c = a ++ b ++ c)%string.
Proof. induction a as [|x a IH]; simpl; [reflexivity|now rewrite IH]. Qed.

Lemma join_app sep l1 l2 :
  l1 <> [] -> l2 <> [] ->
  Py.join sep (l1 ++ l2) = (Py.join sep l1 ++ sep ++ Py.join sep l2)%string.
Proof.
  unfold Py.join. intros H1 H2.
  induction l1 as [|x l1 IH]; [contradiction|].
  destruct l1 as [|y l1].
  - destruct l2 as [|z l2]; [contradiction|]. reflexivity.
  - change ((x :: y :: l1) ++ l2) with (x :: y :: (l1 ++ l2)).
    rewrite !concat_cons2.
    change (y :: l1 ++ l2) with ((y :: l1) ++ l2).
    rewrite IH by discriminate. now rewrite !string_app_assoc.
Qed.

Lemma join_concat sep (runs : list (list string)) :
  Forall (fun r => r <> []) runs ->
  Py.join sep (map (Py.join sep) runs) = Py.join sep (List.concat runs).
Proof.
  induction 1 as [|r runs Hr HF IH]; [reflexivity|].
  destruct runs as [|r' runs].
  - simpl. now rewrite app_nil_r.
  - change (List.concat (r :: r' :: runs))
      with (r ++ List.concat (r' :: runs)).
    assert (N : List.concat (r' :: runs) <> []).
    { inversion HF as [|? ? Hr' ?]; subst. simpl.
      destruct r'; [contradiction|discriminate]. }
    rewrite join_app by assumption. rewrite <- IH. reflexivity.
Qed.

Lemma last_cons_default {A : Type} (a d : A) l : last (a :: l) d = last l a.
Proof.
  revert a d. induction l as [|b l IH]; intros a d; [reflexivity|].
  change (last (a :: b :: l) d) with (last (b :: l) d).
  now rewrite !IH.
Qed.

Lemma close_words_snoc max_duration_ms run_start words word :
  forall prev,
  close_words max_duration_ms run_start (end_ prev) words ->
  start word - end_ (last words prev) < 500 ->
  end_ word - run_start < max_duration_ms ->
  close_words max_duration_ms run_start (end_ prev) (words ++ [word]).
Proof.
  induction words as [|w words IH]; intros prev; simpl.
  - intros _ H1 H2. auto.
  - intros (H1 & H2 & H3) H4 H5. repeat split; auto.
    apply IH; auto.
    change (match words with [] => w | _ :: _ => last words prev end)
      with (last (w :: words) prev) in H4.
    now rewrite last_cons_default in H4.
Qed.

Lemma run_ok_snoc max_duration_ms run word :
  run_ok max_duration_ms run ->
  joins_phrase max_duration_ms (phrase_of_run run) word = true ->
  run_ok max_duration_ms (run ++ [word]).
Proof.
  destruct run as [|w words]; [contradiction|].
  unfold joins_phrase. rewrite andb_true_iff, !Z.ltb_lt.
  cbn [phrase_of_run start end_ hd]. intros H [H1 H2].
  rewrite last_cons_default in H1.
  cbn [app run_ok]. now apply close_words_snoc.
Qed.

Lemma phrase_of_run_one word : phrase_of_run [word] = phrase_of word.
Proof. reflexivity. Qed.

Lemma phrase_of_run_snoc run word :
  run <> [] ->
  phrase_of_run (run ++ [word])
  = set_end (end_ word)
            (set_text (text (phrase_of_run run) ++ " " ++ text word)%string
                      (phrase_of_run run)).
Proof.
  intros N. unfold phrase_of_run, set_end, set_text.
  cbn [start end_ text type confidence source priority].
  rewrite last_last, map_app, join_app;
    [|destruct run; [contradiction|discriminate]|discriminate].
  destruct run as [|w run]; [contradiction|]. reflexivity.
Qed.

(** The loop, read from the front of the list of words. *)
Lemma phrase_fold_runs max_duration_ms words : forall merged run,
  run_ok max_duration_ms run ->
  exists tail runs,
    run ++ words = List.concat ((run ++ tail) :: runs)
    /\ Forall (fun r => r <> []) runs
    /\ (let '(merged', current_phrase) :=
          fold_left (phrase_step max_duration_ms) words
                    (merged, phrase_of_run run) in
        merged' ++ [current_phrase]
        = merged ++ map phrase_of_run ((run ++ tail) :: runs))
    /\ Forall (run_ok max_duration_ms) ((run ++ tail) :: runs)
    /\ greedy_runs max_duration_ms ((run ++ tail) :: runs).
Proof.
  induction words as [|word words IH]; intros merged run Hrun.
  - exists [], []. rewrite !app_nil_r. cbn. rewrite ?app_nil_r.
    repeat split; auto.
  - cbn [fold_left]. unfold phrase_step at 2.
    assert (N : run <> []) by (destruct run; [contradiction|discriminate]).
    destruct (joins_phrase max_duration_ms (phrase_of_run run) word) eqn:J.
    + rewrite <- phrase_of_run_snoc by exact N.
      destruct (IH merged (run ++ [word]) (run_ok_snoc _ _ _ Hrun J))
        as (tail & runs & H1 & H2 & H3 & H4 & H5).
      exists (word :: tail), runs.
      repeat rewrite <- app_assoc in H1.
      rewrite <- app_assoc in H3, H4, H5. cbn [app] in H1, H3, H4, H5.
      repeat split; auto.
    + change (phrase_of word) with (phrase_of_run [word]).
      destruct (IH (merged ++ [phrase_of_run run]) [word])
        as (tail & runs & H1 & H2 & H3 & H4 & H5).
      { exact I. }
      exists [], (([word] ++ tail) :: runs). rewrite app_nil_r.
      split; [|split; [|split; [|split]]].
      * cbn [List.concat] in *. rewrite <- H1. reflexivity.
      * constructor; [discriminate|exact H2].
      * destruct (fold_left _ _ _) as [merged' current_phrase].
        rewrite H3, <- app_assoc. reflexivity.
      * constructor; assumption.
      * cbn [greedy_runs app]. split; [exact J|exact H5].
Qed.

Lemma merge_consecutive_words_runs_inv word_subtitles max_duration_ms :
  exists runs,
    List.concat runs = word_subtitles
    /\ Forall (fun r => r <> []) runs
    /\ merge_consecutive_words word_subtitles max_duration_ms
       = map phrase_of_run runs
    /\ Forall (run_ok max_duration_ms) runs
    /\ greedy_runs max_duration_ms runs.
Proof.
  destruct word_subtitles as [|first rest].
  - exists []. repeat split; constructor.
  - destruct (phrase_fold_runs max_duration_ms rest [] [first] I)
      as (tail & runs & H1 & H2 & H3 & H4 & H5).
    exists (([first] ++ tail) :: runs).
    split; [now rewrite <- H1|].
    split; [constructor; [discriminate|exact H2]|].
    split; [|split; assumption].
    unfold merge_consecutive_words.
    change (phrase_of first) with (phrase_of_run [first]).
    destruct (fold_left _ _ _) as [merged current_phrase]. exact H3.
Qed.

Lemma length_concat_nonempty {A : Type} (runs : list (list A)) :
  Forall (fun r => r <> []) runs ->
  (List.length runs <= List.length (List.concat runs))%nat.
Proof.
  induction 1 as [|r runs Hr HF IH]; simpl; [lia|].
  rewrite length_app. destruct r; [contradiction|]. simpl. lia.
Qed.

Lemma close_words_last max_duration_ms run_start prev_end words d :
  close_words max_duration_ms run_start prev_end words ->
  words <> [] ->
  end_ (last words d) - run_start < max_duration_ms.
Proof.
  revert prev_end d. induction words as [|w words IH]; intros prev_end d;
    [contradiction|].
  intros (H1 & H2 & H3) _. rewrite last_cons_default.
  destruct words as [|w' words]; [exact H2|].
  apply (IH (end_ w) w H3). discriminate.
Qed.

(** The phrases of [merge_consecutive_words] are made of the words in
    order, without loss: the list of words is cut into non-empty runs of
    consecutive words, and each phrase is a speech event from the start of
    the first word of its run to the end of the last, with the texts of the
    run joined by single spaces.  So the texts of the phrases, joined, are
    the texts of the words, joined, and there are no more phrases than
    words. *)
Theorem merge_consecutive_words_runs (word_subtitles : list Event)
    (max_duration_ms : Z) :
  let phrases := merge_consecutive_words word_subtitles max_duration_ms in
  (exists runs,
     List.concat runs = word_subtitles
     /\ Forall (fun r => r <> []) runs
     /\ phrases = map phrase_of_run runs)
  /\ Py.join " " (map text phrases) = Py.join " " (map text word_subtitles)
  /\ (List.length phrases <= List.length word_subtitles)%nat
  /\ (phrases = [] <-> word_subtitles = []).
Proof.
  intros phrases. subst phrases.
  destruct (merge_consecutive_words_runs_inv word_subtitles max_duration_ms)
    as (runs & H1 & H2 & H3 & _ & _).
  split; [exists runs; auto|]. rewrite H3, <- H1.
  split; [|split].
  - rewrite concat_map, <- join_concat.
    + rewrite !map_map. reflexivity.
    + clear - H2. induction H2 as [|r runs Hr HF IH]; constructor; auto.
      destruct r; [contradiction|discriminate].
  - rewrite length_map. now apply length_concat_nonempty.
  - destruct runs as [|r runs]; [simpl; tauto|].
    inversion H2 as [|? ? Hr ?]; subst.
    split; [discriminate|]. simpl. destruct r; [contradiction|discriminate].
Qed.

(** A phrase that is made of more than one word lasts less than
    [max_duration_ms]; inside a phrase every word starts less than 500 ms
    after the end of the word before it; and a phrase is closed only by a
    word that starts 500 ms or more after its end or would bring it to
    [max_duration_ms] or more. *)
Theorem merge_consecutive_words_bounds (word_subtitles : list Event)
    (max_duration_ms : Z) :
  let phrases := merge_consecutive_words word_subtitles max_duration_ms in
  (exists runs,
     List.concat runs = word_subtitles
     /\ phrases = map phrase_of_run runs
     /\ Forall (run_ok max_duration_ms) runs
     /\ greedy_runs max_duration_ms runs)
  /\ Forall (fun phrase =>
               (exists word, In word word_subtitles /\ phrase = phrase_of word)
               \/ end_ phrase - start phrase < max_duration_ms) phrases.
Proof.
  intros phrases. subst phrases.
  destruct (merge_consecutive_words_runs_inv word_subtitles max_duration_ms)
    as (runs & H1 & H2 & H3 & H4 & H5).
  split; [exists runs; auto|]. rewrite H3.
  apply Forall_forall. intros phrase Hp.
  apply in_map_iff in Hp. destruct Hp as (r & <- & Hr).
  rewrite Forall_forall in H4. pose proof (H4 r Hr) as Hok.
  destruct r as [|w [|w' ws]]; [contradiction| |].
  - left. exists w. split; [|reflexivity].
    rewrite <- H1. apply in_concat. exists [w]. split; [exact Hr|now left].
  - right. cbn [phrase_of_run start end_ hd]. rewrite last_cons_default.
    apply (close_words_last _ _ _ _ w Hok). discriminate.
Qed.

Example merge_consecutive_words_example :
  merge_consecutive_words words_example 3000
  = [ mkEvent 0 700 "Hello there," "speech" None None None;
      mkEvent 1300 1900 "how are" "speech" None None None;
      mkEvent 1950 4400 "you" "speech" None None None ]
  /\ merge_consecutive_words [] 3000 = [].
Proof. split; reflexivity. Qed.

(** ** Order of the events *)

Lemma StronglySorted_impl {A : Type} (R R' : A -> A -> Prop) l :
  (forall a b, R a b -> R' a b) -> StronglySorted R l -> StronglySorted R' l.
Proof.
  intros HR. induction 1 as [|x l HS IH HF]; constructor; auto.
  eapply Forall_impl; [|exact HF]. intros a. apply HR.
Qed.

Lemma stable_sort_by_start st l :
  sorted_by_start st (stable_sort (by_start st) l).
Proof.
  unfold sorted_by_start.
  apply StronglySorted_impl
    with (R := fun a b => by_start st b a = false).
  - intros a b. unfold by_start. rewrite Z.ltb_ge. auto.
  - apply stable_sort_strongly; unfold by_start.
    + intros a b. rewrite Z.ltb_lt, Z.ltb_ge. lia.
    + intros a b c. rewrite !Z.ltb_ge. lia.
Qed.

Lemma no_clash_irrefl st a : ~ no_clash st a a.
Proof.
  unfold no_clash, same_sound. rewrite String.eqb_refl, Z.sub_diag.
  simpl. discriminate.
Qed.

Lemma ForallOrdPairs_NoDup {A : Type} (R : A -> A -> Prop) l :
  (forall a, ~ R a a) -> ForallOrdPairs R l -> NoDup l.
Proof.
  intros HR. induction 1 as [|x l HF HP IH]; constructor; auto.
  intros Hin. rewrite Forall_forall in HF. apply (HR x). auto.
Qed.

Lemma event_eqb_text a b : event_eqb a b = true -> text a = text b.
Proof.
  unfold event_eqb. rewrite !andb_true_iff.
  intros [[[[[[_ _] H] _] _] _] _]. now apply String.eqb_eq in H.
Qed.

Lemma list_remove_keeps st x l o :
  In o l ->
  In o (list_remove st x l) \/ event_eqb (rd st o) (rd st x) = true.
Proof.
  induction l as [|y l IH]; simpl; [contradiction|].
  destruct (event_eqb (rd st y) (rd st x)) eqn:E.
  - intros [<-|H]; [now right|now left].
  - intros [<-|H]; [left; now left|].
    destruct (IH H) as [H'|H']; [left; now right|now right].
Qed.

(** One round loses no label: the text of every accepted event, and of the
    event of the round, is the text of an accepted event after it. *)
Lemma dedup_step_labels st acc e t :
  (exists o, In o acc /\ text (rd st o) = t) \/ text (rd st e) = t ->
  exists o, In o (dedup_step st acc e) /\ text (rd st o) = t.
Proof.
  unfold dedup_step.
  destruct (find (fun existing => same_sound (rd st existing) (rd st e)) acc)
    as [existing|] eqn:F.
  - apply find_some in F. destruct F as [Hin Hs].
    unfold same_sound in Hs. apply andb_true_iff in Hs.
    destruct Hs as [Ht _]. apply String.eqb_eq in Ht.
    destruct (outranks (rd st e) (rd st existing)).
    + intros [(o & Ho & <-)|<-].
      * destruct (list_remove_keeps st existing acc o Ho) as [K|K].
        -- exists o. split; [apply in_or_app; now left|reflexivity].
        -- apply event_eqb_text in K. exists e.
           split; [apply in_or_app; right; now left|congruence].
      * exists e. split; [apply in_or_app; right; now left|reflexivity].
    + intros [H|<-]; [exact H|]. exists existing. now split.
  - intros [(o & Ho & <-)|<-].
    + exists o. split; [apply in_or_app; now left|reflexivity].
    + exists e. split; [apply in_or_app; right; now left|reflexivity].
Qed.

Lemma dedup_fold_labels st rest : forall acc t,
  (exists o, In o acc /\ text (rd st o) = t)
  \/ (exists e, In e rest /\ text (rd st e) = t) ->
  exists o, In o (fold_left (dedup_step st) rest acc) /\ text (rd st o) = t.
Proof.
  induction rest as [|e rest IH]; intros acc t; simpl.
  - intros [H|(e & [] & _)]. exact H.
  - intros H. apply IH.
    destruct H as [H|(x & [<-|Hx] & Hxt)].
    + left. apply dedup_step_labels. now left.
    + left. apply dedup_step_labels. now right.
    + right. now exists x.
Qed.

Lemma dedup_result (st : Store) (events out : list loc) :
  deduplicate_sound_events st events = Some out ->
  sorted_by_start st out
  /\ (forall a, In a out -> In a events)
  /\ NoDup out
  /\ ForallOrdPairs
       (fun a b => text (rd st a) = text (rd st b) ->
                   1500 <= Z.abs (start (rd st a) - start (rd st b))) out.
Proof.
  unfold deduplicate_sound_events.
  destruct events as [|e0 events].
  { intros [= <-]. repeat split; try constructor. intros a []. }
  set (evs := e0 :: events).
  destruct (forallb (fun l => has_confidence (rd st l)) evs); [|discriminate].
  set (sorted := stable_sort (by_dedup_key st) evs).
  assert (HS : StronglySorted (kle st) sorted).
  { apply stable_sort_strongly.
    - apply by_dedup_key_asym.
    - intros a b c. apply (kle_trans st a b c). }
  destruct (dedup_fold_inv st sorted [] HS (FOP_nil _)) as (D1 & D2 & D3).
  set (D := fold_left (dedup_step st) sorted []) in *.
  rewrite (stable_sort_sorted_id _ D (StronglySorted_by_start st D D1)).
  intros [= <-].
  split; [|split; [|split]].
  - eapply StronglySorted_impl; [|exact D1]. intros a b. apply kle_start.
  - intros a Ha. apply D3 in Ha. simpl in Ha. now apply stable_sort_In in Ha.
  - eapply ForallOrdPairs_NoDup; [apply (no_clash_irrefl st)|exact D2].
  - clear - D2. induction D2 as [|x l HF HP IH]; constructor; auto.
    eapply Forall_impl; [|exact HF]. intros b Hb Ht.
    unfold no_clash, same_sound in Hb. rewrite Ht, String.eqb_refl in Hb.
    simpl in Hb. now apply Z.ltb_ge in Hb.
Qed.

Lemma dedup_labels (st : Store) (events out : list loc) :
  deduplicate_sound_events st events = Some out ->
  forall e, In e events ->
    exists o, In o out /\ text (rd st o) = text (rd st e).
Proof.
  unfold deduplicate_sound_events.
  destruct events as [|e0 events]; [intros _ e []|].
  set (evs := e0 :: events).
  destruct (forallb (fun l => has_confidence (rd st l)) evs); [|discriminate].
  intros [= <-] e He.
  destruct (dedup_fold_labels st (stable_sort (by_dedup_key st) evs) []
              (text (rd st e))) as (o & Ho & Hot).
  { right. exists e. split; [now apply stable_sort_In|reflexivity]. }
  exists o. split; [now apply stable_sort_In|exact Hot].
Qed.

(** What [deduplicate_sound_events] returns is in order of start, is made
    of events of its input, each at most once, and holds no two events with
    the same text whose starts are less than 1500 ms apart. *)
Theorem deduplicate_sound_events_result (st : Store) (events out : list loc) :
  deduplicate_sound_events st events = Some out ->
  sorted_by_start st out
  /\ (forall a, In a out -> In a events)
  /\ NoDup out
  /\ ForallOrdPairs
       (fun a b => text (rd st a) = text (rd st b) ->
                   1500 <= Z.abs (start (rd st a) - start (rd st b))) out.
Proof. apply dedup_result. Qed.

Lemma deduplicate_sound_events_result_witness :
  deduplicate_sound_events dedup_example [0; 1; 2; 3]%nat = Some [3; 1]%nat
  /\ sorted_by_start dedup_example [3; 1]%nat.
Proof.
  assert (H : deduplicate_sound_events dedup_example [0; 1; 2; 3]%nat
              = Some [3; 1]%nat) by (vm_compute; reflexivity).
  split; [exact H|].
  exact (proj1 (deduplicate_sound_events_result dedup_example [0; 1; 2; 3]%nat
                  [3; 1]%nat H)).
Defined.

(** Deduplication loses no label: every text of an input event is the
    text of an event of the result. *)
Theorem deduplicate_sound_events_keeps_labels (st : Store)
    (events out : list loc) :
  deduplicate_sound_events st events = Some out ->
  forall e, In e events ->
    exists o, In o out /\ text (rd st o) = text (rd st e).
Proof. apply dedup_labels. Qed.

Lemma deduplicate_sound_events_keeps_labels_witness :
  (deduplicate_sound_events dedup_example [0; 1; 2; 3]%nat = Some [3; 1]%nat
   /\ In 2%nat [0; 1; 2; 3]%nat)
  /\ exists o, In o [3; 1]%nat
              /\ text (rd dedup_example o) = text (rd dedup_example 2%nat).
Proof.
  assert (H : deduplicate_sound_events dedup_example [0; 1; 2; 3]%nat
              = Some [3; 1]%nat) by (vm_compute; reflexivity).
  assert (I : In 2%nat [0; 1; 2; 3]%nat) by (simpl; tauto).
  split; [now split|].
  exact (deduplicate_sound_events_keeps_labels dedup_example [0; 1; 2; 3]%nat
           [3; 1]%nat H 2%nat I).
Defined.

Lemma merge_fold_all st speech sound merged :
  fold_left (merge_step st true speech) sound merged = merged ++ sound.
Proof.
  revert merged. induction sound as [|s sound IH]; intros merged; simpl.
  - now rewrite app_nil_r.
  - rewrite IH. unfold merge_step. now rewrite <- app_assoc.
Qed.

(** [merge_subtitles] returns its events in order of start in every mode.
    With [non_verbal_only_mode] the result is the sound events, whatever
    the other flag and the speech events are; else with
    [accessibility_mode] it is all speech and all sound events, overlapping
    or not; else it is the speech events and the sound events that overlap
    no speech event. *)
Theorem merge_subtitles_modes (st : Store) (speech sound : list loc)
    (accessibility_mode non_verbal_only_mode : bool) :
  let merged :=
    merge_subtitles st speech sound accessibility_mode non_verbal_only_mode in
  sorted_by_start st merged
  /\ Permutation merged
       (if non_verbal_only_mode then sound
        else if accessibility_mode then speech ++ sound
        else speech
             ++ filter (fun s => negb (is_overlapping st s speech)) sound).
Proof.
  intros merged. subst merged. unfold merge_subtitles.
  destruct non_verbal_only_mode.
  - split; [apply stable_sort_by_start|apply stable_sort_perm].
  - split; [apply stable_sort_by_start|].
    rewrite stable_sort_perm.
    destruct accessibility_mode.
    + now rewrite merge_fold_all.
    + now rewrite merge_fold_filter.
Qed.

Lemma format_fold_fitting mc lps subtitles : forall formatted w,
  Forall (fun l => fits (mc * lps) (rd (heap w) l)) subtitles ->
  foldM (format_one mc lps) subtitles formatted w
  = (formatted ++ subtitles, w).
Proof.
  induction subtitles as [|sub subtitles IH]; intros formatted w HF.
  - simpl. unfold ret. now rewrite app_nil_r.
  - inversion HF as [|? ? Hsub HF']; subst.
    cbn [foldM]. unfold bind at 1.
    assert (E : format_one mc lps formatted sub w = (formatted ++ [sub], w)).
    { unfold format_one, bind, get_event, read. cbn [fst snd heap].
      destruct Hsub as [Hs|Hl].
      - rewrite Hs. reflexivity.
      - destruct (String.eqb (type (rd (heap w) sub)) "sound"); [reflexivity|].
        apply Z.leb_le in Hl. rewrite Hl. reflexivity. }
    rewrite E, IH by exact HF'. now rewrite <- app_assoc.
Qed.

(** When every event is a sound or has a text within
    [max_chars_per_line * lines_per_subtitle], [format_subtitles] returns
    the same events, put in order of start, and writes nothing: no record
    is changed or created. *)
Theorem format_subtitles_fitting (subtitles : list loc)
    (max_chars_per_line lines_per_subtitle : Z) (w : World) :
  Forall (fun l => fits (max_chars_per_line * lines_per_subtitle)
                        (rd (heap w) l)) subtitles ->
  format_subtitles subtitles max_chars_per_line lines_per_subtitle w
  = (stable_sort (by_start (heap w)) subtitles, w).
Proof.
  intros HF. unfold format_subtitles, bind.
  rewrite format_fold_fitting by exact HF. reflexivity.
Qed.

Lemma format_subtitles_fitting_witness :
  Forall (fun l => fits (42 * 2) (rd (heap translate_example) l)) [1; 0]%nat
  /\ format_subtitles [1; 0]%nat 42 2 translate_example
     = ([0; 1]%nat, translate_example).
Proof.
  assert (H : Forall (fun l => fits (42 * 2) (rd (heap translate_example) l))
                     [1; 0]%nat).
  { constructor; [right; vm_compute; discriminate|].
    constructor; [right; vm_compute; discriminate|constructor]. }
  split; [exact H|].
  exact (format_subtitles_fitting [1; 0]%nat 42 2 translate_example H).
Defined.

(** ** Translation of a whole list *)

Lemma pauses_in_app l1 l2 :
  pauses_in (l1 ++ l2) = (pauses_in l1 + pauses_in l2)%nat.
Proof.
  induction l1 as [|[s b|q] l1 IH]; simpl; auto.
  destruct (Qeq_bool q (1 # 10)); simpl; auto.
Qed.

Lemma backoff_is_no_pause z : Qeq_bool (inject_Z z) (1 # 10) = false.
Proof.
  unfold Qeq_bool, inject_Z. simpl. apply Z.eqb_neq. lia.
Qed.

(** A run of the retry loop with at least one attempt to make: between one
    request and one per attempt, and no pause of a tenth of a second. *)
Lemma request_loop_log client system_message batch_text max_retries attempts w :
  attempts <> [] ->
  let w' := snd (request_loop client system_message batch_text max_retries
                              attempts w) in
  heap w' = heap w
  /\ exists ext, log w' = log w ++ ext
       /\ (1 <= requests_in ext <= List.length attempts)%nat
       /\ pauses_in ext = 0%nat.
Proof.
  revert w. induction attempts as [|attempt rest IH]; intros w N;
    [contradiction|].
  cbn [request_loop]. unfold bind, chat_completion.
  destruct (client _ _ _) as [content|].
  - simpl. split; [reflexivity|]. eexists. split; [reflexivity|]. simpl. lia.
  - destruct (Z.of_nat attempt <? max_retries - 1).
    + unfold emit. cbn [heap log snd].
      destruct rest as [|a rest].
      * simpl. split; [reflexivity|]. eexists.
        rewrite <- app_assoc. split; [reflexivity|].
        simpl. rewrite backoff_is_no_pause. lia.
      * match goal with
        | |- context [request_loop _ _ _ _ _ ?w1] =>
            destruct (IH w1 ltac:(discriminate)) as (H1 & ext & H2 & H3 & H4)
        end.
        cbn [heap log] in H1, H2. split; [exact H1|].
        eexists. rewrite H2, <- !app_assoc. split; [reflexivity|].
        rewrite !requests_in_app, !pauses_in_app. simpl.
        rewrite backoff_is_no_pause. simpl in H3. lia.
    + simpl. split; [reflexivity|]. eexists. split; [reflexivity|].
      simpl. lia.
Qed.





Lemma same_but_text_refl a : same_but_text a a.
Proof. unfold same_but_text. tauto. Qed.

Lemma translates_self st ext sub :
  (sub < List.length st)%nat -> translates st (st ++ ext) sub sub.
Proof.
  intros H. split; [rewrite length_app; lia|].
  rewrite rd_app_old by exact H. apply same_but_text_refl.
Qed.

Lemma translates_more st st' ext sub l :
  translates st st' sub l -> translates st (st' ++ ext) sub l.
Proof.
  intros [H1 H2]. split; [rewrite length_app; lia|].
  now rewrite rd_app_old.
Qed.

Lemma Forall2_seq (P : loc -> loc -> Prop) batch : forall n,
  (forall k, (k < List.length batch)%nat -> P (nth k batch 0%nat) (n + k)%nat) ->
  Forall2 P batch (seq n (List.length batch)).
Proof.
  induction batch as [|sub batch IH]; intros n H; simpl; constructor.
  - specialize (H 0%nat ltac:(simpl; lia)). now rewrite Nat.add_0_r in H.
  - apply IH. intros k Hk.
    specialize (H (S k) ltac:(simpl; lia)). simpl in H.
    now rewrite Nat.add_succ_r in H.
Qed.

Lemma final_text_of_blank translated_line original_text :
  final_text_of translated_line original_text = "" -> original_text = "".
Proof.
  unfold final_text_of. destruct translated_line as [t|]; auto.
  destruct t; simpl; auto. discriminate.
Qed.

(** The events read back from a response stand for the events of the
    batch, one for one. *)
Lemma parse_from_translates translated_lines original_batch i st w :
  (exists ext, heap w = st ++ ext) ->
  Forall (fun l => (l < List.length st)%nat) original_batch ->
  let (out, w') := parse_from translated_lines i original_batch w in
  Forall2 (translates st (heap w')) original_batch out
  /\ exists ext, heap w' = heap w ++ ext.
Proof.
  intros [ext0 E] Hv.
  assert (Hv' : Forall (fun l => (l < List.length (heap w))%nat) original_batch).
  { eapply Forall_impl; [|exact Hv]. intros l Hl. cbv beta in Hl.
    rewrite E, length_app. lia. }
  pose proof (parse_from_spec translated_lines original_batch i w Hv') as S.
  pose proof (parse_from_extends translated_lines original_batch i w) as X.
  destruct (parse_from translated_lines i original_batch w) as [out w'].
  cbn [snd] in X. split; [|exact X].
  destruct S as (-> & _ & L & _ & R).
  apply Forall2_seq. intros k Hk. split; [lia|].
  rewrite (R k Hk).
  assert (V : (nth k original_batch 0 < List.length st)%nat).
  { rewrite Forall_forall in Hv. apply Hv, nth_In, Hk. }
  rewrite E, rd_app_old by exact V.
  unfold same_but_text, set_text. cbn [start end_ text type confidence source priority].
  repeat split. apply final_text_of_blank.
Qed.

Lemma translate_batch_translates client source_lang target_lang subtitle_type
    n_batches translated_subtitles batch_idx batch st w :
  (exists ext, heap w = st ++ ext) ->
  Forall (fun l => (l < List.length st)%nat) batch ->
  let (out_all, w') :=
    translate_batch client source_lang target_lang subtitle_type n_batches
                    translated_subtitles (batch_idx, batch) w in
  exists out,
    out_all = translated_subtitles ++ out
    /\ Forall2 (translates st (heap w')) batch out
    /\ exists ext, heap w' = heap w ++ ext.
Proof.
  intros [ext0 E] Hv. unfold translate_batch.
  unfold bind at 1. unfold read at 1. unfold bind at 1.
  unfold make_translation_request.
  match goal with
  | |- context [request_loop client ?s ?b ?m ?a w] =>
      destruct (request_loop_log client s b m a w ltac:(discriminate))
        as (H1 & _);
      destruct (request_loop client s b m a w) as [response w1]
  end.
  cbn [snd] in H1. unfold bind at 1.
  assert (P : forall r : list loc * World,
             (Forall2 (translates st (heap (snd r))) batch (fst r)
              /\ exists ext, heap (snd r) = heap w ++ ext) ->
             let (out_all, w') :=
               (let (a, w') := r in
                ((if Z.of_nat batch_idx <? Z.of_nat n_batches - 1
                  then emit (Sleep (1 # 10)) else ret tt);;;
                 ret (translated_subtitles ++ a)) w') in
             exists out,
               out_all = translated_subtitles ++ out
               /\ Forall2 (translates st (heap w')) batch out
               /\ exists ext, heap w' = heap w ++ ext).
  { intros [a w2] [F X]. cbn [fst snd] in F, X. unfold bind.
    destruct (Z.of_nat batch_idx <? Z.of_nat n_batches - 1);
      unfold emit, ret; cbn [heap]; exists a; auto. }
  apply P.
  assert (Same : Forall2 (translates st (heap w1)) batch batch
                 /\ exists ext, heap w1 = heap w ++ ext).
  { rewrite H1. split; [|exists []; now rewrite app_nil_r].
    rewrite E. clear - Hv. induction Hv; constructor; auto.
    now apply translates_self. }
  destruct response as [r|]; [|exact Same].
  destruct (Py.truthy r); [|exact Same].
  unfold parse_translation_response.
  pose proof (parse_from_translates (translated_lines_of r) batch 0 st w1) as Q.
  destruct (parse_from _ _ _ w1) as [out w2]. cbn [fst snd].
  rewrite H1 in Q. destruct Q as [Q1 [ext2 Q2]]; [now exists ext0|exact Hv|].
  split; [exact Q1|]. exists ext2. now rewrite Q2.
Qed.

Lemma Forall_concat_inv {A : Type} (P : A -> Prop) (ls : list (list A)) :
  Forall P (List.concat ls) -> Forall (Forall P) ls.
Proof.
  induction ls as [|l ls IH]; simpl; intros H; constructor.
  - apply Forall_app in H. tauto.
  - apply IH. apply Forall_app in H. tauto.
Qed.

Lemma translate_fold_translates client source_lang target_lang subtitle_type
    n_batches batches st : forall k translated_subtitles done w,
  (exists ext, heap w = st ++ ext) ->
  Forall (Forall (fun l => (l < List.length st)%nat)) batches ->
  Forall2 (translates st (heap w)) done translated_subtitles ->
  let (out, w') :=
    foldM (translate_batch client source_lang target_lang subtitle_type
                           n_batches)
          (combine (seq k (List.length batches)) batches)
          translated_subtitles w in
  Forall2 (translates st (heap w')) (done ++ List.concat batches) out
  /\ exists ext, heap w' = st ++ ext.
Proof.
  induction batches as [|batch batches IH]; intros k acc done w X Hv F.
  - simpl. unfold ret. rewrite app_nil_r. auto.
  - inversion Hv as [|? ? Hb Hbs]; subst.
    cbn [List.length seq combine foldM]. unfold bind at 1.
    pose proof (translate_batch_translates client source_lang target_lang
                  subtitle_type n_batches acc k batch st w X Hb) as T.
    destruct (translate_batch _ _ _ _ _ _ _ w) as [acc' w1].
    destruct T as (out & -> & T1 & ext1 & T2).
    destruct X as [ext0 X].
    assert (X1 : exists ext, heap w1 = st ++ ext).
    { exists (ext0 ++ ext1). now rewrite T2, X, app_assoc. }
    assert (F1 : Forall2 (translates st (heap w1)) (done ++ batch) (acc ++ out)).
    { apply Forall2_app; [|exact T1]. rewrite T2.
      eapply Forall2_impl; [|exact F]. intros a b. apply translates_more. }
    specialize (IH (S k) (acc ++ out) (done ++ batch) w1 X1 Hbs F1).
    destruct (foldM _ _ (acc ++ out) w1) as [res w2].
    cbn [List.concat]. now rewrite app_assoc.
Qed.

Lemma translate_texts_in_batches_translates client subtitles source_lang
    target_lang subtitle_type w :
  Forall (fun l => (l < List.length (heap w))%nat) subtitles ->
  let r := translate_texts_in_batches client subtitles source_lang target_lang
                                      subtitle_type w in
  Forall2 (translates (heap w) (heap (snd r))) subtitles (fst r)
  /\ exists ext, heap (snd r) = heap w ++ ext.
Proof.
  intros Hv r. subst r. unfold translate_texts_in_batches.
  destruct subtitles as [|s subtitles].
  { unfold ret. split; [constructor|exists []; now rewrite app_nil_r]. }
  unfold bind, read.
  set (batches := create_smart_batches (heap w) (s :: subtitles)).
  destruct (create_smart_batches_inv (heap w) (s :: subtitles)) as [C _].
  fold batches in C.
  pose proof (translate_fold_translates client source_lang target_lang
                subtitle_type (List.length batches) batches (heap w) 0 [] [] w)
    as T.
  destruct (foldM _ _ [] w) as [out w'].
  assert (C' : @List.concat nat batches = s :: subtitles) by exact C.
  cbn [app] in T. rewrite C' in T. apply T.
  - exists []. now rewrite app_nil_r.
  - apply Forall_concat_inv. now rewrite C'.
  - constructor.
Qed.

(** The call guarded by [if speech_subtitles:] or [if sound_subtitles:]. *)
Lemma guarded_translates client subtitles source_lang target_lang
    subtitle_type w :
  let m := if negb (is_empty subtitles)
           then translate_texts_in_batches client subtitles source_lang
                                           target_lang subtitle_type
           else ret [] in
  (Forall (fun l => (l < List.length (heap w))%nat) subtitles ->
   Forall2 (translates (heap w) (heap (snd (m w)))) subtitles (fst (m w)))
  /\ exists ext, heap (snd (m w)) = heap w ++ ext.
Proof.
  destruct subtitles as [|s0 subtitles].
  - unfold ret. cbn. split; [constructor|exists []; now rewrite app_nil_r].
  - cbn [is_empty negb]. split.
    + intros V.
      apply (translate_texts_in_batches_translates client (s0 :: subtitles)
               source_lang target_lang subtitle_type w V).
    + apply (translate_texts_in_batches_extends client (s0 :: subtitles)
               source_lang target_lang subtitle_type w).
Qed.

(** Translation changes texts only.  For events of the store and any
    service, [translate_texts_in_batches] returns as many events as it was
    given, in the same order; the event at each position has the start,
    end, type, confidence, source and priority of the input event at that
    position, and its text is not empty unless the input text is; the
    records of the store it was given are unchanged. *)
Theorem translate_texts_in_batches_fields
    (client : nat -> string -> string -> option string)
    (subtitles : list loc) (source_lang target_lang subtitle_type : string)
    (w : World) :
  Forall (fun l => (l < List.length (heap w))%nat) subtitles ->
  let r := translate_texts_in_batches client subtitles source_lang target_lang
                                      subtitle_type w in
  Forall2 (translates (heap w) (heap (snd r))) subtitles (fst r)
  /\ exists fresh, heap (snd r) = heap w ++ fresh.
Proof.
  apply translate_texts_in_batches_translates.
Qed.

Lemma translate_texts_in_batches_fields_witness :
  Forall (fun l => (l < List.length (heap translate_example))%nat) [0; 1]%nat
  /\ Forall2 (translates (heap translate_example)
                (heap (snd (translate_texts_in_batches
                              first_only_client [0; 1]%nat "en" "fr" "speech"
                              translate_example))))
             [0; 1]%nat
             (fst (translate_texts_in_batches
                     first_only_client [0; 1]%nat "en" "fr" "speech"
                     translate_example)).
Proof.
  assert (H : Forall (fun l => (l < List.length (heap translate_example))%nat)
                     [0; 1]%nat).
  { repeat constructor. }
  split; [exact H|].
  exact (proj1 (translate_texts_in_batches_fields first_only_client [0; 1]%nat
                  "en" "fr" "speech" translate_example H)).
Defined.

Example translate_texts_in_batches_partial :
  let (out, w') :=
    translate_texts_in_batches first_only_client [0; 1]%nat "en" "fr" "speech"
                               translate_example in
  map (fun l => rd (heap w') l) out
  = [ mkEvent 0 900 "Bonjour" "speech" None None None;
      mkEvent 1000 1900 "How are you" "speech" None None None ].
Proof. vm_compute. reflexivity. Qed.

Lemma truthy_false_iff s : Py.truthy s = false <-> s = "".
Proof. destruct s; simpl; split; intros H; congruence. Qed.

(** Without an API key, or when the two languages are the same,
    [translate_subtitles] returns the list it was given and does nothing.
    Otherwise it returns one event for every speech event and every sound
    event of the list, in order of start: each stands for its input event
    with every field but the text unchanged; an event of any other type is
    dropped; the records of the store it was given are unchanged. *)
Theorem translate_subtitles_result (OPENAI_API_KEY : string)
    (client : nat -> string -> string -> option string)
    (subtitles : list loc) (source_language target_language : string)
    (w : World) :
  let r := translate_subtitles OPENAI_API_KEY client subtitles
                               source_language target_language w in
  let speech :=
    filter (fun sub => String.eqb (type (rd (heap w) sub)) "speech") subtitles in
  let sound :=
    filter (fun sub => String.eqb (type (rd (heap w) sub)) "sound") subtitles in
  (OPENAI_API_KEY = "" \/ source_language = target_language ->
   r = (subtitles, w))
  /\ (OPENAI_API_KEY <> "" -> source_language <> target_language ->
      sorted_by_start (heap (snd r)) (fst r)
      /\ (exists fresh, heap (snd r) = heap w ++ fresh)
      /\ (Forall (fun l => (l < List.length (heap w))%nat) subtitles ->
          exists outs,
            Permutation (fst r) outs
            /\ Forall2 (translates (heap w) (heap (snd r)))
                       (speech ++ sound) outs)).
Proof.
  intros r speech sound. subst r. unfold translate_subtitles. split.
  - intros [E | E]; subst; [reflexivity|].
    rewrite String.eqb_refl. now destruct (negb (Py.truthy OPENAI_API_KEY)).
  - intros K L.
    destruct (Py.truthy OPENAI_API_KEY) eqn:T;
      [|apply truthy_false_iff in T; contradiction].
    apply String.eqb_neq in L. rewrite L. cbn [negb].
    unfold bind, read. cbn beta iota. fold speech. fold sound.
    set (m1 := if negb (is_empty speech)
               then translate_texts_in_batches client speech source_language
                                               target_language "speech"
               else ret []).
    pose proof (guarded_translates client speech source_language
                  target_language "speech") as P1.
    cbv zeta in P1. fold m1 in P1.
    destruct (P1 w) as [F1 [ext1 X1]].
    destruct (m1 w) as [translated_speech w1]. cbn [fst snd] in F1, X1.
    set (m2 := if negb (is_empty sound)
               then translate_texts_in_batches client sound source_language
                                               target_language "sound"
               else ret []).
    pose proof (guarded_translates client sound source_language
                  target_language "sound") as P2.
    cbv zeta in P2. fold m2 in P2.
    destruct (P2 w1) as [F2 [ext2 X2]].
    destruct (m2 w1) as [translated_sounds w2]. cbn [fst snd] in F2, X2.
    cbn [fst snd].
    split; [apply stable_sort_by_start|].
    split; [exists (ext1 ++ ext2); now rewrite X2, X1, app_assoc|].
    intros V. exists (translated_speech ++ translated_sounds).
    split; [apply stable_sort_perm|].
    assert (Vsp : Forall (fun l => (l < List.length (heap w))%nat) speech).
    { apply Forall_forall. intros l Hl. apply filter_In in Hl.
      rewrite Forall_forall in V. now apply V. }
    assert (Vso : Forall (fun l => (l < List.length (heap w))%nat) sound).
    { apply Forall_forall. intros l Hl. apply filter_In in Hl.
      rewrite Forall_forall in V. now apply V. }
    apply Forall2_app.
    + rewrite X2. eapply Forall2_impl; [|exact (F1 Vsp)].
      intros a b. apply translates_more.
    + assert (Vso1 : Forall (fun l => (l < List.length (heap w1))%nat) sound).
      { eapply Forall_impl; [|exact Vso]. intros l Hl. cbv beta in Hl.
        rewrite X1, length_app. lia. }
      specialize (F2 Vso1).
      clear - F2 Vso X1. induction F2 as [|a b la lb Hab F2 IH]; constructor.
      * inversion Vso as [|? ? Va ?]; subst.
        destruct Hab as [Hb Hs]. split; [exact Hb|].
        rewrite X1, rd_app_old in Hs by exact Va. exact Hs.
      * apply IH. now inversion Vso.
Qed.

Example translate_subtitles_example :
  let (out, w') :=
    translate_subtitles "sk-key" first_only_client [0; 1; 2; 3]%nat "en" "fr"
                        mixed_example in
  map (fun l => rd (heap w') l) out
  = [ mkEvent 0 900 "Bonjour" "speech" None None None;
      mkEvent 400 1360 "Bonjour" "sound" (Some (1 # 2)) (Some "yamnet") (Some 11);
      mkEvent 1000 1900 "How are you" "speech" None None None ]
  /\ requests_in (log w') = 2%nat
  /\ translate_subtitles "" first_only_client [0; 1; 2; 3]%nat "en" "fr"
                         mixed_example
     = ([0; 1; 2; 3]%nat, mixed_example).
Proof. vm_compute. repeat split; reflexivity. Qed.

(** ** The exported file *)

Lemma append_empty (a b : string) : (a ++ b)%string = "" -> a = "" /\ b = "".
Proof. destruct a; simpl; [auto|discriminate]. Qed.

Lemma records_from_empty record i subs :
  (forall i sub, record i sub <> "") ->
  records_from record i subs = "" <-> subs = [].
Proof.
  intros H. destruct subs as [|sub subs]; simpl; [tauto|].
  split; [|discriminate]. intros E. apply append_empty in E.
  destruct E as [E _]. now apply H in E.
Qed.

Lemma srt_record_not_empty i sub : srt_record i sub <> "".
Proof.
  unfold srt_record. intros E. apply append_empty in E.
  destruct E as [_ E]. discriminate E.
Qed.

Lemma txt_record_not_empty sub : txt_record sub <> "".
Proof. unfold txt_record. discriminate. Qed.

(** [export_subtitles] takes any format: one that is none of [srt], [vtt],
    [ass] and [txt] gives an empty file, without an error.  The file is
    empty only then, or when there is no event and the format is [srt] or
    [txt], the two formats without a header. *)
Theorem export_subtitles_empty_file
    (os_path_join : string -> string -> string) (st : Store)
    (subtitles : list loc) (output_dir filename_base output_format : string) :
  let known := fun f => output_format = f in
  snd (export_subtitles os_path_join st subtitles output_dir filename_base
                        output_format) = ""
  <-> (~ (known "srt" \/ known "vtt" \/ known "ass" \/ known "txt")
       \/ (subtitles = [] /\ (known "srt" \/ known "txt"))).
Proof.
  intros known. subst known. unfold export_subtitles. cbn [snd].
  destruct (String.eqb_spec output_format "srt") as [->|N1].
  { unfold write_srt.
    rewrite (records_from_empty srt_record 0 _ srt_record_not_empty).
    split.
    - intros E. right. split; [|now left].
      destruct subtitles; [reflexivity|discriminate].
    - intros [H|[-> _]]; [exfalso; apply H; now left|reflexivity]. }
  destruct (String.eqb_spec output_format "vtt") as [->|N2].
  { split; [discriminate|].
    intros [H|[_ [H|H]]]; [exfalso; apply H; tauto|discriminate H..]. }
  destruct (String.eqb_spec output_format "ass") as [->|N3].
  { split.
    - unfold write_ass. intros E. apply append_empty in E.
      destruct E as [E _]. discriminate E.
    - intros [H|[_ [H|H]]]; [exfalso; apply H; tauto|discriminate H..]. }
  destruct (String.eqb_spec output_format "txt") as [->|N4].
  { unfold write_txt.
    rewrite (records_from_empty (fun _ => txt_record) 0 _
               (fun _ => txt_record_not_empty)).
    split.
    - intros E. right. split; [|now right].
      destruct subtitles; [reflexivity|discriminate].
    - intros [H|[-> _]]; [exfalso; apply H; tauto|reflexivity]. }
  split; [|reflexivity]. intros _. left. tauto.
Qed.

Lemma below_enumerated (P : Z -> bool) (n : nat) :
  forallb (fun k => P (Z.of_nat k)) (seq 0 n) = true ->
  forall z, 0 <= z < Z.of_nat n -> P z = true.
Proof.
  intros H z Hz. rewrite forallb_forall in H.
  specialize (H (Z.to_nat z)). rewrite Z2Nat.id in H by lia.
  apply H. apply in_seq. lia.
Qed.

Lemma format_0d_2_shape z :
  0 <= z < 100 ->
  exists a b, Py.format_0d 2 z = String a (String b "")
              /\ is_digit a = true /\ is_digit b = true.
Proof.
  intros Hz.
  pose proof (below_enumerated (fun z => has_shape "dd" (Py.format_0d 2 z))
                100 ltac:(vm_compute; reflexivity) z Hz) as H.
  cbv beta in H. destruct (Py.format_0d 2 z) as [|a [|b [|c s]]];
    try (simpl in H; rewrite ?andb_false_r in H; discriminate H).
  exists a, b. simpl in H. rewrite !andb_true_iff in H. tauto.
Qed.

Lemma format_0d_3_shape z :
  0 <= z < 1000 ->
  exists a b c, Py.format_0d 3 z = String a (String b (String c ""))
                /\ is_digit a = true /\ is_digit b = true
                /\ is_digit c = true.
Proof.
  intros Hz.
  pose proof (below_enumerated (fun z => has_shape "ddd" (Py.format_0d 3 z))
                1000 ltac:(vm_compute; reflexivity) z Hz) as H.
  cbv beta in H. destruct (Py.format_0d 3 z) as [|a [|b [|c [|d s]]]];
    try (simpl in H; rewrite ?andb_false_r in H; discriminate H).
  exists a, b, c. simpl in H. rewrite !andb_true_iff in H. tauto.
Qed.

Lemma format_d_shape z :
  0 <= z < 10 ->
  exists a, Py.format_d z = String a "" /\ is_digit a = true.
Proof.
  intros Hz.
  pose proof (below_enumerated (fun z => has_shape "d" (Py.format_d z))
                10 ltac:(vm_compute; reflexivity) z Hz) as H.
  cbv beta in H. destruct (Py.format_d z) as [|a [|b s]];
    try (simpl in H; rewrite ?andb_false_r in H; discriminate H).
  exists a. simpl in H. rewrite !andb_true_iff in H. tauto.
Qed.

(** For a time from 0 to under 100 hours the timestamps have a fixed
    shape: two digits each for hours, minutes and seconds and three for
    milliseconds in SRT (with a comma) and VTT (with a dot), hours, minutes
    and seconds in TXT; in ASS the hours are not padded, so the shape
    [d:dd:dd.dd] holds under 10 hours. *)
Theorem timestamps_shape (ms : Z) :
  0 <= ms < 360000000 ->
  has_shape "dd:dd:dd,ddd" (format_srt_time ms) = true
  /\ has_shape "dd:dd:dd.ddd" (format_vtt_time ms) = true
  /\ has_shape "dd:dd:dd" (format_txt_time ms) = true
  /\ (ms < 36000000 -> has_shape "d:dd:dd.dd" (format_ass_time ms) = true).
Proof.
  intros Hms.
  assert (Hh : 0 <= ms / 1000 / 60 / 60 < 100).
  { split; [repeat apply Z.div_pos; lia|].
    repeat (apply Z.div_lt_upper_bound; [lia|]). lia. }
  destruct (format_0d_2_shape _ Hh) as (h1 & h2 & Eh & Dh1 & Dh2).
  assert (Hm : 0 <= (ms / 1000 / 60) mod 60 < 100).
  { pose proof (Z.mod_pos_bound (ms / 1000 / 60) 60 ltac:(lia)). lia. }
  assert (Hs : 0 <= (ms / 1000) mod 60 < 100).
  { pose proof (Z.mod_pos_bound (ms / 1000) 60 ltac:(lia)). lia. }
  assert (Hf : 0 <= ms mod 1000 < 1000) by (apply Z.mod_pos_bound; lia).
  destruct (format_0d_2_shape _ Hm) as (m1 & m2 & Em & Dm1 & Dm2).
  destruct (format_0d_2_shape _ Hs) as (s1 & s2 & Es & Ds1 & Ds2).
  destruct (format_0d_3_shape _ Hf) as (f1 & f2 & f3 & Ef & Df1 & Df2 & Df3).
  unfold format_srt_time, format_vtt_time, format_txt_time, format_ass_time.
  rewrite Eh, Em, Es, Ef. cbn [append has_shape].
  rewrite Dh1, Dh2, Dm1, Dm2, Ds1, Ds2, Df1, Df2, Df3.
  repeat split; try reflexivity.
  intros Hms'.
  assert (Hh' : 0 <= ms / 1000 / 60 / 60 < 10).
  { split; [lia|]. repeat (apply Z.div_lt_upper_bound; [lia|]). lia. }
  destruct (format_d_shape _ Hh') as (h & Eh' & Dh).
  destruct (format_0d_2_shape (ms mod 1000 / 10)) as (c1 & c2 & Ec & Dc1 & Dc2).
  { split; [apply Z.div_pos; lia|apply Z.div_lt_upper_bound; lia]. }
  rewrite Eh', Ec. cbn [append has_shape].
  rewrite Dh, Dm1, Dm2, Ds1, Ds2, Dc1, Dc2. reflexivity.
Qed.

Lemma timestamps_shape_witness :
  0 <= 3723004 < 360000000
  /\ has_shape "dd:dd:dd,ddd" (format_srt_time 3723004) = true.
Proof.
  assert (H : 0 <= 3723004 < 360000000) by lia.
  split; [exact H|].
  exact (proj1 (timestamps_shape 3723004 H)).
Defined.

Example timestamps_out_of_range :
  format_srt_time 3723004 = "01:02:03,004"
  /\ format_ass_time 3723004 = "1:02:03.00"
  /\ format_srt_time 360000000 = "100:00:00,000"
  /\ format_ass_time 36000000 = "10:00:00.00"
  /\ format_srt_time (-1) = "-1:59:59,999".
Proof. vm_compute. repeat split; reflexivity. Qed.

(** ** Timing of the blocks *)

Lemma chain_snoc s chunks cursor c :
  chain s chunks cursor -> start c = cursor ->
  chain s (chunks ++ [c]) (end_ c).
Proof.
  revert s. induction chunks as [|x chunks IH]; intros s; simpl.
  - intros -> ->. auto.
  - intros [H1 H2] H3. split; [exact H1|]. now apply IH.
Qed.

Lemma advances_refl sub w : advances sub w w.
Proof. repeat split; auto. Qed.

Lemma advances_trans sub a b c :
  advances sub a b -> advances sub b c -> advances sub a c.
Proof.
  intros (L1 & F1 & E1) (L2 & F2 & E2). split; [lia|split].
  - intros l Hl N. rewrite F2 by (auto; lia). now apply F1.
  - congruence.
Qed.

Lemma split_from_nonempty cur s :
  Forall (fun word => word <> "") (Py.split_from cur s).
Proof.
  revert cur. induction s as [|c s IH]; intros cur; simpl.
  - destruct cur; simpl; repeat constructor. discriminate.
  - destruct (Py.isspace c); [|apply IH].
    destruct cur; simpl; [apply IH|].
    constructor; [discriminate|apply IH].
Qed.

Lemma map_rd_same (st st' : Store) (blocks : list loc) :
  (forall l, In l blocks -> rd st' l = rd st l) ->
  map (rd st') blocks = map (rd st) blocks.
Proof. intros H. apply map_ext_in. exact H. Qed.

(** One word: the state stays one of cutting. *)
Lemma word_step_cutting formatted base s0 sub text_ max_chars blocks
    current_text current_chars word w :
  (sub < base)%nat -> (base <= List.length (heap w))%nat -> word <> "" ->
  cutting base s0 sub w blocks current_text ->
  let (s', w') :=
    word_step sub text_ max_chars
              (formatted ++ blocks, current_text, current_chars) word w in
  advances sub w w'
  /\ exists blocks' current_text' current_chars',
       s' = (formatted ++ blocks', current_text', current_chars')
       /\ cutting base s0 sub w' blocks' current_text'.
Proof.
  intros Hsub Hbase Hword (HF & HC & HN). unfold word_step.
  destruct (current_chars + Py.len word + 1 <=? max_chars).
  - destruct (Py.truthy current_text) eqn:T; unfold ret;
      (split; [apply advances_refl|]);
      do 3 eexists; (split; [reflexivity|]);
      (split; [exact HF|split; [exact HC|right]]).
    + destruct current_text; [discriminate|discriminate].
    + apply truthy_nonempty in T. subst current_text. exact Hword.
  - destruct (Py.truthy current_text) eqn:T.
    + unfold bind, get_event, read, new_event, put_event, ret.
      cbn [fst snd heap log].
      set (e := rd (heap w) sub).
      set (pd := partial_duration_of _ _ _).
      set (chunk := speech_chunk (start e) (start e + pd) current_text).
      assert (Hs : (sub < List.length (heap w))%nat) by lia.
      rewrite (rd_app_old (heap w) [chunk] sub Hs). fold e.
      set (e1 := set_start (start e + pd) e).
      set (st' := wr sub e1 (heap w ++ [chunk])).
      assert (L : List.length st' = S (List.length (heap w))).
      { unfold st'. rewrite wr_length, length_app. simpl. lia. }
      assert (Old : forall l, (l < List.length (heap w))%nat -> l <> sub ->
                      rd st' l = rd (heap w) l).
      { intros l Hl N. unfold st'.
        rewrite rd_wr_other by congruence. now apply rd_app_old. }
      assert (Sub : rd st' sub = e1).
      { unfold st'. apply rd_wr_same. rewrite length_app. lia. }
      assert (New : rd st' (List.length (heap w)) = chunk).
      { unfold st'. rewrite rd_wr_other by lia. apply rd_app_new. }
      split.
      * split; [cbn [heap]; lia|split; [exact Old|]].
        cbn [heap]. now rewrite Sub.
      * exists (blocks ++ [List.length (heap w)]), word, (Py.len word).
        split; [now rewrite app_assoc|].
        unfold cutting. cbn [heap].
        assert (Keep : forall l, In l blocks -> rd st' l = rd (heap w) l).
        { intros l Hl. rewrite Forall_forall in HF.
          destruct (HF l Hl) as [B _]. apply Old; lia. }
        split; [|split; [|now right]].
        -- apply Forall_app. split.
           ++ apply Forall_forall. intros l Hl. rewrite (Keep l Hl).
              rewrite Forall_forall in HF. destruct (HF l Hl) as [B Ty].
              split; [lia|exact Ty].
           ++ constructor; [|constructor]. rewrite New. split; [lia|reflexivity].
        -- rewrite map_app, (map_rd_same _ _ _ Keep). cbn [map].
           rewrite New, Sub.
           change (start e1) with (end_ chunk).
           apply (chain_snoc s0 _ (start e) chunk HC). reflexivity.
    + unfold ret. split; [apply advances_refl|].
      do 3 eexists. split; [reflexivity|]. repeat split; assumption.
Qed.

Lemma cutting_more base s0 sub w w' blocks current_text :
  (sub < base)%nat -> (base <= List.length (heap w))%nat ->
  advances sub w w' ->
  start (rd (heap w') sub) = start (rd (heap w) sub) ->
  cutting base s0 sub w blocks current_text ->
  cutting base s0 sub w' blocks current_text.
Proof.
  intros Hsub Hbase (L & F & E) S (HF & HC & HN).
  assert (Keep : forall l, In l blocks -> rd (heap w') l = rd (heap w) l).
  { intros l Hl. rewrite Forall_forall in HF.
    destruct (HF l Hl) as [B _]. apply F; lia. }
  split; [|split; [|exact HN]].
  - apply Forall_forall. intros l Hl. rewrite (Keep l Hl).
    rewrite Forall_forall in HF. destruct (HF l Hl) as [B Ty].
    split; [lia|exact Ty].
  - now rewrite (map_rd_same _ _ _ Keep), S.
Qed.

Lemma word_fold_cutting formatted base s0 sub text_ max_chars words :
  forall blocks current_text current_chars w,
  (sub < base)%nat -> (base <= List.length (heap w))%nat ->
  Forall (fun word => word <> "") words ->
  cutting base s0 sub w blocks current_text ->
  let (s', w') :=
    foldM (word_step sub text_ max_chars) words
          (formatted ++ blocks, current_text, current_chars) w in
  advances sub w w'
  /\ exists blocks' current_text' current_chars',
       s' = (formatted ++ blocks', current_text', current_chars')
       /\ cutting base s0 sub w' blocks' current_text'.
Proof.
  induction words as [|word words IH];
    intros blocks current_text current_chars w Hsub Hbase Hw HC.
  - simpl. unfold ret. split; [apply advances_refl|].
    do 3 eexists. split; [reflexivity|exact HC].
  - inversion Hw as [|? ? Hword Hwords]; subst.
    cbn [foldM]. unfold bind.
    pose proof (word_step_cutting formatted base s0 sub text_ max_chars blocks
                  current_text current_chars word w Hsub Hbase Hword HC) as H1.
    destruct (word_step _ _ _ _ _ w) as [s1 w1].
    destruct H1 as (A1 & b1 & t1 & c1 & -> & C1).
    assert (Hbase1 : (base <= List.length (heap w1))%nat)
      by (destruct A1 as (L & _); lia).
    specialize (IH b1 t1 c1 w1 Hsub Hbase1 Hwords C1).
    destruct (foldM _ words _ w1) as [s2 w2].
    destruct IH as (A2 & b2 & t2 & c2 & -> & C2).
    split; [eapply advances_trans; eassumption|].
    do 3 eexists. split; [reflexivity|exact C2].
Qed.

(** One event: it is passed on untouched, or cut into blocks that tile its
    interval. *)
Lemma format_one_cut max_chars_per_line lines_per_subtitle formatted sub w :
  (sub < List.length (heap w))%nat ->
  let (out, w') :=
    format_one max_chars_per_line lines_per_subtitle formatted sub w in
  advances sub w w'
  /\ exists blocks,
       out = formatted ++ blocks
       /\ cut_into (max_chars_per_line * lines_per_subtitle) w w' sub blocks.
Proof.
  intros Hsub. unfold format_one, bind at 1, get_event at 1, read at 1.
  cbn [fst snd].
  set (e := rd (heap w) sub).
  destruct (String.eqb_spec (type e) "sound") as [Ty|Ty].
  { unfold ret. split; [apply advances_refl|]. exists [sub].
    split; [reflexivity|]. left. repeat split. now left. }
  destruct (Z.leb_spec (Py.len (text e))
                       (max_chars_per_line * lines_per_subtitle)) as [Le|Gt].
  { unfold ret. split; [apply advances_refl|]. exists [sub].
    split; [reflexivity|]. left. repeat split. now right. }
  assert (NF : ~ fits (max_chars_per_line * lines_per_subtitle) e).
  { intros [H|H]; [contradiction|lia]. }
  unfold bind at 1.
  pose proof (word_fold_cutting formatted (List.length (heap w)) (start e) sub
                (text e) (max_chars_per_line * lines_per_subtitle)
                (Py.split (text e)) [] "" 0 w Hsub (Nat.le_refl _)
                (split_from_nonempty "" (text e))) as H.
  rewrite app_nil_r in H.
  destruct (foldM _ _ _ w) as [s1 w1].
  destruct H as (A1 & blocks & current_text & current_chars & -> & C1).
  { split; [constructor|split; [reflexivity|now left]]. }
  destruct C1 as (HF & HC & HN).
  destruct (Py.truthy current_text) eqn:T.
  - unfold bind, get_event, read, new_event, ret. cbn [fst snd heap log].
    set (e1 := rd (heap w1) sub).
    set (chunk := speech_chunk (start e1) (end_ e1) current_text).
    destruct A1 as (L1 & F1 & E1).
    assert (A2 : advances sub w (mkWorld (heap w1 ++ [chunk]) (log w1))).
    { split; [cbn [heap]; rewrite length_app; lia|split].
      - intros l Hl N. cbn [heap]. rewrite rd_app_old by lia. now apply F1.
      - cbn [heap]. rewrite rd_app_old by lia. exact E1. }
    split; [exact A2|].
    exists (blocks ++ [List.length (heap w1)]).
    split; [now rewrite app_assoc|]. right. split; [exact NF|].
    cbn [heap].
    assert (Keep : forall l, In l blocks ->
                     rd (heap w1 ++ [chunk]) l = rd (heap w1) l).
    { intros l Hl. rewrite Forall_forall in HF.
      destruct (HF l Hl) as [B _]. apply rd_app_old. lia. }
    split.
    + apply Forall_app. split.
      * apply Forall_forall. intros l Hl. rewrite (Keep l Hl).
        rewrite Forall_forall in HF. destruct (HF l Hl) as [B Ty'].
        rewrite length_app. simpl. split; [lia|exact Ty'].
      * constructor; [|constructor]. rewrite rd_app_new, length_app. simpl.
        split; [lia|reflexivity].
    + right. rewrite map_app, (map_rd_same _ _ _ Keep). cbn [map].
      rewrite rd_app_new. fold e.
      replace (end_ e) with (end_ chunk) by (cbn; exact E1).
      apply (chain_snoc (start e) _ (start e1) chunk HC). reflexivity.
  - unfold ret. split; [exact A1|]. exists blocks.
    split; [reflexivity|]. right. split; [exact NF|].
    apply truthy_nonempty in T.
    destruct HN as [->|N]; [|contradiction].
    split; [constructor|now left].
Qed.

Lemma cut_into_later max_chars w0 w w' sub' sub blocks :
  (sub < List.length (heap w0))%nat -> sub <> sub' ->
  (sub' < List.length (heap w0))%nat ->
  (List.length (heap w0) <= List.length (heap w))%nat ->
  advances sub' w w' ->
  cut_into max_chars w0 w sub blocks -> cut_into max_chars w0 w' sub blocks.
Proof.
  intros Hs N Hs' L0 (L & F & _) [(H1 & H2 & H3)|(H1 & H2 & H3)].
  - left. repeat split; auto. rewrite F by (auto; lia). exact H3.
  - right. split; [exact H1|].
    assert (Keep : forall l, In l blocks -> rd (heap w') l = rd (heap w) l).
    { intros l Hl. rewrite Forall_forall in H2.
      destruct (H2 l Hl) as [B _]. apply F; lia. }
    split.
    + apply Forall_forall. intros l Hl. rewrite (Keep l Hl).
      rewrite Forall_forall in H2. destruct (H2 l Hl) as [B Ty].
      split; [lia|exact Ty].
    + now rewrite (map_rd_same _ _ _ Keep).
Qed.

Lemma format_fold_cut mc lps w0 subtitles : forall done groups w,
  NoDup (done ++ subtitles) ->
  Forall (fun l => (l < List.length (heap w0))%nat) (done ++ subtitles) ->
  (List.length (heap w0) <= List.length (heap w))%nat ->
  (forall l, (l < List.length (heap w0))%nat -> ~ In l done ->
     rd (heap w) l = rd (heap w0) l) ->
  Forall2 (cut_into (mc * lps) w0 w) done groups ->
  let (out, w') :=
    foldM (format_one mc lps) subtitles (List.concat groups) w in
  exists groups',
    out = List.concat groups'
    /\ Forall2 (cut_into (mc * lps) w0 w') (done ++ subtitles) groups'.
Proof.
  induction subtitles as [|sub subtitles IH]; intros done groups w ND V L0 U F.
  - simpl. unfold ret. exists groups. now rewrite app_nil_r.
  - cbn [foldM]. unfold bind.
    assert (Hsub0 : (sub < List.length (heap w0))%nat).
    { rewrite Forall_forall in V. apply V, in_or_app. right. now left. }
    assert (Nd : ~ In sub done).
    { intros Hin. apply NoDup_remove_2 in ND. apply ND, in_or_app. now left. }
    pose proof (format_one_cut mc lps (List.concat groups) sub w
                  ltac:(lia)) as H.
    destruct (format_one mc lps (List.concat groups) sub w) as [out1 w1].
    destruct H as (A & blocks & -> & C).
    assert (E : rd (heap w) sub = rd (heap w0) sub) by now apply U.
    assert (C0 : cut_into (mc * lps) w0 w1 sub blocks).
    { unfold cut_into in *. rewrite E in C.
      destruct C as [C|(C1 & C2 & C3)]; [now left|right].
      split; [exact C1|split; [|exact C3]].
      eapply Forall_impl; [|exact C2]. intros l [B Ty]. split; [lia|exact Ty]. }
    assert (F1 : Forall2 (cut_into (mc * lps) w0 w1) (done ++ [sub])
                         (groups ++ [blocks])).
    { apply Forall2_app; [|constructor; [exact C0|constructor]].
      assert (Vd : Forall (fun l => (l < List.length (heap w0))%nat /\ l <> sub)
                          done).
      { apply Forall_forall. intros l Hl. split.
        - rewrite Forall_forall in V. apply V, in_or_app. now left.
        - intros ->. contradiction. }
      clear - F Vd A L0 Hsub0.
      induction F as [|d g ds gs Hdg F IH]; constructor.
      - inversion Vd as [|? ? [Hd Nd] ?]; subst.
        eapply cut_into_later; eauto.
      - apply IH. now inversion Vd. }
    specialize (IH (done ++ [sub]) (groups ++ [blocks]) w1).
    rewrite <- !app_assoc in IH. cbn [app] in IH.
    rewrite concat_app in IH. cbn [List.concat] in IH.
    rewrite app_nil_r in IH.
    apply IH; auto.
    + destruct A as (L & _). lia.
    + intros l Hl Nl. destruct A as (L & FA & _).
      rewrite FA; [apply U; auto|lia|].
      * intros Hin. apply Nl, in_or_app. now left.
      * intros ->. apply Nl, in_or_app. right. now left.
Qed.

(** The blocks cut from an event tile its interval.  For distinct events of
    the store, the output of [format_subtitles] is, up to its final ordering
    by start, one group of events for every input event in turn: the event
    itself, with its record unchanged, when it is a sound or its text is
    within the limit; otherwise new speech events of which the first starts
    at the start the event had, each next one starts where the one before
    it ends, and the last ends at the end of the event (or no event at all,
    when every word was dropped). *)
Theorem format_subtitles_tiles (subtitles : list loc)
    (max_chars_per_line lines_per_subtitle : Z) (w : World) :
  NoDup subtitles ->
  Forall (fun l => (l < List.length (heap w))%nat) subtitles ->
  let r := format_subtitles subtitles max_chars_per_line lines_per_subtitle w in
  exists groups,
    Permutation (fst r) (List.concat groups)
    /\ Forall2 (cut_into (max_chars_per_line * lines_per_subtitle) w (snd r))
               subtitles groups.
Proof.
  intros ND V r. subst r. unfold format_subtitles, bind.
  pose proof (format_fold_cut max_chars_per_line lines_per_subtitle w
                subtitles [] [] w ND V (Nat.le_refl _)
                (fun l _ _ => eq_refl) (Forall2_nil _)) as H.
  cbn [List.concat] in H.
  destruct (foldM _ subtitles [] w) as [formatted w'].
  destruct H as (groups & -> & F).
  exists groups. unfold read. cbn [fst snd].
  split; [apply stable_sort_perm|exact F].
Qed.

Lemma format_subtitles_tiles_witness :
  (NoDup [0; 1]%nat
   /\ Forall (fun l => (l < List.length (heap tiles_example))%nat) [0; 1]%nat)
  /\ exists groups,
       Permutation (fst (format_subtitles [0; 1]%nat 5 1 tiles_example))
                   (List.concat groups)
       /\ Forall2 (cut_into (5 * 1) tiles_example
                            (snd (format_subtitles [0; 1]%nat 5 1 tiles_example)))
                  [0; 1]%nat groups.
Proof.
  assert (H1 : NoDup [0; 1]%nat).
  { repeat constructor; simpl; intuition discriminate. }
  assert (H2 : Forall (fun l => (l < List.length (heap tiles_example))%nat)
                      [0; 1]%nat).
  { repeat constructor. }
  split; [now split|].
  exact (format_subtitles_tiles [0; 1]%nat 5 1 tiles_example H1 H2).
Defined.

Example format_subtitles_tiles_example :
  let (out, w') := format_subtitles [0; 1]%nat 5 1 tiles_example in
  map (fun l => rd (heap w') l) out
  = [ mkEvent 0 545 "aa bb" "speech" None None None;
      mkEvent 500 1460 "[Door slam]" "sound" (Some (1 # 2)) (Some "yamnet")
              (Some 11);
      mkEvent 545 1200 "cc dd" "speech" None None None ].
Proof. vm_compute. reflexivity. Qed.

(** ** The first answer wins *)

Lemma request_loop_first_success client system_message batch_text content k :
  forall attempt more w,
  (k < more)%nat ->
  (forall j, (j < k)%nat ->
     client (requests_in (log w) + j)%nat system_message batch_text = None) ->
  client (requests_in (log w) + k)%nat system_message batch_text
  = Some content ->
  request_loop client system_message batch_text (Z.of_nat (attempt + more))
               (seq attempt more) w
  = (Some (Py.strip content),
     mkWorld (heap w)
             (log w ++ retries system_message batch_text attempt k)).
Proof.
  induction k as [|k IH]; intros attempt more w Hk Hfail Hok.
  - destruct more as [|more]; [lia|]. cbn [seq request_loop].
    unfold bind, chat_completion. rewrite Nat.add_0_r in Hok. rewrite Hok.
    reflexivity.
  - destruct more as [|more]; [lia|]. cbn [seq request_loop].
    unfold bind at 1. unfold chat_completion.
    pose proof (Hfail 0%nat ltac:(lia)) as H0. rewrite Nat.add_0_r in H0.
    rewrite H0.
    destruct (Z.ltb_spec (Z.of_nat attempt) (Z.of_nat (attempt + S more) - 1))
      as [_|Hge]; [|lia].
    unfold bind, emit. cbn [heap log].
    replace (attempt + S more)%nat with (S attempt + more)%nat by lia.
    rewrite (IH (S attempt) more); cbn [heap log].
    + rewrite <- !app_assoc. reflexivity.
    + lia.
    + intros j Hj. rewrite !requests_in_app. cbn [requests_in].
      match goal with
      | |- client ?n _ _ = _ =>
          replace n with (requests_in (log w) + S j)%nat by lia
      end.
      apply Hfail. lia.
    + rewrite !requests_in_app. cbn [requests_in].
      match goal with
      | |- client ?n _ _ = _ =>
          replace n with (requests_in (log w) + S k)%nat by lia
      end.
      exact Hok.
Qed.

(** The first answer wins.  When the first [k] attempts fail and the next
    one, still within [max_retries], is answered,
    [make_translation_request] returns that answer stripped, after exactly
    [k + 1] requests with a pause of 1, 2, 4, ... seconds after each failed
    one, and leaves the store as it was. *)
Theorem make_translation_request_first_success
    (client : nat -> string -> string -> option string)
    (system_message batch_text content : string)
    (batch_idx max_retries k : nat) (w : World) :
  (k < max_retries)%nat ->
  (forall j, (j < k)%nat ->
     client (requests_in (log w) + j)%nat system_message batch_text = None) ->
  client (requests_in (log w) + k)%nat system_message batch_text
  = Some content ->
  make_translation_request client system_message batch_text batch_idx
                           max_retries w
  = (Some (Py.strip content),
     mkWorld (heap w) (log w ++ retries system_message batch_text 0 k)).
Proof.
  intros Hk Hfail Hok. unfold make_translation_request.
  apply (request_loop_first_success client system_message batch_text content
           k 0 max_retries w Hk Hfail Hok).
Qed.

Lemma make_translation_request_first_success_witness :
  ((2 < 3)%nat
   /\ (forall j, (j < 2)%nat ->
         third_time_client (requests_in (log translate_example) + j)%nat
                           "system" "1. Hello world" = None)
   /\ third_time_client (requests_in (log translate_example) + 2)%nat
                        "system" "1. Hello world"
      = Some " 1. Bonjour le monde  ")
  /\ make_translation_request third_time_client "system" "1. Hello world" 0 3
                              translate_example
     = (Some "1. Bonjour le monde",
        mkWorld (heap translate_example)
                [ Request "system" "1. Hello world"; Sleep 1;
                  Request "system" "1. Hello world"; Sleep 2;
                  Request "system" "1. Hello world" ]).
Proof.
  assert (H1 : (2 < 3)%nat) by lia.
  assert (H2 : forall j, (j < 2)%nat ->
                 third_time_client (requests_in (log translate_example) + j)%nat
                                   "system" "1. Hello world" = None).
  { intros j Hj. destruct j as [|[|j]]; [reflexivity|reflexivity|lia]. }
  assert (H3 : third_time_client (requests_in (log translate_example) + 2)%nat
                                 "system" "1. Hello world"
               = Some " 1. Bonjour le monde  ") by reflexivity.
  split; [repeat split; assumption|].
  exact (make_translation_request_first_success third_time_client "system"
           "1. Hello world" " 1. Bonjour le monde  " 0 3 2 translate_example
           H1 H2 H3).
Defined.

(** ** The reconciled sound events *)





Example combine_sound_events_example :
  let (out, w') := combine_sound_events [0%nat] [1%nat] "horror"
                                        combine_example in
  out = Some [1%nat]
  /\ map priority (heap w') = [Some 10; Some 10].
Proof. vm_compute. split; reflexivity. Qed.

(** ** The numbered list and its reading *)

Lemma rstrip_cons_nospace c s :
  Py.isspace c = false -> Py.rstrip (String c s) = String c (Py.rstrip s).
Proof. simpl. intros ->. now destruct (Py.rstrip s). Qed.

Lemma no_space_cons c s :
  no_space (String c s) -> Py.isspace c = false /\ no_space s.
Proof.
  unfold no_space. simpl. rewrite andb_true_iff, negb_true_iff. tauto.
Qed.

Lemma rstrip_app_nospace d r :
  no_space d -> Py.rstrip (d ++ r) = (d ++ Py.rstrip r)%string.
Proof.
  induction d as [|c d IH]; intros H; [reflexivity|].
  apply no_space_cons in H. destruct H as [Hc Hd].
  cbn [append]. rewrite rstrip_cons_nospace by exact Hc. now rewrite IH.
Qed.

Lemma strip_numbered d r :
  no_space d -> d <> "" -> Py.strip (d ++ r) = (d ++ Py.rstrip r)%string.
Proof.
  intros H N. unfold Py.strip. destruct d as [|c d]; [contradiction|].
  pose proof (no_space_cons _ _ H) as [Hc _].
  cbn [append Py.lstrip]. rewrite Hc.
  now apply (rstrip_app_nospace (String c d)).
Qed.

Lemma rstrip_blank_lstrip t : Py.rstrip t = "" -> Py.lstrip t = "".
Proof.
  induction t as [|c t IH]; simpl; [reflexivity|].
  destruct (Py.rstrip t); [|discriminate].
  destruct (Py.isspace c); [intros _; now apply IH|discriminate].
Qed.

Lemma lstrip_rstrip t : Py.lstrip (Py.rstrip t) = Py.rstrip (Py.lstrip t).
Proof.
  induction t as [|c t IH]; [reflexivity|].
  cbn [Py.lstrip]. destruct (Py.isspace c) eqn:Hc.
  - rewrite <- IH. cbn [Py.rstrip]. rewrite Hc.
    destruct (Py.rstrip t) as [|a r]; [reflexivity|].
    cbn [Py.lstrip]. now rewrite Hc.
  - rewrite rstrip_cons_nospace by exact Hc. cbn [Py.lstrip]. now rewrite Hc.
Qed.

Lemma rstrip_idem t : Py.rstrip (Py.rstrip t) = Py.rstrip t.
Proof.
  induction t as [|c t IH]; [reflexivity|].
  cbn [Py.rstrip]. destruct (Py.rstrip t) as [|a r] eqn:E.
  - destruct (Py.isspace c) eqn:Hc; [reflexivity|].
    simpl. now rewrite Hc.
  - cbn [Py.rstrip] in *. rewrite IH. reflexivity.
Qed.

Lemma strip_after_space t :
  Py.strip (Py.rstrip (String " " t)) = Py.strip t.
Proof.
  cbn [Py.rstrip]. change (Py.isspace " ") with true.
  destruct (Py.rstrip t) as [|a r] eqn:E.
  - unfold Py.strip. now rewrite (rstrip_blank_lstrip t E).
  - rewrite <- E. unfold Py.strip. cbn [Py.lstrip].
    change (Py.isspace " ") with true. cbv iota.
    now rewrite lstrip_rstrip, rstrip_idem.
Qed.

Lemma digit_not_space c : is_digit c = true -> negb (Py.isspace c) = true.
Proof.
  destruct c as [[] [] [] [] [] [] [] []]; vm_compute; intros H;
    first [reflexivity|discriminate H].
Qed.

Lemma number_dot_no_space n : no_space (Py.str_of_nat n ++ ".").
Proof.
  apply no_space_app; [|reflexivity].
  unfold no_space. eapply all_chars_impl; [|apply str_of_nat_digits].
  apply digit_not_space.
Qed.

Lemma number_dot_not_empty n : (Py.str_of_nat n ++ ".")%string <> "".
Proof. intros H. apply append_empty in H. destruct H as [_ H]. discriminate. Qed.

(** A numbered item, stripped: the number and the dot are kept. *)
Lemma strip_item n t :
  Py.strip (Py.str_of_nat n ++ ". " ++ t)
  = ((Py.str_of_nat n ++ ".") ++ Py.rstrip (String " " t))%string.
Proof.
  rewrite <- (strip_numbered (Py.str_of_nat n ++ ".") (String " " t)
                (number_dot_no_space n) (number_dot_not_empty n)).
  now rewrite string_app_assoc.
Qed.

Lemma prefix_cons c s c' s' :
  String.prefix (String c s) (String c' s') = true ->
  c = c' /\ String.prefix s s' = true.
Proof. simpl. destruct (ascii_dec c c'); [auto|discriminate]. Qed.

Lemma digits_prefix_eq a : forall b x,
  all_chars is_digit a = true -> all_chars is_digit b = true ->
  String.prefix (a ++ ".") (b ++ "." ++ x) = true -> a = b.
Proof.
  induction a as [|c a IH]; intros b x Ha Hb H.
  - destruct b as [|c' b]; [reflexivity|].
    cbn [append] in H. apply prefix_cons in H. destruct H as [<- _].
    cbn [all_chars] in Hb. apply andb_true_iff in Hb.
    destruct Hb as [Hb _]. discriminate Hb.
  - cbn [all_chars] in Ha. apply andb_true_iff in Ha. destruct Ha as [Hc Ha].
    destruct b as [|c' b].
    + cbn [append] in H. apply prefix_cons in H. destruct H as [-> _].
      discriminate Hc.
    + cbn [all_chars] in Hb. apply andb_true_iff in Hb. destruct Hb as [_ Hb].
      cbn [append] in H. apply prefix_cons in H. destruct H as [<- H].
      f_equal. now apply (IH b x).
Qed.

Lemma str_of_nat_inj n m : Py.str_of_nat n = Py.str_of_nat m -> n = m.
Proof.
  unfold Py.str_of_nat, Py.str_of_N. intros H.
  apply Nat2N.inj.
  rewrite <- (DecimalN.Unsigned.of_to (N.of_nat n)),
          <- (DecimalN.Unsigned.of_to (N.of_nat m)).
  f_equal.
  assert (E : Some (N.to_uint (N.of_nat n)) = Some (N.to_uint (N.of_nat m))).
  { rewrite <- !NilEmpty.usu. now rewrite H. }
  now injection E.
Qed.

Lemma item_other_number i j t :
  i <> j ->
  Py.startswith (Py.strip (Py.str_of_nat (j + 1) ++ ". " ++ t))
                (expected_prefix_of i) = false.
Proof.
  intros N. unfold Py.startswith, expected_prefix_of. rewrite strip_item.
  destruct (String.prefix _ _) eqn:P; [|reflexivity]. exfalso.
  rewrite string_app_assoc in P.
  apply digits_prefix_eq in P; try apply str_of_nat_digits.
  apply str_of_nat_inj in P. lia.
Qed.

Lemma item_same_number i t :
  find_translation (expected_prefix_of i)
                   [Py.strip (Py.str_of_nat (i + 1) ++ ". " ++ t)]
  = Some (Py.strip t).
Proof.
  cbn [find_translation]. unfold Py.startswith, expected_prefix_of.
  rewrite strip_item, prefix_append, drop_append.
  now rewrite strip_after_space.
Qed.

(** In the stripped items of a batch, the first line with the number of an
    entry is the line of that entry. *)
Lemma find_translation_items st batch : forall i k,
  (k < List.length batch)%nat ->
  find_translation (expected_prefix_of (i + k))
                   (map Py.strip (text_items st i batch))
  = Some (Py.strip (text (rd st (nth k batch 0%nat)))).
Proof.
  induction batch as [|sub batch IH]; intros i k Hk; [simpl in Hk; lia|].
  cbn [text_items map].
  destruct k as [|k].
  - rewrite Nat.add_0_r. cbn [nth].
    pose proof (item_same_number i (text (rd st sub))) as H.
    cbn [find_translation] in H |- *.
    destruct (Py.startswith _ _); [exact H|discriminate H].
  - cbn [find_translation nth].
    rewrite item_other_number by lia.
    replace (i + S k)%nat with (S i + k)%nat by lia.
    apply IH. simpl in Hk. lia.
Qed.

Lemma split_on_from_piece sep a : forall cur,
  lacks sep a -> Py.split_on_from sep cur a = [(cur ++ a)%string].
Proof.
  induction a as [|c a IH]; intros cur H; simpl.
  - assert (E : (cur ++ "")%string = cur)
      by (clear; induction cur; simpl; congruence).
    now rewrite E.
  - unfold lacks in H. simpl in H. apply andb_true_iff in H.
    destruct H as [Hc Ha]. apply negb_true_iff in Hc. rewrite Hc.
    rewrite IH by exact Ha. now rewrite string_app_assoc.
Qed.

Lemma split_on_from_more sep a rest : forall cur,
  lacks sep a ->
  Py.split_on_from sep cur (a ++ String sep rest)
  = (cur ++ a)%string :: Py.split_on_from sep "" rest.
Proof.
  induction a as [|c a IH]; intros cur H; simpl.
  - rewrite Ascii.eqb_refl.
    assert (E : (cur ++ "")%string = cur)
      by (clear; induction cur; simpl; congruence).
    now rewrite E.
  - unfold lacks in H. simpl in H. apply andb_true_iff in H.
    destruct H as [Hc Ha]. apply negb_true_iff in Hc. rewrite Hc.
    rewrite IH by exact Ha. now rewrite string_app_assoc.
Qed.

Lemma split_on_join sep items :
  items <> [] -> Forall (lacks sep) items ->
  Py.split_on sep (Py.join (String sep "") items) = items.
Proof.
  unfold Py.split_on, Py.join. intros N F.
  induction F as [|x items Hx F IH]; [contradiction|].
  destruct items as [|y items].
  - simpl. now apply (split_on_from_piece sep x "").
  - rewrite concat_cons2. cbn [append].
    rewrite (split_on_from_more sep x _ "" Hx). cbn [append].
    f_equal. apply IH. discriminate.
Qed.

Lemma text_items_lack_newline st batch : forall i,
  Forall (fun l => lacks "010" (text (rd st l))) batch ->
  Forall (lacks "010") (text_items st i batch).
Proof.
  induction batch as [|sub batch IH]; intros i F; simpl; constructor.
  - inversion F; subst. apply lacks_app.
    + apply digits_without; [reflexivity|apply str_of_nat_digits].
    + apply lacks_cons; [reflexivity|]. apply lacks_cons; [reflexivity|].
      assumption.
  - apply IH. now inversion F.
Qed.

Lemma text_items_not_blank st batch : forall i,
  filter (fun line => Py.truthy (Py.strip line)) (text_items st i batch)
  = text_items st i batch.
Proof.
  induction batch as [|sub batch IH]; intros i; [reflexivity|].
  cbn [text_items filter]. rewrite strip_item, IH.
  destruct (Py.str_of_nat (i + 1) ++ ".")%string eqn:E;
    [now apply number_dot_not_empty in E|reflexivity].
Qed.

Lemma translated_lines_of_batch_text st batch :
  Forall (fun l => lacks "010" (text (rd st l))) batch ->
  translated_lines_of (batch_text st batch)
  = map Py.strip (text_items st 0 batch).
Proof.
  intros F. unfold translated_lines_of, batch_text.
  destruct batch as [|sub batch]; [reflexivity|].
  rewrite split_on_join.
  - now rewrite text_items_not_blank.
  - discriminate.
  - now apply text_items_lack_newline.
Qed.

Lemma map_seq_nth (f : loc -> Event) (g : loc -> Event) batch : forall n,
  (forall k, (k < List.length batch)%nat ->
     f (n + k)%nat = g (nth k batch 0%nat)) ->
  map f (seq n (List.length batch)) = map g batch.
Proof.
  induction batch as [|sub batch IH]; intros n H; [reflexivity|].
  cbn [List.length seq map]. f_equal.
  - specialize (H 0%nat ltac:(simpl; lia)). now rewrite Nat.add_0_r in H.
  - apply IH. intros k Hk. specialize (H (S k) ltac:(simpl; lia)).
    simpl in H. now rewrite Nat.add_succ_r in H.
Qed.

(** Reading back the numbered list that is sent for a batch gives the batch
    again.  When no text of the batch holds a line break and the response
    is the very text sent, [parse_translation_response] returns one event
    for every event of the batch, equal to it in every field, the text
    stripped of surrounding white space (and left alone when it is
    blank). *)
Theorem parse_batch_text_round_trip (batch : list loc) (w : World) :
  Forall (fun l => (l < List.length (heap w))%nat) batch ->
  Forall (fun l => lacks "010" (text (rd (heap w) l))) batch ->
  let r := parse_translation_response (batch_text (heap w) batch) batch w in
  map (rd (heap (snd r))) (fst r)
  = map (fun sub => set_text (echoed_text (text (rd (heap w) sub)))
                             (rd (heap w) sub)) batch.
Proof.
  intros V F r. subst r. unfold parse_translation_response.
  rewrite translated_lines_of_batch_text by exact F.
  pose proof (parse_from_spec (map Py.strip (text_items (heap w) 0 batch))
                batch 0 w V) as S.
  destruct (parse_from _ 0 batch w) as [out w']. cbn [fst snd].
  destruct S as (-> & _ & _ & _ & R).
  apply map_seq_nth. intros k Hk. rewrite (R k Hk).
  rewrite (find_translation_items (heap w) batch 0 k Hk).
  reflexivity.
Qed.

Lemma parse_batch_text_round_trip_witness :
  (Forall (fun l => (l < List.length (heap padded_example))%nat) [0; 1]%nat
   /\ Forall (fun l => lacks "010" (text (rd (heap padded_example) l)))
             [0; 1]%nat)
  /\ map (rd (heap (snd (parse_translation_response
                           (batch_text (heap padded_example) [0; 1]%nat)
                           [0; 1]%nat padded_example))))
         (fst (parse_translation_response
                 (batch_text (heap padded_example) [0; 1]%nat)
                 [0; 1]%nat padded_example))
     = [ mkEvent 0 900 "Hello world" "speech" None None None;
         mkEvent 1000 1900 "   " "speech" None None None ].
Proof.
  assert (H1 : Forall (fun l => (l < List.length (heap padded_example))%nat)
                      [0; 1]%nat).
  { repeat constructor. }
  assert (H2 : Forall (fun l => lacks "010" (text (rd (heap padded_example) l)))
                      [0; 1]%nat).
  { repeat constructor. }
  split; [now split|].
  exact (parse_batch_text_round_trip [0; 1]%nat padded_example H1 H2).
Defined.

(** ** The pipeline *)

Lemma translate_subtitles_sorted OPENAI_API_KEY client subtitles
    source_language target_language w :
  sorted_by_start (heap w) subtitles ->
  let r := translate_subtitles OPENAI_API_KEY client subtitles
                               source_language target_language w in
  sorted_by_start (heap (snd r)) (fst r).
Proof.
  intros S r. subst r. unfold translate_subtitles.
  destruct (negb (Py.truthy OPENAI_API_KEY)); [exact S|].
  destruct (String.eqb source_language target_language); [exact S|].
  unfold bind, read. cbn beta iota.
  repeat match goal with
         | |- context [let (_, _) := ?x in _] => destruct x as [? ?]
         end.
  cbn [fst snd]. apply stable_sort_by_start.
Qed.

Lemma format_subtitles_sorted subtitles mc lps w :
  let r := format_subtitles subtitles mc lps w in
  sorted_by_start (heap (snd r)) (fst r).
Proof.
  intros r. subst r. unfold format_subtitles, bind.
  destruct (foldM _ _ [] w) as [f w3]. unfold read. cbn [fst snd].
  apply stable_sort_by_start.
Qed.

(** [generate_subtitles] writes one file, named after the video, with the
    events in order of start.  Unless the configuration has a target
    language that differs from the source language, nothing is translated:
    the events written are those that [format_subtitles] returns for the
    merged events of the two detectors. *)
Theorem generate_subtitles_exports (OPENAI_API_KEY : string)
    (client : nat -> string -> string -> option string)
    (os_path_join : string -> string -> string)
    (splitext_root : string -> string)
    (generate_speech_subtitles generate_sound_subtitles
       : string -> string -> M (list loc))
    (video : Video) (config : SubtitleConfig) (output_dir : string)
    (w : World) :
  let detected_speech :=
    (if negb (non_verbal config)
     then generate_speech_subtitles (file_path video) (source_language config)
     else ret []) w in
  let detected_sound :=
    generate_sound_subtitles (file_path video) (genre config)
                             (snd detected_speech) in
  let formatted :=
    format_subtitles
      (merge_subtitles (heap (snd detected_sound)) (fst detected_speech)
                       (fst detected_sound) (accessibility_mode config)
                       (non_verbal_only_mode config))
      (max_chars_per_line config) (lines_per_subtitle config)
      (snd detected_sound) in
  let r := generate_subtitles OPENAI_API_KEY client os_path_join splitext_root
                              generate_speech_subtitles
                              generate_sound_subtitles video config
                              output_dir w in
  exists events,
    fst r = [export_subtitles os_path_join (heap (snd r)) events output_dir
                              (splitext_root (original_filename video))
                              (output_format config)]
    /\ sorted_by_start (heap (snd r)) events
    /\ (wants_translation config = false -> (events, snd r) = formatted).
Proof.
  intros detected_speech detected_sound formatted r.
  subst r formatted detected_sound detected_speech.
  unfold generate_subtitles, bind, read, ret.
  match goal with
  | |- context [let (_, _) := ?x in _] => destruct x as [speech w1]
  end.
  cbn [fst snd].
  destruct (generate_sound_subtitles _ _ w1) as [sound w2]. cbn [fst snd].
  pose proof (format_subtitles_sorted
                (merge_subtitles (heap w2) speech sound
                                 (accessibility_mode config)
                                 (non_verbal_only_mode config))
                (max_chars_per_line config) (lines_per_subtitle config) w2)
    as S.
  cbv zeta in S.
  destruct (format_subtitles _ _ _ w2) as [formatted_subtitles w3].
  cbn [fst snd] in S.
  destruct (wants_translation config).
  - pose proof (translate_subtitles_sorted OPENAI_API_KEY client
                  formatted_subtitles (source_language config)
                  (match target_language config with
                   | Some t => t
                   | None => ""
                   end) w3 S) as T.
    cbv zeta in T.
    destruct (translate_subtitles _ _ _ _ _ w3) as [translated w4].
    cbn [fst snd] in T |- *.
    exists translated. split; [reflexivity|split; [exact T|discriminate]].
  - cbn [fst snd]. exists formatted_subtitles.
    split; [reflexivity|split; [exact S|reflexivity]].
Qed.
